(** * parso.pgen2.pgen: from NFA fragments to compiled grammar tables

    A shallow embedding of [parso/pgen2/pgen.py]: the epsilon-closure and
    powerset construction ([_make_dfas]), the pairwise state unifier
    ([_simplify_dfas]), the transition compiler ([_make_transition]) and the
    driver ([generate_grammar]).

    Python objects are cells of an object store and references are
    addresses: the NFA graph is an arena of [NFAState] cells, DFA states live
    in a heap of [DFAState] cells that the functions thread explicitly, and
    [ReservedString] objects live in a heap of their own.  A Python [dict]
    is an insertion-ordered association list, a Python [set] of NFA nodes is
    a [gset nat] together with an iteration order that the development is
    parametric in. *)

From stdpp Require Import gmap strings list fin_maps pretty.
From Stdlib Require Import Ascii.

Set Warnings "-clear-no-such-hyp".


(** ** Results of running Python code *)

(** The exceptions the embedded code can raise. *)
Inductive exn :=
  | AssertionError
  | StopIteration
  | AttributeError
  | IndexError
  | SyntaxError.

(** [Ok] is a normal return, [Raise] an uncaught exception.  [OutOfFuel] is
    returned by the bounded loops below when their bound is too small; it
    stands for a computation that has not finished. *)
Inductive result (A : Type) :=
  | Ok (a : A)
  | Raise (e : exn)
  | OutOfFuel.
Arguments Ok {_} _.
Arguments Raise {_} _.
Arguments OutOfFuel {_}.

#[global] Instance result_ret : MRet result := @Ok.
#[global] Instance result_bind : MBind result := λ A B f m,
  match m with
  | Ok a => f a
  | Raise e => Raise e
  | OutOfFuel => OutOfFuel
  end.

(** A [for] loop whose body may raise: the first exception ends the loop. *)
Fixpoint foldM {A B : Type} (f : B → A → result B) (l : list A) (b : B)
    : result B :=
  match l with
  | [] => Ok b
  | a :: l' => b' ← f b a; foldM f l' b'
  end.

(** Python's [assert]. *)
Definition assert (b : bool) : result unit :=
  if b then Ok () else Raise AssertionError.

(** ** Python dictionaries *)

(** A [dict] keeps its keys in insertion order; assigning to a key that is
    present keeps the key's position. *)
Section dict.
Context {K V : Type} `{EqDecision K}.

Fixpoint dict_get (k : K) (d : list (K * V)) : option V :=
  match d with
  | [] => None
  | (k', v) :: d' => if decide (k = k') then Some v else dict_get k d'
  end.

Fixpoint dict_set (k : K) (v : V) (d : list (K * V)) : list (K * V) :=
  match d with
  | [] => [(k, v)]
  | (k', v') :: d' =>
      if decide (k = k') then (k, v) :: d' else (k', v') :: dict_set k v d'
  end.

Definition dict_mem (k : K) (d : list (K * V)) : bool :=
  bool_decide (is_Some (dict_get k d)).

End dict.

(** ** The NFA graph (built by the grammar parser, read-only here) *)

(** Modelled from the spec: the classes [NFAArc] and [NFAState] of
    [parso/pgen2/grammar_parser.py] are missing; an arc has a target node
    and a label that is absent on an epsilon arc, a node has the name of
    its rule and the list of its outgoing arcs.  The field names are the
    ones [pgen.py] reads ([from_rule] and [arcs] carry the prefix [nfa_]
    here, [DFAState] has fields of the same names). *)
Record NFAArc := {
  next : nat;
  nonterminal_or_string : option string;
}.

Record NFAState := {
  nfa_from_rule : string;
  nfa_arcs : list NFAArc;
}.

#[global] Instance NFAState_inhabited : Inhabited NFAState :=
  populate {| nfa_from_rule := EmptyString; nfa_arcs := [] |}.

(** An NFA node is the index of its cell; a node outside the arena has no
    arcs. *)
Definition arcs_of (g : list NFAState) (n : nat) : list NFAArc :=
  nfa_arcs (g !!! n).

(** The epsilon closure of a node, as the glossary has it: the nodes reachable
    through unlabeled arcs only, the node itself included. *)
Definition eps_succ (g : list NFAState) (n m : nat) : Prop :=
  ∃ nfa_arc, nfa_arc ∈ arcs_of g n ∧ nonterminal_or_string nfa_arc = None
             ∧ next nfa_arc = m.

Definition eps_closure (g : list NFAState) (n m : nat) : Prop :=
  rtc (eps_succ g) n m.

(** Iteration over a Python [set] visits every member once, in an order the
    language does not fix. *)
Class SetOrder := {
  set_iter : gset nat → list nat;
  set_iter_perm : ∀ X, set_iter X ≡ₚ elements X;
}.

#[global] Program Instance elements_order : SetOrder := {| set_iter := elements |}.
Next Obligation. done. Qed.

(** ** DFA states *)

(** Modelled from the spec: the class [DFAPlan] of
    [parso/pgen2/grammar.py] is missing; a transition instruction wraps the
    target state. *)
Record DFAPlan := { next_dfa : nat }.

(** A transition key: a token type of the token namespace, or a
    [ReservedString] object (by address). *)
Inductive transition (T : Type) :=
  | TokenKey (t : T)
  | ReservedKey (r : nat).
Arguments TokenKey {_} _.
Arguments ReservedKey {_} _.

#[global] Instance transition_eq_dec {T} `{EqDecision T} : EqDecision (transition T).
Proof. solve_decision. Defined.

Record DFAState (T : Type) := {
  from_rule : string;
  nfa_set : gset nat;
  is_final : bool;
  arcs : list (string * nat);
  ilabel_to_plan : list (transition T * DFAPlan);
  nonterminal_arcs : list (string * nat);
}.
Arguments from_rule {_} _.
Arguments nfa_set {_} _.
Arguments is_final {_} _.
Arguments arcs {_} _.
Arguments ilabel_to_plan {_} _.
Arguments nonterminal_arcs {_} _.

Record ReservedString := { value : string }.

(** Modelled from the spec: the class [Grammar] of [parso/pgen2/grammar.py]
    is missing; the compiled grammar holds the start rule's name, the rule
    table and the table of reserved strings. *)
Record Grammar := {
  start_nonterminal : option string;
  nonterminal_to_dfas : list (string * list nat);
  reserved_syntax_strings : list (string * nat);
}.

Section pgen.
Context {T : Type} `{EqDecision T} `{SetOrder}.

#[global] Instance DFAState_inhabited : Inhabited (DFAState T) :=
  populate {| from_rule := EmptyString; nfa_set := ∅; is_final := false; arcs := [];
              ilabel_to_plan := []; nonterminal_arcs := [] |}.

Definition set_arcs (a : list (string * nat)) (s : DFAState T) : DFAState T :=
  {| from_rule := from_rule s; nfa_set := nfa_set s; is_final := is_final s;
     arcs := a; ilabel_to_plan := ilabel_to_plan s;
     nonterminal_arcs := nonterminal_arcs s |}.

(** [DFAState.__init__]: [next(iter(nfa_set))] raises on an empty set. *)
Definition new_DFAState (from_rule : string) (nfa_set : gset nat) (final : nat)
    : result (DFAState T) :=
  if decide (nfa_set = ∅) then Raise StopIteration
  else Ok {| from_rule := from_rule; nfa_set := nfa_set;
             is_final := bool_decide (final ∈ nfa_set); arcs := [];
             ilabel_to_plan := []; nonterminal_arcs := [] |}.

(** [DFAState.add_arc] *)
Definition add_arc (next_ : nat) (label : string) (self : DFAState T)
    : result (DFAState T) :=
  _ ← assert (negb (dict_mem label (arcs self)));
  Ok (set_arcs (dict_set label next_ (arcs self)) self).

(** [DFAState.unifystate] *)
Definition unifystate (old new : nat) (self : DFAState T) : DFAState T :=
  set_arcs
    (map (λ '(label, next_), (label, if decide (next_ = old) then new else next_))
         (arcs self))
    self.

(** [DFAState.__eq__] *)
Definition DFAState_eq (self other : DFAState T) : bool :=
  if bool_decide (is_final self ≠ is_final other) then false
  else if bool_decide (length (arcs self) ≠ length (arcs other)) then false
  else forallb (λ '(label, next_),
                  bool_decide (dict_get label (arcs other) = Some next_))
               (arcs self).

(** ** Epsilon closure *)

(** [addclosure], the local function of [_make_dfas]; [fuel] bounds the
    recursion depth. *)
Fixpoint addclosure_fuel (fuel : nat) (g : list NFAState) (nfa_state : nat)
    (base_nfa_set : gset nat) : result (gset nat) :=
  match fuel with
  | 0 => OutOfFuel
  | S fuel' =>
      if decide (nfa_state ∈ base_nfa_set) then Ok base_nfa_set
      else
        foldM (λ base nfa_arc,
                 match nonterminal_or_string nfa_arc with
                 | None => addclosure_fuel fuel' g (next nfa_arc) base
                 | Some _ => Ok base
                 end)
              (arcs_of g nfa_state) ({[nfa_state]} ∪ base_nfa_set)
  end.

Definition addclosure (g : list NFAState) : nat → gset nat → result (gset nat) :=
  addclosure_fuel (S (length g)) g.

(** ** Powerset construction *)

(** The body of the loop that fills the local dictionary [arcs]. *)
Definition collect_arc (g : list NFAState) (arcs : list (string * gset nat))
    (nfa_arc : NFAArc) : result (list (string * gset nat)) :=
  match nonterminal_or_string nfa_arc with
  | None => Ok arcs
  | Some label =>
      let nfa_set := default ∅ (dict_get label arcs) in
      nfa_set' ← addclosure g (next nfa_arc) nfa_set;
      Ok (dict_set label nfa_set' arcs)
  end.

Definition collect_arcs (g : list NFAState) (state : DFAState T)
    : result (list (string * gset nat)) :=
  foldM (λ arcs nfa_state, foldM (collect_arc g) (arcs_of g nfa_state) arcs)
        (set_iter (nfa_set state)) [].

(** The body of the loop over [arcs.items()]: find or create the target
    state, then record the arc on [state]. *)
Definition link_arc (rule : string) (finish : nat) (state : nat)
    (hs : list (DFAState T) * list nat) (item : string * gset nat)
    : result (list (DFAState T) * list nat) :=
  let '(h, states) := hs in
  let '(nonterminal_or_string, nfa_set') := item in
  '(h1, states1, nested_state) ←
    match list_find (λ l, nfa_set (h !!! l) = nfa_set') states with
    | Some (_, l) => Ok (h, states, l)
    | None =>
        s ← new_DFAState rule nfa_set' finish;
        Ok (h ++ [s], states ++ [length h], length h)
    end;
  state' ← add_arc nested_state nonterminal_or_string (h1 !!! state);
  Ok (<[state := state']> h1, states1).

(** The loop [for state in states], which sees the states appended while
    it runs; [k] is the position of the iterator. *)
Fixpoint make_dfas_loop (fuel : nat) (g : list NFAState) (rule : string)
    (finish : nat) (k : nat) (h : list (DFAState T)) (states : list nat)
    : result (list (DFAState T) * list nat) :=
  match states !! k with
  | None => Ok (h, states)
  | Some state =>
      match fuel with
      | 0 => OutOfFuel
      | S fuel' =>
          arcs ← collect_arcs g (h !!! state);
          '(h', states') ← foldM (link_arc rule finish state) arcs (h, states);
          make_dfas_loop fuel' g rule finish (S k) h' states'
      end
  end.

Definition _make_dfas_fuel (fuel : nat) (g : list NFAState)
    (h : list (DFAState T)) (start finish : nat)
    : result (list (DFAState T) * list nat) :=
  base_nfa_set ← addclosure g start ∅;
  s ← new_DFAState (nfa_from_rule (g !!! start)) base_nfa_set finish;
  make_dfas_loop fuel g (nfa_from_rule (g !!! start)) finish 0
                 (h ++ [s]) [length h].

(** Every node that can occur in a node set: [start] and the arc targets. *)
Definition nfa_targets (g : list NFAState) : gset nat :=
  list_to_set (next <$> (g ≫= nfa_arcs)).

Definition _make_dfas (g : list NFAState) (h : list (DFAState T))
    (start finish : nat) : result (list (DFAState T) * list nat) :=
  _make_dfas_fuel (2 ^ size ({[start]} ∪ nfa_targets g)) g h start finish.

(** ** State unification *)

(** The inner loop [for j in range(i + 1, len(dfas))]: the first position
    after [i] whose state equals [state_i]. *)
Definition find_equal (h : list (DFAState T)) (state_i : nat)
    (dfas : list nat) (i : nat) : option (nat * nat) :=
  prod_map (λ p, S i + p) id <$>
    list_find (λ state_j, DFAState_eq (h !!! state_i) (h !!! state_j) = true)
              (drop (S i) dfas).

(** [for state in dfas: state.unifystate(state_j, state_i)] *)
Definition unify_all (state_j state_i : nat) (h : list (DFAState T))
    (dfas : list nat) : list (DFAState T) :=
  foldl (λ h state, alter (unifystate state_j state_i) state h) h dfas.

(** The loop [for i, state_i in enumerate(dfas)], from position [i] on.
    [log] is the list of pairs [(i, j)] that the commented-out [print] of
    the source would show, oldest first. *)
Fixpoint simplify_pass (fuel : nat) (i : nat) (h : list (DFAState T))
    (dfas : list nat) (changes : bool) (log : list (nat * nat))
    : result (list (DFAState T) * list nat * bool * list (nat * nat)) :=
  match dfas !! i with
  | None => Ok (h, dfas, changes, log)
  | Some state_i =>
      match fuel with
      | 0 => OutOfFuel
      | S fuel' =>
          match find_equal h state_i dfas i with
          | Some (j, state_j) =>
              let dfas' := delete j dfas in
              let h' := unify_all state_j state_i h dfas' in
              simplify_pass fuel' (S i) h' dfas' true (log ++ [(i, j)])
          | None => simplify_pass fuel' (S i) h dfas changes log
          end
      end
  end.

(** The loop [while changes]. *)
Fixpoint simplify_loop (fuel : nat) (h : list (DFAState T))
    (dfas : list nat) (log : list (nat * nat))
    : result (list (DFAState T) * list nat * list (nat * nat)) :=
  match fuel with
  | 0 => OutOfFuel
  | S fuel' =>
      '(h', dfas', changes, log') ←
        simplify_pass (length dfas) 0 h dfas false log;
      if changes : bool then simplify_loop fuel' h' dfas' log'
      else Ok (h', dfas', log')
  end.

Definition _simplify_dfas_log (h : list (DFAState T)) (dfas : list nat)
    : result (list (DFAState T) * list nat * list (nat * nat)) :=
  simplify_loop (S (length dfas)) h dfas [].

Definition _simplify_dfas (h : list (DFAState T)) (dfas : list nat)
    : result (list (DFAState T) * list nat) :=
  '(h', dfas', _) ← _simplify_dfas_log h dfas; Ok (h', dfas').

(** The procedure as the specification words it, for comparison with the
    loops above: scan the pairs [i < j] in order; at the first equal pair
    remove state [j], rewrite the arcs, and start the scan again; stop when
    a scan finds no equal pair. *)
Fixpoint first_equal_pair (n i : nat) (h : list (DFAState T)) (dfas : list nat)
    : option (nat * nat * nat * nat) :=
  match n with
  | 0 => None
  | S n' =>
      match dfas !! i with
      | None => None
      | Some state_i =>
          match find_equal h state_i dfas i with
          | Some (j, state_j) => Some (i, state_i, j, state_j)
          | None => first_equal_pair n' (S i) h dfas
          end
      end
  end.

Fixpoint simplify_restart_loop (fuel : nat) (h : list (DFAState T))
    (dfas : list nat) (log : list (nat * nat))
    : result (list (DFAState T) * list nat * list (nat * nat)) :=
  match fuel with
  | 0 => OutOfFuel
  | S fuel' =>
      match first_equal_pair (length dfas) 0 h dfas with
      | None => Ok (h, dfas, log)
      | Some (i, state_i, j, state_j) =>
          let dfas' := delete j dfas in
          simplify_restart_loop fuel' (unify_all state_j state_i h dfas') dfas'
                                (log ++ [(i, j)])
      end
  end.

Definition simplify_restart_log (h : list (DFAState T)) (dfas : list nat)
    : result (list (DFAState T) * list nat * list (nat * nat)) :=
  simplify_restart_loop (S (length dfas)) h dfas [].

(** ** Transition keys *)

Definition dquote : ascii := "034"%char.
Definition squote : ascii := "039"%char.

(** [str.isalpha] on the first character of a label; labels are ASCII
    text, as the grammar files of the project are. *)
Definition isalpha (c : ascii) : bool :=
  let n := nat_of_ascii c in
  (65 <=? n) && (n <=? 90) || (97 <=? n) && (n <=? 122).

Fixpoint startswith (p s : string) : bool :=
  match p, s with
  | EmptyString, _ => true
  | String a p', String b s' => bool_decide (a = b) && startswith p' s'
  | String _ _, EmptyString => false
  end.

Definition triple (q : ascii) : string :=
  String q (String q (String q EmptyString)).

(** The kinds of terminal label: a quoted literal starts with a quote
    character, a bare name with a letter. *)
Definition quoted (label : string) : Prop :=
  ∃ c rest, label = String c rest ∧ (c = dquote ∨ c = squote).

Definition triple_quoted (label : string) : Prop :=
  startswith (triple dquote) label = true ∨ startswith (triple squote) label = true.

Definition bare_name (label : string) : Prop :=
  ∃ c rest, label = String c rest ∧ isalpha c = true.

(** [literal_eval] of the standard library is not part of the program; it
    returns [None] where the library raises. *)
Context (literal_eval : string → option string).

Definition _make_transition (token_namespace : string → option T)
    (rs : list ReservedString * list (string * nat)) (label : string)
    : result (transition T * (list ReservedString * list (string * nat))) :=
  match label with
  | EmptyString => Raise IndexError
  | String c _ =>
      if isalpha c then
        match token_namespace label with
        | Some t => Ok (TokenKey t, rs)
        | None => Raise AttributeError
        end
      else
        _ ← assert (bool_decide (c = dquote) || bool_decide (c = squote));
        _ ← assert (negb (startswith (triple dquote) label)
                    && negb (startswith (triple squote) label));
        match literal_eval label with
        | None => Raise SyntaxError
        | Some value =>
            let '(rs_heap, reserved_syntax_strings) := rs in
            match dict_get value reserved_syntax_strings with
            | Some r => Ok (ReservedKey r, rs)
            | None =>
                let r := length rs_heap in
                Ok (ReservedKey r,
                    (rs_heap ++ [{| value := value |}],
                     dict_set value r reserved_syntax_strings))
            end
        end
  end.

(** ** The driver *)

Definition set_nonterminal_arcs (a : list (string * nat)) (s : DFAState T)
    : DFAState T :=
  {| from_rule := from_rule s; nfa_set := nfa_set s; is_final := is_final s;
     arcs := arcs s; ilabel_to_plan := ilabel_to_plan s;
     nonterminal_arcs := a |}.

Definition set_ilabel_to_plan (a : list (transition T * DFAPlan))
    (s : DFAState T) : DFAState T :=
  {| from_rule := from_rule s; nfa_set := nfa_set s; is_final := is_final s;
     arcs := arcs s; ilabel_to_plan := a;
     nonterminal_arcs := nonterminal_arcs s |}.

(** The body of the first loop of [generate_grammar]. *)
Definition build_rule (g : list NFAState)
    (acc : list (DFAState T) * list (string * list nat) * option string)
    (fragment : nat * nat)
    : result (list (DFAState T) * list (string * list nat) * option string) :=
  let '(h, rule_to_dfas, start_nonterminal) := acc in
  let '(nfa_a, nfa_z) := fragment in
  '(h1, dfas) ← _make_dfas g h nfa_a nfa_z;
  '(h2, dfas') ← _simplify_dfas h1 dfas;
  Ok (h2,
      dict_set (nfa_from_rule (g !!! nfa_a)) dfas' rule_to_dfas,
      match start_nonterminal with
      | None => Some (nfa_from_rule (g !!! nfa_a))
      | Some s => Some s
      end).

(** The body of the innermost loop of the second pass. *)
Definition compile_arc (token_namespace : string → option T)
    (rule_to_dfas : list (string * list nat)) (dfa_state : nat)
    (st : list (DFAState T) * (list ReservedString * list (string * nat)))
    (item : string * nat)
    : result (list (DFAState T) * (list ReservedString * list (string * nat))) :=
  let '(h, rs) := st in
  let '(terminal_or_nonterminal, next_dfa) := item in
  if dict_mem terminal_or_nonterminal rule_to_dfas then
    Ok (alter (λ s, set_nonterminal_arcs
                      (dict_set terminal_or_nonterminal next_dfa
                                (nonterminal_arcs s)) s)
              dfa_state h, rs)
  else
    '(transition, rs') ← _make_transition token_namespace rs terminal_or_nonterminal;
    Ok (alter (λ s, set_ilabel_to_plan
                      (dict_set transition {| next_dfa := next_dfa |}
                                (ilabel_to_plan s)) s)
              dfa_state h, rs').

Definition compile_state (token_namespace : string → option T)
    (rule_to_dfas : list (string * list nat))
    (st : list (DFAState T) * (list ReservedString * list (string * nat)))
    (dfa_state : nat)
    : result (list (DFAState T) * (list ReservedString * list (string * nat))) :=
  foldM (compile_arc token_namespace rule_to_dfas dfa_state)
        (arcs (st.1 !!! dfa_state)) st.

Definition compile_transitions (token_namespace : string → option T)
    (rule_to_dfas : list (string * list nat))
    (st : list (DFAState T) * (list ReservedString * list (string * nat)))
    : result (list (DFAState T) * (list ReservedString * list (string * nat))) :=
  foldM (λ st '(nonterminal, dfas),
           foldM (compile_state token_namespace rule_to_dfas) dfas st)
        rule_to_dfas st.

(** [generate_grammar]; [fragments] is what [GrammarParser(...).parse()]
    yields, over the NFA arena [g].  The result comes with the final heap
    of DFA states and the heap of reserved strings. *)
Definition generate_grammar (g : list NFAState) (fragments : list (nat * nat))
    (token_namespace : string → option T)
    : result (list (DFAState T) * list ReservedString * Grammar) :=
  '(h, rule_to_dfas, start_nonterminal) ←
    foldM (build_rule g) fragments ([], [], None);
  '(h', (rs_heap, reserved_strings)) ←
    compile_transitions token_namespace rule_to_dfas (h, ([], []));
  Ok (h', rs_heap,
      {| start_nonterminal := start_nonterminal;
         nonterminal_to_dfas := rule_to_dfas;
         reserved_syntax_strings := reserved_strings |}).

End pgen.

(** ** Texts for debugging *)

(** [DFAState.__repr__], for an object whose class is [DFAState] itself;
    [%s] prints a truth value as [True] or [False]. *)
Definition DFAState_repr {T : Type} (self : DFAState T) : string :=
  "<DFAState: " +:+ from_rule self +:+ " is_final="
  +:+ (if is_final self then "True" else "False") +:+ ">".

(** [ReservedString.__repr__] *)
Definition ReservedString_repr (self : ReservedString) : string :=
  "ReservedString(" +:+ value self +:+ ")".

(** How a function that prints ends.  [ValueError], which [list.index]
    raises, is not among the exceptions of the functions above. *)
Inductive ending :=
  | Returns
  | Raises (e : exn)
  | RaisesValueError.

Section dump.
Context {T : Type} `{EqDecision T}.

(** [dfas.index(next_)]: the first position of the list whose state is
    [next_] or equals it.  [list.index] compares by identity and then with
    [==], that is [DFAState.__eq__] with the state of the list as [self]. *)
Definition list_index (h : list (DFAState T)) (dfas : list nat) (next_ : nat)
    : option nat :=
  fst <$> list_find
    (λ state, state = next_ ∨ DFAState_eq (h !!! state) (h !!! next_) = true) dfas.

(** [print("  State", i, state.is_final and "(final)" or "")] *)
Definition state_text (i : nat) (final : bool) : string :=
  "  State " +:+ pretty i +:+ " " +:+ (if final then "(final)" else "").

(** ["    %s -> %d" % (nonterminal, j)] *)
Definition arc_text (nonterminal : string) (j : nat) : string :=
  "    " +:+ nonterminal +:+ " -> " +:+ pretty j.

(** The loop over [state.arcs.items()] of [_dump_dfas]; [out] holds the
    texts printed so far. *)
Fixpoint dump_arcs (h : list (DFAState T)) (dfas : list nat)
    (items : list (string * nat)) (out : list string) : list string * ending :=
  match items with
  | [] => (out, Returns)
  | (nonterminal, next_) :: items' =>
      match list_index h dfas next_ with
      | None => (out, RaisesValueError)
      | Some j => dump_arcs h dfas items' (out ++ [arc_text nonterminal j])
      end
  end.

(** The loop [for i, state in enumerate(dfas)], from position [i] on. *)
Fixpoint dump_states (h : list (DFAState T)) (dfas : list nat) (i : nat)
    (states : list nat) (out : list string) : list string * ending :=
  match states with
  | [] => (out, Returns)
  | state :: states' =>
      match dump_arcs h dfas (arcs (h !!! state))
              (out ++ [state_text i (is_final (h !!! state))]) with
      | (out', Returns) => dump_states h dfas (S i) states' out'
      | r => r
      end
  end.

(** [_dump_dfas]: the texts it prints, one for each call of [print], and
    how it ends. *)
Definition _dump_dfas (h : list (DFAState T)) (dfas : list nat)
    : list string * ending :=
  match dfas with
  | [] => ([], Raises IndexError)
  | first :: _ =>
      dump_states h dfas 0 dfas ["Dump of DFA for " +:+ from_rule (h !!! first)]
  end.

(** The position of a state in a list. *)
Definition position (dfas : list nat) (state : nat) : nat :=
  default 0 (fst <$> list_find (λ s, s = state) dfas).

(** A dump in which every arc shows the position of its target. *)
Definition dump_text (h : list (DFAState T)) (dfas : list nat) : list string :=
  ("Dump of DFA for " +:+ from_rule (h !!! (dfas !!! 0)))
  :: concat (imap (λ i state,
                     state_text i (is_final (h !!! state))
                     :: ((λ item, arc_text item.1 (position dfas item.2))
                           <$> arcs (h !!! state)))
                  dfas).
End dump.

(** ** Example inputs *)

(** An instance of [literal_eval] for the literals without escapes: the text
    between two equal quote characters, when no quote or backslash occurs in
    it. *)
Definition plain_char (c : ascii) : bool :=
  negb (bool_decide (c = dquote) || bool_decide (c = squote)
        || bool_decide (c = "092"%char)).

Fixpoint plain_body (q : ascii) (s : string) : option string :=
  match s with
  | EmptyString => None
  | String c EmptyString => if bool_decide (c = q) then Some EmptyString else None
  | String c s' => if plain_char c then String c <$> plain_body q s' else None
  end.

Definition plain_literal_eval (label : string) : option string :=
  match label with
  | String q s =>
      if bool_decide (q = dquote) || bool_decide (q = squote)
      then plain_body q s else None
  | EmptyString => None
  end.

(** A token namespace with two token types. *)
Definition py_tokens (name : string) : option nat :=
  if bool_decide (name = "NAME"%string) then Some 1
  else if bool_decide (name = "NUMBER"%string) then Some 2
  else None.

Definition nfa_arc (label : option string) (target : nat) : NFAArc :=
  {| next := target; nonterminal_or_string := label |}.

Definition nfa_node (rule : string) (out : list NFAArc) : NFAState :=
  {| nfa_from_rule := rule; nfa_arcs := out |}.

Definition quote (q : ascii) (s : string) : string :=
  String q (s +:+ String q EmptyString).

(** A fragment of two nodes that loop on each other: node 0 is start and
    finish. *)
Definition nfa_loop : list NFAState :=
  [ nfa_node "item" [nfa_arc (Some "'a'"%string) 1; nfa_arc None 1];
    nfa_node "item" [nfa_arc None 0; nfa_arc (Some "'a'"%string) 1] ].

(** [x: 'a' 'c' | 'b' 'c' | 'd' | 'e'], start 0 and finish 7. *)
Definition nfa_alternatives : list NFAState :=
  [ nfa_node "x" [nfa_arc (Some "'a'"%string) 1; nfa_arc (Some "'b'"%string) 2;
                  nfa_arc (Some "'d'"%string) 3; nfa_arc (Some "'e'"%string) 4];
    nfa_node "x" [nfa_arc (Some "'c'"%string) 5];
    nfa_node "x" [nfa_arc (Some "'c'"%string) 6];
    nfa_node "x" [nfa_arc None 7];
    nfa_node "x" [nfa_arc None 7];
    nfa_node "x" [nfa_arc None 7];
    nfa_node "x" [nfa_arc None 7];
    nfa_node "x" [] ].

(** Two rules, [stmt: 'if' NAME other] and [other: "if"], the first one
    naming the second before it is defined: fragments (0, 3) and (4, 5). *)
Definition nfa_two_rules : list NFAState :=
  [ nfa_node "stmt" [nfa_arc (Some "'if'"%string) 1];
    nfa_node "stmt" [nfa_arc (Some "NAME"%string) 2];
    nfa_node "stmt" [nfa_arc (Some "other"%string) 3];
    nfa_node "stmt" [];
    nfa_node "other" [nfa_arc (Some (quote dquote "if")) 5];
    nfa_node "other" [] ].

(** [item: 'a' | "a" NAME], start 0 and finish 1: two labels of the first
    state have the literal value [a]. *)
Definition nfa_same_literal : list NFAState :=
  [ nfa_node "item" [nfa_arc (Some "'a'"%string) 1;
                     nfa_arc (Some (quote dquote "a")) 2];
    nfa_node "item" [];
    nfa_node "item" [nfa_arc (Some "NAME"%string) 1] ].

(** [item: FOO], a token name that the namespace does not have. *)
Definition nfa_unknown_token : list NFAState :=
  [ nfa_node "item" [nfa_arc (Some "FOO"%string) 1];
    nfa_node "item" [] ].

(** The merges a run of the unifier logs. *)
Definition merges_of {A B} (r : result (A * B * list (nat * nat)))
    : option (B * list (nat * nat)) :=
  match r with
  | Ok (_, dfas, log) => Some (dfas, log)
  | _ => None
  end.

(** The DFA of [nfa_alternatives] before unification, then unified by the
    loops of the source and by the procedure that restarts its scan. *)
Definition alternatives_dfas : result (list (DFAState nat) * list nat) :=
  _make_dfas nfa_alternatives [] 0 7.

Definition alternatives_unified
    : result (list (DFAState nat) * list nat * list (nat * nat)) :=
  hd ← alternatives_dfas; _simplify_dfas_log hd.1 hd.2.

Definition alternatives_restarted
    : result (list (DFAState nat) * list nat * list (nat * nat)) :=
  hd ← alternatives_dfas; simplify_restart_log hd.1 hd.2.

(** The grammars of the examples, compiled. *)
Definition two_rules_grammar
    : result (list (DFAState nat) * list ReservedString * Grammar) :=
  generate_grammar plain_literal_eval nfa_two_rules [(0, 3); (4, 5)] py_tokens.

Definition same_literal_grammar
    : result (list (DFAState nat) * list ReservedString * Grammar) :=
  generate_grammar plain_literal_eval nfa_same_literal [(0, 1)] py_tokens.

Definition unknown_token_rules
    : result (list (DFAState nat) * list (string * list nat) * option string) :=
  foldM (build_rule nfa_unknown_token) [(0, 1)] ([], [], None).

Definition final_heap {A B} (r : result (list (DFAState nat) * A * B))
    : list (DFAState nat) :=
  match r with Ok (h, _, _) => h | _ => [] end.

Definition final_reserved {B} (r : result (list (DFAState nat) * list ReservedString * B))
    : list ReservedString :=
  match r with Ok (_, rs, _) => rs | _ => [] end.

Definition final_grammar {A} (r : result (A * Grammar)) : Grammar :=
  match r with
  | Ok (_, gr) => gr
  | _ => {| start_nonterminal := None; nonterminal_to_dfas := [];
            reserved_syntax_strings := [] |}
  end.

Definition final_rules {A B} (r : result (A * list (string * list nat) * B))
    : list (string * list nat) :=
  match r with Ok (_, rules, _) => rules | _ => [] end.

Definition final_start {A} (r : result (A * option string)) : option string :=
  match r with Ok (_, start) => start | _ => None end.

(** ** Invariants and specifications *)

(** The loop [for a in l: if f(a) is (k, v): t[k] = v] over a dictionary. *)
Definition dict_writes {A K V : Type} `{EqDecision K} (f : A → option (K * V))
    (l : list A) (t : list (K * V)) : list (K * V) :=
  foldl (λ t a, match f a with Some (k, v) => dict_set k v t | None => t end) t l.

(** The value the last assignment to [k] in that loop writes, if there is
    one. *)
Fixpoint last_write {A K V : Type} `{EqDecision K} (f : A → option (K * V))
    (l : list A) (k : K) : option V :=
  match l with
  | [] => None
  | a :: l' =>
      match last_write f l' k with
      | Some v => Some v
      | None =>
          match f a with
          | Some (k', v) => if decide (k' = k) then Some v else None
          | None => None
          end
      end
  end.

(** The nodes that have a cell in the arena. *)
Definition in_range (g : list NFAState) : gset nat :=
  list_to_set (seq 0 (length g)).

(** The local dictionary [arcs] of [_make_dfas]: distinct labels, each with
    a node set that is not empty and holds arc targets only. *)
Definition sets_ok (g : list NFAState) (arcs : list (string * gset nat)) : Prop :=
  NoDup arcs.*1 ∧ Forall (λ p, p.2 ≠ ∅ ∧ p.2 ⊆ nfa_targets g) arcs.

(** What the construction keeps true of every state it has created. *)
Record cell_ok {T : Type} (rule : string) (finish : nat) (U : gset nat)
    (s : DFAState T) : Prop := {
  cell_sub : nfa_set s ⊆ U;
  cell_final : is_final s = bool_decide (finish ∈ nfa_set s);
  cell_labels : NoDup (arcs s).*1;
  cell_plan : ilabel_to_plan s = [];
  cell_nonterminal : nonterminal_arcs s = [];
  cell_rule : from_rule s = rule;
}.

(** The states created so far are the cells [new] allocated after the
    initial heap, in the order of the list [states]. *)
Definition dfas_inv {T : Type} (rule : string) (finish : nat) (U : gset nat)
    (S0 : gset nat) (new : list (DFAState T)) : Prop :=
  NoDup (nfa_set <$> new) ∧ Forall (cell_ok rule finish U) new
  ∧ nfa_set (new !!! 0) = S0.

(** While the arcs of the state at position [k] are being recorded, its
    labels are [keys] and the later states have no arc yet. *)
Definition link_inv {T : Type} (rule : string) (finish : nat) (U : gset nat)
    (k : nat) (S0 : gset nat) (keys : list string) (new : list (DFAState T))
    : Prop :=
  dfas_inv rule finish U S0 new ∧ k < length new
  ∧ (∀ i, k < i → arcs (new !!! i) = [])
  ∧ (arcs (new !!! k)).*1 = keys.

(** No state of the list equals a later one. *)
Definition no_equal_pair {T : Type} (h : list (DFAState T)) (dfas : list nat)
    : Prop :=
  ∀ i j state_i state_j, i < j →
    dfas !! i = Some state_i → dfas !! j = Some state_j →
    DFAState_eq (h !!! state_i) (h !!! state_j) = false.

(** Two cells that differ at most in the targets of their arcs. *)
Definition same_cell {T : Type} (s s' : DFAState T) : Prop :=
  from_rule s' = from_rule s ∧ nfa_set s' = nfa_set s
  ∧ is_final s' = is_final s ∧ (arcs s').*1 = (arcs s).*1
  ∧ ilabel_to_plan s' = ilabel_to_plan s
  ∧ nonterminal_arcs s' = nonterminal_arcs s.

(** The interning table and the heap of reserved strings describe each
    other: a literal value is a key of the table exactly when an object with
    that value exists, and the table maps the value to that object. *)
Definition rs_ok (rs : list ReservedString * list (string * nat)) : Prop :=
  ∀ v a, dict_get v rs.2 = Some a ↔ rs.1 !! a = Some {| value := v |}.

Definition rs_le (rs rs' : list ReservedString * list (string * nat)) : Prop :=
  ∀ v a, dict_get v rs.2 = Some a → dict_get v rs'.2 = Some a.

(** What an arc writes to the nonterminal view and to the table of plans. *)
Definition nt_write (rules : list (string * list nat)) (item : string * nat)
    : option (string * nat) :=
  if dict_mem item.1 rules then Some item else None.

Definition plan_write {T : Type} (literal_eval : string → option string)
    (token_namespace : string → option T) (rules : list (string * list nat))
    (rs : list ReservedString * list (string * nat))
    (item : string * nat) : option (transition T * DFAPlan) :=
  if dict_mem item.1 rules then None
  else match _make_transition literal_eval token_namespace rs item.1 with
       | Ok (key, _) => Some (key, {| next_dfa := item.2 |})
       | _ => None
       end.

(** A terminal label resolves against the table without changing it. *)
Definition resolvable {T : Type} (literal_eval : string → option string)
    (token_namespace : string → option T) (rules : list (string * list nat))
    (rs : list ReservedString * list (string * nat))
    (item : string * nat) : Prop :=
  dict_mem item.1 rules = false →
  ∃ key, _make_transition literal_eval token_namespace rs item.1 = Ok (key, rs).

(** The second pass leaves these fields of every state alone. *)
Definition same_arcs {T : Type} (s s' : DFAState T) : Prop :=
  from_rule s' = from_rule s ∧ nfa_set s' = nfa_set s
  ∧ is_final s' = is_final s ∧ arcs s' = arcs s.

(** A state before the second pass: distinct labels, empty tables. *)
Definition cell_clean {T : Type} (s : DFAState T) : Prop :=
  NoDup (arcs s).*1 ∧ ilabel_to_plan s = [] ∧ nonterminal_arcs s = [].

(** The rule table while it is being built: no state occurs twice in it,
    the states of each rule carry the finality of one of the fragments of
    the rule, and every fragment seen so far has its rule in the table. *)
Definition build_inv {T : Type} (g : list NFAState) (done : list (nat * nat))
    (acc : list (DFAState T) * list (string * list nat) * option string) : Prop :=
  Forall cell_clean acc.1.1
  ∧ NoDup (concat acc.1.2.*2)
  ∧ (∀ l, l ∈ concat acc.1.2.*2 → l < length acc.1.1)
  ∧ (∀ rule dfas, (rule, dfas) ∈ acc.1.2 →
       ∃ a z, (a, z) ∈ done ∧ rule = nfa_from_rule (g !!! a)
              ∧ ∀ l, l ∈ dfas →
                  is_final (acc.1.1 !!! l) = bool_decide (z ∈ nfa_set (acc.1.1 !!! l)))
  ∧ (∀ a z, (a, z) ∈ done → nfa_from_rule (g !!! a) ∈ acc.1.2.*1)
  ∧ acc.2 = (λ f, nfa_from_rule (g !!! f.1)) <$> head done.

(** What the second pass leaves in a state: the nonterminal view holds
    exactly the arcs whose label is a rule name; every other arc has a key,
    the table of plans has an entry under that key, and the entry wraps the
    target of the arc unless a later arc of the state has the same key. *)
Definition state_compiled {T : Type} `{EqDecision T}
    (literal_eval : string → option string)
    (token_namespace : string → option T)
    (h : list (DFAState T)) (rs_heap : list ReservedString)
    (gr : Grammar) (state : nat) : Prop :=
  (∀ label target,
     dict_get label (nonterminal_arcs (h !!! state)) = Some target
     ↔ (label, target) ∈ arcs (h !!! state)
       ∧ dict_mem label (nonterminal_to_dfas gr) = true)
  ∧ ∀ before label target after,
      arcs (h !!! state) = before ++ (label, target) :: after →
      dict_mem label (nonterminal_to_dfas gr) = false →
      ∃ key,
        _make_transition literal_eval token_namespace
          (rs_heap, reserved_syntax_strings gr) label
        = Ok (key, (rs_heap, reserved_syntax_strings gr))
        ∧ key ∈ (ilabel_to_plan (h !!! state)).*1
        ∧ ((∀ label' target', (label', target') ∈ after →
              dict_mem label' (nonterminal_to_dfas gr) = false →
              _make_transition literal_eval token_namespace
                (rs_heap, reserved_syntax_strings gr) label'
              ≠ Ok (key, (rs_heap, reserved_syntax_strings gr))) →
           dict_get key (ilabel_to_plan (h !!! state))
           = Some {| next_dfa := target |}).

(** ** Words of an NFA fragment and of a DFA *)

(** [nfa_path g n w m]: some path of the NFA graph leads from node [n] to
    node [m], and the labels of its arcs, the unlabeled ones left out, spell
    the word [w]. *)
Inductive nfa_path (g : list NFAState) : nat → list string → nat → Prop :=
  | nfa_path_here n : nfa_path g n [] n
  | nfa_path_eps n nfa_arc w m :
      nfa_arc ∈ arcs_of g n → nonterminal_or_string nfa_arc = None →
      nfa_path g (next nfa_arc) w m → nfa_path g n w m
  | nfa_path_label n nfa_arc label w m :
      nfa_arc ∈ arcs_of g n → nonterminal_or_string nfa_arc = Some label →
      nfa_path g (next nfa_arc) w m → nfa_path g n (label :: w) m.

(** The nodes a node set reaches through one arc labelled [label] and any
    number of unlabeled arcs after it. *)
Definition label_step (g : list NFAState) (X : gset nat) (label : string)
    (m : nat) : Prop :=
  ∃ n nfa_arc, n ∈ X ∧ nfa_arc ∈ arcs_of g n
               ∧ nonterminal_or_string nfa_arc = Some label
               ∧ eps_closure g (next nfa_arc) m.

(** A node set that unlabeled arcs do not leave. *)
Definition eps_closed (g : list NFAState) (X : gset nat) : Prop :=
  ∀ n m, n ∈ X → eps_succ g n m → m ∈ X.

(** The nodes [addclosure] can add to a set [base]: the ones an unlabeled
    path reaches from [n] without entering [base]. *)
Inductive eps_avoiding (g : list NFAState) (base : gset nat) (n : nat)
    : nat → Prop :=
  | eps_avoiding_here : n ∉ base → eps_avoiding g base n n
  | eps_avoiding_step m m' :
      eps_avoiding g base n m → eps_succ g m m' → m' ∉ base →
      eps_avoiding g base n m'.

(** Following the arcs of a DFA along a word: the state reached, if every
    label of the word has an arc. *)
Fixpoint dfa_walk {T : Type} (h : list (DFAState T)) (state : nat)
    (w : list string) : option nat :=
  match w with
  | [] => Some state
  | label :: w' =>
      match dict_get label (arcs (h !!! state)) with
      | Some next_ => dfa_walk h next_ w'
      | None => None
      end
  end.

(** A word is accepted from a state when its walk ends in a final state. *)
Definition dfa_accepts {T : Type} (h : list (DFAState T)) (state : nat)
    (w : list string) : bool :=
  match dfa_walk h state w with
  | Some s => is_final (h !!! s)
  | None => false
  end.

(** The arcs of the listed states lead to listed states. *)
Definition arcs_closed {T : Type} (h : list (DFAState T)) (dfas : list nat)
    : Prop :=
  ∀ state label next_,
    state ∈ dfas → (label, next_) ∈ arcs (h !!! state) → next_ ∈ dfas.

(** A list of DFA states as the functions of this file keep it: no state
    twice, distinct labels on the arcs of a state, no arc out of the list. *)
Definition dfas_wf {T : Type} (h : list (DFAState T)) (dfas : list nat) : Prop :=
  NoDup dfas
  ∧ (∀ state, state ∈ dfas → NoDup (arcs (h !!! state)).*1)
  ∧ arcs_closed h dfas.

(** The arcs of a state of the powerset construction: the target of the arc
    labelled [label] holds the nodes that [label] leads to from the nodes of
    the state, at least one, and a label that leads nowhere has no arc. *)
Definition moves_ok {T : Type} (g : list NFAState) (h : list (DFAState T))
    (states : list nat) (state : nat) : Prop :=
  ∀ label,
    match dict_get label (arcs (h !!! state)) with
    | Some next_ =>
        next_ ∈ states
        ∧ nfa_set (h !!! next_) ≠ ∅
        ∧ ∀ m, m ∈ nfa_set (h !!! next_)
               ↔ label_step g (nfa_set (h !!! state)) label m
    | None => ∀ m, ¬ label_step g (nfa_set (h !!! state)) label m
    end.

(** The local dictionary [arcs] of [_make_dfas] for a state with node set
    [X]. *)
Definition moves_collected (g : list NFAState) (X : gset nat)
    (arcs : list (string * gset nat)) : Prop :=
  ∀ label,
    match dict_get label arcs with
    | Some Y => ∀ m, m ∈ Y ↔ label_step g X label m
    | None => ∀ m, ¬ label_step g X label m
    end.

(** [rho] maps the states of one list to the states of another so that
    arcs and finality are kept: what is left of a DFA when equal states have
    been unified. *)
Definition dfa_quotient {T : Type} (h : list (DFAState T)) (dfas : list nat)
    (h' : list (DFAState T)) (dfas' : list nat) (rho : nat → nat) : Prop :=
  (∀ s, s ∈ dfas → rho s ∈ dfas')
  ∧ (∀ s, s ∈ dfas' → s ∈ dfas ∧ rho s = s)
  ∧ (∀ s, s ∈ dfas → is_final (h' !!! rho s) = is_final (h !!! s))
  ∧ (∀ s w, s ∈ dfas → dfa_walk h' (rho s) w = rho <$> dfa_walk h s w).

(** The local dictionary [arcs] of [_make_dfas] while it is filled, when
    the NFA arcs [done] have been looked at. *)
Definition moves_partial (g : list NFAState) (done : list NFAArc)
    (arcs : list (string * gset nat)) : Prop :=
  ∀ label,
    match dict_get label arcs with
    | Some Y =>
        eps_closed g Y
        ∧ ∀ m, m ∈ Y ↔ ∃ nfa_arc, nfa_arc ∈ done
                       ∧ nonterminal_or_string nfa_arc = Some label
                       ∧ eps_closure g (next nfa_arc) m
    | None => ∀ nfa_arc, nfa_arc ∈ done → nonterminal_or_string nfa_arc ≠ Some label
    end.

(** The loop [for state in states] of [_make_dfas] at position [k]: the
    states before [k] have their arcs, the others have none yet. *)
Definition loop_inv {T : Type} (g : list NFAState) (h : list (DFAState T))
    (states : list nat) (k : nat) : Prop :=
  NoDup states
  ∧ (∀ l, l ∈ states → l < length h)
  ∧ (∀ i state, k ≤ i → states !! i = Some state → arcs (h !!! state) = [])
  ∧ (∀ i state, i < k → states !! i = Some state → moves_ok g h states state).

(** The loop over [arcs.items()] for the state at position [k], when the
    items [pre] have been linked. *)
Definition linking_inv {T : Type} (g : list NFAState) (h : list (DFAState T))
    (states : list nat) (k state : nat) (X : gset nat)
    (pre : list (string * gset nat)) : Prop :=
  NoDup states
  ∧ (∀ l, l ∈ states → l < length h)
  ∧ states !! k = Some state
  ∧ nfa_set (h !!! state) = X
  ∧ (∀ i s, k < i → states !! i = Some s → arcs (h !!! s) = [])
  ∧ (∀ i s, i < k → states !! i = Some s → moves_ok g h states s)
  ∧ (arcs (h !!! state)).*1 = pre.*1
  ∧ (∀ label next_, dict_get label (arcs (h !!! state)) = Some next_ →
       next_ ∈ states ∧ nfa_set (h !!! next_) ≠ ∅
       ∧ dict_get label pre = Some (nfa_set (h !!! next_))).

(** A label that some arc of the NFA graph carries. *)
Definition nfa_label (g : list NFAState) (label : string) : Prop :=
  ∃ nfa_arc, nfa_arc ∈ g ≫= nfa_arcs ∧ nonterminal_or_string nfa_arc = Some label.

(** The rule table while it is built, with the words of its rules: the
    states of a rule are closed under their arcs, their labels are labels
    of the NFA graph, and the first state accepts the words of the last
    fragment that carries the name of the rule. *)
Definition rules_inv {T : Type} (g : list NFAState) (done : list (nat * nat))
    (h : list (DFAState T)) (rules : list (string * list nat)) : Prop :=
  NoDup rules.*1
  ∧ ∀ rule dfas, (rule, dfas) ∈ rules →
      dfas_wf h dfas
      ∧ (∀ state label, state ∈ dfas → label ∈ (arcs (h !!! state)).*1 →
           nfa_label g label)
      ∧ ∃ first rest a z before after,
          dfas = first :: rest
          ∧ done = before ++ (a, z) :: after
          ∧ nfa_from_rule (g !!! a) = rule
          ∧ (∀ f, f ∈ after → nfa_from_rule (g !!! f.1) ≠ rule)
          ∧ ∀ w, dfa_accepts h first w = true ↔ nfa_path g a w z.

(** Every state of the list is where some word leads from [first]. *)
Definition all_reached {T : Type} (h : list (DFAState T)) (first : nat)
    (states : list nat) : Prop :=
  ∀ s, s ∈ states → ∃ w, dfa_walk h first w = Some s.

(** The terminal labels that [_make_transition] gives a key: a name of the
    token namespace, or a quoted literal, not triple-quoted, that
    [literal_eval] reads. *)
Definition resolves {T : Type} (literal_eval : string → option string)
    (token_namespace : string → option T) (label : string) : Prop :=
  (bare_name label ∧ is_Some (token_namespace label))
  ∨ (quoted label ∧ ¬ triple_quoted label ∧ is_Some (literal_eval label)).

(** [dfas_wf] can be checked by looking at the arcs of the listed states. *)
#[global] Instance dfas_wf_dec {T : Type} (h : list (DFAState T)) (dfas : list nat)
    : Decision (dfas_wf h dfas).
Proof.
  refine (match decide (NoDup dfas
    ∧ Forall (λ state, NoDup (arcs (h !!! state)).*1) dfas
    ∧ Forall (λ state, Forall (λ arc, arc.2 ∈ dfas) (arcs (h !!! state))) dfas)
    with left Hyes => left _ | right Hno => right _ end).
  - destruct Hyes as (Hnd & Hkeys & Hclosed).
    rewrite Forall_forall in Hkeys. rewrite Forall_forall in Hclosed.
    split_and!; [done..|].
    intros state label next_ Hs Hin. specialize (Hclosed state Hs).
    rewrite Forall_forall in Hclosed. by apply (Hclosed (label, next_)).
  - intros (Hnd & Hkeys & Hclosed). apply Hno. split_and!; [done| |].
    + by apply Forall_forall.
    + apply Forall_forall. intros state Hs. apply Forall_forall.
      intros [label next_] Hin. by apply (Hclosed state label).
Defined.

(** The states of [x: 'a' 'c' | 'b' 'c' | 'd' | 'e'] before unification. *)
Definition alternatives_heap : list (DFAState nat) :=
  match alternatives_dfas with Ok (h, _) => h | _ => [] end.

(** The same states after unification. *)
Definition alternatives_unified_heap : list (DFAState nat) :=
  match alternatives_unified with Ok (h, _, _) => h | _ => [] end.

(** * Verification *)

(** ** The result monad and loops *)

Lemma bind_Ok {A B} (m : result A) (f : A → result B) (b : B) :
  m ≫= f = Ok b ↔ ∃ a, m = Ok a ∧ f a = Ok b.
Proof. destruct m; simpl; naive_solver. Qed.

Lemma foldM_app {A B} (f : B → A → result B) l1 l2 b :
  foldM f (l1 ++ l2) b = foldM f l1 b ≫= foldM f l2.
Proof.
  revert b. induction l1 as [|a l1 IH]; intros b; simpl; [done|].
  destruct (f b a); simpl; auto.
Qed.

(** A loop whose body keeps an invariant of the processed prefix and never
    fails returns normally. *)
Lemma foldM_total {A B} (P : list A → B → Prop) (f : B → A → result B) l b :
  P [] b →
  (∀ pre a suf b, l = pre ++ a :: suf → P pre b →
     ∃ b', f b a = Ok b' ∧ P (pre ++ [a]) b') →
  ∃ b', foldM f l b = Ok b' ∧ P l b'.
Proof.
  intros Hb Hstep.
  cut (∀ rest pre b, l = pre ++ rest → P pre b →
         ∃ b', foldM f rest b = Ok b' ∧ P l b').
  { intros Hcut. by apply (Hcut l []). }
  induction rest as [|a rest IH]; intros pre b0 Hl HP; simpl.
  - exists b0. by rewrite Hl, app_nil_r.
  - destruct (Hstep pre a rest b0 Hl HP) as (b1 & -> & HP1). simpl.
    apply (IH (pre ++ [a])); [by rewrite <-app_assoc|done].
Qed.

(** A loop that returned normally kept every invariant its body keeps. *)
Lemma foldM_inv {A B} (P : list A → B → Prop) (f : B → A → result B) l b b' :
  foldM f l b = Ok b' →
  P [] b →
  (∀ pre a suf b b1, l = pre ++ a :: suf → P pre b → f b a = Ok b1 →
     P (pre ++ [a]) b1) →
  P l b'.
Proof.
  intros Hrun Hb Hstep.
  cut (∀ rest pre b, l = pre ++ rest → P pre b → foldM f rest b = Ok b' → P l b').
  { intros Hcut. by apply (Hcut l [] b). }
  induction rest as [|a rest IH]; intros pre b0 Hl HP; simpl.
  - intros [= <-]. by rewrite Hl, app_nil_r.
  - intros (b1 & Hf & Hrest)%bind_Ok.
    apply (IH (pre ++ [a]) b1); [by rewrite <-app_assoc|by eapply Hstep|done].
Qed.

(** ** Dictionaries *)

Section dict_facts.
Context {K V : Type} `{EqDecision K}.
Implicit Types (d : list (K * V)) (k : K) (v : V).

Lemma dict_get_Some_elem d k v : dict_get k d = Some v → (k, v) ∈ d.
Proof.
induction d as [|[k' v'] d IH]; simpl; [done|].
case_decide; [intros [= ->]; subst; left | intros; right; auto].
Qed.

Lemma dict_get_None d k : dict_get k d = None ↔ k ∉ d.*1.
Proof.
induction d as [|[k' v'] d IH]; simpl.
- split; [intros _; apply not_elem_of_nil|done].
- rewrite not_elem_of_cons. case_decide; naive_solver.
Qed.

Lemma dict_get_is_Some d k : is_Some (dict_get k d) ↔ k ∈ d.*1.
Proof.
rewrite <-not_eq_None_Some, dict_get_None.
destruct (decide (k ∈ d.*1)); naive_solver.
Qed.

Lemma dict_mem_true d k : dict_mem k d = true ↔ k ∈ d.*1.
Proof. unfold dict_mem. by rewrite bool_decide_eq_true, dict_get_is_Some. Qed.

Lemma dict_mem_false d k : dict_mem k d = false ↔ k ∉ d.*1.
Proof. unfold dict_mem. by rewrite bool_decide_eq_false, dict_get_is_Some. Qed.

Lemma dict_get_elem d k v : NoDup d.*1 → (k, v) ∈ d → dict_get k d = Some v.
Proof.
induction d as [|[k' v'] d IH]; simpl; [by intros _ ?%elem_of_nil|].
intros [Hk' Hnd]%NoDup_cons [[= -> ->]|Hin]%elem_of_cons.
- by rewrite decide_True.
- rewrite decide_False; [auto|].
  intros ->. apply Hk'. by apply (list_elem_of_fmap_2 fst _ (k', v)).
Qed.

Lemma dict_set_keys d k v :
(dict_set k v d).*1 = if decide (k ∈ d.*1) then d.*1 else d.*1 ++ [k].
Proof.
induction d as [|[k' v'] d IH]; csimpl.
{ destruct (decide (k ∈ [])) as [[]%elem_of_nil|]; done. }
destruct (decide (k = k')) as [->|Hne]; csimpl.
- destruct (decide (k' ∈ k' :: d.*1)) as [|Hn]; [done|]. destruct Hn; left.
- rewrite IH. destruct (decide (k ∈ d.*1)) as [Hin|Hin].
  + destruct (decide (k ∈ k' :: d.*1)) as [|Hn]; [done|]. destruct Hn. by right.
  + destruct (decide (k ∈ k' :: d.*1)) as [[]%elem_of_cons|]; done.
Qed.

Lemma dict_set_fresh d k v : k ∉ d.*1 → dict_set k v d = d ++ [(k, v)].
Proof.
induction d as [|[k' v'] d IH]; simpl; [done|].
rewrite not_elem_of_cons. intros [Hne Hk].
by rewrite decide_False, IH.
Qed.

Lemma dict_set_NoDup d k v : NoDup d.*1 → NoDup (dict_set k v d).*1.
Proof.
intros Hnd. rewrite dict_set_keys. case_decide; [done|].
apply NoDup_app. split_and!; [done| |apply NoDup_singleton].
intros x Hx ->%list_elem_of_singleton. done.
Qed.

Lemma dict_get_set d k k' v :
dict_get k' (dict_set k v d) = if decide (k' = k) then Some v else dict_get k' d.
Proof.
induction d as [|[k0 v0] d IH]; simpl.
- repeat case_decide; congruence.
- repeat (case_decide; simpl); try congruence.
Qed.

Lemma dict_set_key_in d k v : k ∈ (dict_set k v d).*1.
Proof.
  rewrite dict_set_keys. case_decide; [done|]. rewrite elem_of_app. right. left.
Qed.

Lemma dict_set_elem_keys d k v k' : k' ∈ d.*1 → k' ∈ (dict_set k v d).*1.
Proof.
rewrite dict_set_keys. case_decide; [done|]. rewrite elem_of_app. auto.
Qed.
End dict_facts.

(** ** Cells of a heap *)

Lemma heap_lookup_snoc {A} `{Inhabited A} (l : list A) (x : A) (i : nat) :
  (l ++ [x]) !!! i = if decide (i = length l) then x else l !!! i.
Proof.
  rewrite !list_lookup_total_alt. case_decide as Hi.
  - subst. by rewrite list_lookup_middle.
  - destruct (decide (i < length l)).
    + by rewrite lookup_app_l.
    + rewrite !lookup_ge_None_2; [done|lia|rewrite length_app; simpl; lia].
Qed.

Lemma heap_lookup_insert {A} `{Inhabited A} (l : list A) (k : nat) (x : A) (i : nat) :
  k < length l →
  (<[k:=x]> l) !!! i = if decide (i = k) then x else l !!! i.
Proof.
  intros Hk. case_decide as Hi.
  - subst. by apply list_lookup_total_insert_eq.
  - by apply list_lookup_total_insert_ne.
Qed.

Lemma heap_lookup_alter {A} `{Inhabited A} (f : A → A) (l : list A) (k i : nat) :
  k < length l →
  (alter f k l) !!! i = if decide (i = k) then f (l !!! i) else l !!! i.
Proof.
  intros Hk. rewrite !list_lookup_total_alt. case_decide as Hi.
  - subst. rewrite list_lookup_alter_eq.
    destruct (lookup_lt_is_Some_2 l k Hk) as [y ->]. done.
  - by rewrite list_lookup_alter_ne.
Qed.

Section dict_more.
Context {K V : Type} `{EqDecision K}.
Implicit Types (d : list (K * V)) (k : K) (v : V).

Lemma dict_set_elem d k v x : x ∈ dict_set k v d → x = (k, v) ∨ x ∈ d.
Proof.
induction d as [|[k' v'] d IH]; simpl.
- intros ->%list_elem_of_singleton. by left.
- case_decide.
  + intros [->|?]%elem_of_cons; [by left|right; by right].
  + intros [->|?]%elem_of_cons; [right; left|].
    destruct IH as [?|?]; [done|by left|right; by right].
Qed.

Lemma dict_set_Forall (P : K * V → Prop) d k v :
Forall P d → P (k, v) → Forall P (dict_set k v d).
Proof.
rewrite !Forall_forall. intros Hd Hkv x [->|?]%dict_set_elem; auto.
Qed.
End dict_more.

(** ** A run of dictionary assignments *)

Section dict_writes.
Context {A K V : Type} `{EqDecision K}.
Context (f : A → option (K * V)).

Local Abbreviation dict_writes := (dict_writes f).
Local Abbreviation last_write := (last_write f).

Lemma dict_writes_cons a l t :
  dict_writes (a :: l) t
  = dict_writes l (match f a with Some (k, v) => dict_set k v t | None => t end).
Proof. done. Qed.

Lemma dict_writes_app l1 l2 t :
  dict_writes (l1 ++ l2) t = dict_writes l2 (dict_writes l1 t).
Proof. apply foldl_app. Qed.

Lemma dict_get_writes l t k :
  dict_get k (dict_writes l t)
  = match last_write l k with Some v => Some v | None => dict_get k t end.
Proof.
  revert t. induction l as [|a l IH]; intros t; [done|].
  rewrite dict_writes_cons, IH. cbn [last_write].
  destruct (last_write l k); [done|].
  destruct (f a) as [[k' v]|]; [|done].
  rewrite dict_get_set. repeat case_decide; congruence.
Qed.

Lemma last_write_None l k :
  last_write l k = None ↔ ∀ a v, a ∈ l → f a ≠ Some (k, v).
Proof.
  induction l as [|a l IH]; simpl.
  - split; [by intros _ a v ?%elem_of_nil|done].
  - destruct (last_write l k) as [v|].
    + split; [done|]. intros Hall. exfalso.
      destruct IH as [_ IH]. 
      discriminate IH. intros a' v' Ha'. apply Hall. by right.
    + destruct IH as [IH _]. specialize (IH eq_refl).
      destruct (f a) as [[k' v]|] eqn:Hfa.
      * case_decide as Hk.
        -- subst. split; [done|]. intros Hall. by destruct (Hall a v (list_elem_of_here _ _)).
        -- split; [|done]. intros _ a' v' [->|?]%elem_of_cons; [congruence|by apply IH].
      * split; [|done]. intros _ a' v' [->|?]%elem_of_cons; [congruence|by apply IH].
Qed.

Lemma last_write_middle pre a suf k v :
  f a = Some (k, v) → (∀ b v', b ∈ suf → f b ≠ Some (k, v')) →
  last_write (pre ++ a :: suf) k = Some v.
Proof.
  intros Ha Hsuf. induction pre as [|b pre IH]; simpl.
  - rewrite (proj2 (last_write_None suf k)) by done.
    by rewrite Ha, decide_True.
  - by rewrite IH.
Qed.

Lemma last_write_Some l k v :
  last_write l k = Some v → ∃ a, a ∈ l ∧ f a = Some (k, v).
Proof.
  induction l as [|a l IH]; simpl; [done|].
  destruct (last_write l k) as [v'|].
  - intros [= ->]. destruct IH as (a' & ? & ?); [done|]. exists a'. split; [by right|done].
  - destruct (f a) as [[k' v']|] eqn:Hfa; [|done].
    case_decide; [|done]. intros [= ->]. subst. exists a. split; [left|done].
Qed.

Lemma dict_writes_keys l t k :
  k ∈ (dict_writes l t).*1 ↔ k ∈ t.*1 ∨ ∃ a v, a ∈ l ∧ f a = Some (k, v).
Proof.
  rewrite <-!dict_get_is_Some, dict_get_writes.
  destruct (last_write l k) as [v|] eqn:Hlw.
  - split; [|by eauto]. intros _. right.
    destruct (last_write_Some _ _ _ Hlw) as (a & ? & ?). by exists a, v.
  - split; [by left|]. intros [?|(a & v & Ha & Hfa)]; [done|].
    by destruct (proj1 (last_write_None l k) Hlw a v).
Qed.

End dict_writes.

Lemma dict_writes_ext {A K V} `{EqDecision K} (f f' : A → option (K * V)) l t :
  (∀ a, a ∈ l → f a = f' a) → dict_writes f l t = dict_writes f' l t.
Proof.
  revert t. induction l as [|a l IH]; intros t Hext; [done|].
  rewrite !dict_writes_cons. rewrite <-(Hext a) by left.
  apply IH. intros b Hb. apply Hext. by right.
Qed.

Lemma foldM_concat {A B C} (f : B → A → result B) (ls : list (C * list A)) b :
  foldM (λ b '(_, l), foldM f l b) ls b = foldM f (concat ls.*2) b.
Proof.
  revert b. induction ls as [|[c l] ls IH]; intros b; [done|].
  csimpl. rewrite foldM_app. destruct (foldM f l b); simpl; auto.
Qed.

Lemma dict_get_map_values {K V} `{EqDecision K} (f : V → V) (d : list (K * V)) k :
  dict_get k (map (λ '(k, v), (k, f v)) d) = f <$> dict_get k d.
Proof.
  induction d as [|[k' v] d IH]; simpl; [done|]. by case_decide.
Qed.

(** ** Epsilon closure *)

Section closure.
Context {T : Type} `{EqDecision T} `{SetOrder}.
Context (g : list NFAState).

Local Abbreviation in_range := (in_range g).

Lemma elem_of_in_range n : n ∈ in_range ↔ n < length g.
Proof. unfold in_range. rewrite elem_of_list_to_set, elem_of_seq. lia. Qed.

Lemma size_in_range : size in_range = length g.
Proof.
  unfold in_range. rewrite size_list_to_set by apply NoDup_seq.
  apply length_seq.
Qed.

Lemma arcs_of_in_range n nfa_arc : nfa_arc ∈ arcs_of g n → n < length g.
Proof.
  unfold arcs_of. rewrite list_lookup_total_alt.
  destruct (g !! n) eqn:Hn; simpl.
  - intros _. by eapply lookup_lt_Some.
  - by intros ?%elem_of_nil.
Qed.

Lemma arcs_of_targets n nfa_arc :
  nfa_arc ∈ arcs_of g n → next nfa_arc ∈ nfa_targets g.
Proof.
  intros Hin. unfold nfa_targets.
  rewrite elem_of_list_to_set. apply list_elem_of_fmap_2.
  apply list_elem_of_bind. exists (g !!! n). split; [done|].
  apply list_elem_of_lookup_total_2. by eapply arcs_of_in_range.
Qed.

Lemma addclosure_fuel_spec fuel nfa_state base :
  size (in_range ∖ base) < fuel →
  ∃ r, addclosure_fuel fuel g nfa_state base = Ok r
       ∧ base ⊆ r ∧ nfa_state ∈ r
       ∧ r ⊆ {[nfa_state]} ∪ base ∪ nfa_targets g
       ∧ ∀ n, n ∈ r → n ∉ base →
           eps_closure g nfa_state n ∧ ∀ m, eps_succ g n m → m ∈ r.
Proof.
  revert nfa_state base.
  induction fuel as [|fuel IH]; intros x base Hfuel; [lia|]. simpl.
  destruct (decide (x ∈ base)) as [Hx|Hx].
  { exists base. split_and!; [done|done|done|set_solver|done]. }
  set (P := λ (pre : list NFAArc) (b : gset nat),
    {[x]} ∪ base ⊆ b ∧ b ⊆ {[x]} ∪ base ∪ nfa_targets g
    ∧ (∀ a, a ∈ pre → nonterminal_or_string a = None → next a ∈ b)
    ∧ ∀ n, n ∈ b → n ∉ {[x]} ∪ base →
        eps_closure g x n ∧ ∀ m, eps_succ g n m → m ∈ b).
  edestruct (foldM_total P) as (r & Hr & Hsub & Hup & Harcs & Hcl).
  3: { exists r. split; [exact Hr|]. split_and!; [set_solver|set_solver|set_solver|].
       intros n Hn Hnb. destruct (decide (n = x)) as [->|Hne].
       - split; [apply rtc_refl|]. intros m (a & Ha & Hlab & <-). by apply Harcs.
       - apply Hcl; set_solver. }
  { unfold P. split_and!; [done|set_solver|by intros a ?%elem_of_nil|set_solver]. }
  intros pre a suf b Hl (Hsub & Hup & Harcs & Hcl).
  assert (a ∈ arcs_of g x) as Ha.
  { rewrite Hl. apply elem_of_app. right. left. }
  destruct (nonterminal_or_string a) as [label|] eqn:Hlab.
  { exists b. split; [done|]. split_and!; [done|done| |done].
    intros a' [Ha'| ->%list_elem_of_singleton]%elem_of_app; [by auto|congruence]. }
  destruct (IH (next a) b) as (r & Hr & Hbr & Hnext & Hrup & Hrcl).
  { assert (size (in_range ∖ b) < size (in_range ∖ base)); [|lia].
    apply subset_size. split; [set_solver|].
    intros Hsub'. pose proof (arcs_of_in_range _ _ Ha) as Hlt.
    apply elem_of_in_range in Hlt.
    assert (x ∈ in_range ∖ b) by set_solver. set_solver. }
  exists r. split; [done|]. unfold P. split_and!.
  - set_solver.
  - pose proof (arcs_of_targets _ _ Ha). set_solver.
  - intros a' [Ha'| ->%list_elem_of_singleton]%elem_of_app; [set_solver|done].
  - intros n Hn Hnb. destruct (decide (n ∈ b)) as [Hnin|Hnin].
    + destruct (Hcl n Hnin Hnb) as [? Hs]. split; [done|]. intros m Hm. set_solver.
    + destruct (Hrcl n Hn Hnin) as [Hreach Hs]. split; [|done].
      eapply rtc_l; [|exact Hreach]. by exists a.
Qed.

(** [addclosure] returns, whatever the graph. *)
Lemma addclosure_spec nfa_state base :
  ∃ r, addclosure g nfa_state base = Ok r
       ∧ base ⊆ r ∧ nfa_state ∈ r
       ∧ r ⊆ {[nfa_state]} ∪ base ∪ nfa_targets g
       ∧ ∀ n, n ∈ r → n ∉ base →
           eps_closure g nfa_state n ∧ ∀ m, eps_succ g n m → m ∈ r.
Proof.
  unfold addclosure. apply addclosure_fuel_spec.
  assert (size (in_range ∖ base) ≤ size in_range) as Hle.
  { apply subseteq_size. set_solver. }
  rewrite size_in_range in Hle. lia.
Qed.

(** From the empty set [addclosure] computes the epsilon closure. *)
Lemma addclosure_empty nfa_state :
  ∃ r, addclosure g nfa_state ∅ = Ok r ∧ ∀ n, n ∈ r ↔ eps_closure g nfa_state n.
Proof.
  destruct (addclosure_spec nfa_state ∅) as (r & Hr & _ & Hx & _ & Hcl).
  exists r. split; [done|]. intros n. split.
  - intros Hn. by apply Hcl.
  - intros Hreach.
    cut (∀ a, eps_closure g a n → a ∈ r → n ∈ r); [by eauto|].
    clear Hreach. intros a Hreach.
    induction Hreach as [|a b c Hab _ IHr]; [done|].
    intros Ha. apply IHr. by apply (Hcl a).
Qed.
End closure.

(** ** Counting node sets *)

Lemma NoDup_subsets_length (U : gset nat) (l : list (gset nat)) :
  NoDup l → (∀ X, X ∈ l → X ⊆ U) → length l ≤ 2 ^ size U.
Proof.
  revert l. induction U as [|x U Hx IH] using set_ind_L; intros l Hnd Hsub.
  - rewrite size_empty. simpl. destruct l as [|a [|b l]]; simpl; [lia|lia|].
    exfalso. apply NoDup_cons in Hnd as [Hab _]. apply Hab.
    assert (a = ∅) as -> by (apply leibniz_equiv, equiv_empty, Hsub; left).
    assert (b = ∅) as -> by (apply leibniz_equiv, equiv_empty, Hsub; right; left).
    left.
  - rewrite size_union, size_singleton by set_solver.
    change (1 + size U) with (S (size U)). rewrite Nat.pow_succ_r'.
    rewrite <-(Permutation_length (filter_app_complement (λ X, x ∈ X) l)), length_app.
    assert (length (filter (λ X, x ∈ X) l) ≤ 2 ^ size U).
    { rewrite <-(length_fmap (λ X, X ∖ {[x]})). apply IH.
      - apply NoDup_fmap_2_strong; [|by apply NoDup_filter].
        intros X Y [HX _]%list_elem_of_filter [HY _]%list_elem_of_filter Heq.
        apply set_eq. intros y. destruct (decide (y = x)) as [->|]; [done|].
        assert (y ∈ X ∖ {[x]} ↔ y ∈ Y ∖ {[x]}) by (by rewrite Heq). set_solver.
      - intros X (Y & -> & [HY HYl]%list_elem_of_filter)%list_elem_of_fmap.
        specialize (Hsub Y HYl). set_solver. }
    assert (length (filter (λ X, x ∉ X) l) ≤ 2 ^ size U).
    { apply IH; [by apply NoDup_filter|].
      intros X [HX HXl]%list_elem_of_filter. specialize (Hsub X HXl). set_solver. }
    lia.
Qed.

(** ** The powerset construction *)

Section make_dfas.
Context {T : Type} `{EqDecision T} `{SetOrder}.
Context (g : list NFAState) (rule : string) (finish : nat).
Context (h0 : list (DFAState T)).

Local Abbreviation sets_ok := (sets_ok g).

Lemma collect_arc_spec arcs nfa_arc n :
  nfa_arc ∈ arcs_of g n → sets_ok arcs →
  ∃ arcs', collect_arc g arcs nfa_arc = Ok arcs' ∧ sets_ok arcs'.
Proof.
  intros Ha [Hnd Hall]. unfold collect_arc.
  destruct (nonterminal_or_string nfa_arc) as [label|]; [|by exists arcs].
  set (base := default ∅ (dict_get label arcs)).
  assert (base ⊆ nfa_targets g) as Hbase.
  { unfold base. destruct (dict_get label arcs) as [X|] eqn:HX; simpl; [|set_solver].
    apply dict_get_Some_elem in HX. rewrite Forall_forall in Hall.
    by destruct (Hall _ HX). }
  destruct (addclosure_spec g (next nfa_arc) base) as (r & -> & _ & Hin & Hup & _).
  simpl. eexists. split; [done|]. split; [by apply dict_set_NoDup|].
  apply dict_set_Forall; [done|]. simpl. split; [set_solver|].
  pose proof (arcs_of_targets g _ _ Ha). set_solver.
Qed.

Lemma collect_arcs_spec (state : DFAState T) :
  ∃ arcs, collect_arcs g state = Ok arcs ∧ sets_ok arcs.
Proof.
  unfold collect_arcs.
  apply (foldM_total (λ _ arcs, sets_ok arcs)).
  { split; [apply NoDup_nil_2|apply Forall_nil_2]. }
  intros _ n _ arcs _ Hok.
  apply (foldM_total (λ _ arcs, sets_ok arcs)); [done|].
  intros pre a suf arcs' Hl Hok'. apply (collect_arc_spec _ _ n); [|done].
  rewrite Hl. apply elem_of_app. right. left.
Qed.

Context (U : gset nat) (HU : nfa_targets g ⊆ U).

Implicit Types (new : list (DFAState T)) (s : DFAState T).
Local Abbreviation cell_ok := (cell_ok rule finish U).
Local Abbreviation dfas_inv := (dfas_inv rule finish U).
Local Abbreviation link_inv := (link_inv rule finish U).

Lemma link_inv_alloc k S0 keys new s :
  link_inv k S0 keys new → cell_ok s → arcs s = [] →
  nfa_set s ∉ nfa_set <$> new →
  link_inv k S0 keys (new ++ [s]).
Proof.
  intros ((Hnd & Hall & H0) & Hk & Hfresh & Hkeys) Hs Harcs Hnew.
  unfold link_inv, dfas_inv. split_and!.
  - rewrite fmap_app. apply NoDup_app. split_and!; [done| |apply NoDup_singleton].
    intros X HX ->%list_elem_of_singleton. done.
  - apply Forall_app. split; [done|]. by apply Forall_singleton.
  - rewrite heap_lookup_snoc. case_decide; [lia|done].
  - rewrite length_app. simpl. lia.
  - intros i Hi. rewrite heap_lookup_snoc. case_decide; auto.
  - rewrite heap_lookup_snoc. case_decide; [lia|done].
Qed.

Lemma link_inv_add_arc k S0 keys new nested label :
  link_inv k S0 keys new → label ∉ keys →
  ∃ state', add_arc nested label (new !!! k) = Ok state'
            ∧ link_inv k S0 (keys ++ [label]) (<[k:=state']> new).
Proof.
  intros ((Hnd & Hall & H0) & Hk & Hfresh & Hkeys) Hlabel.
  unfold add_arc.
  assert (dict_mem label (arcs (new !!! k)) = false) as ->.
  { apply dict_mem_false. by rewrite Hkeys. }
  simpl. eexists. split; [done|].
  assert (cell_ok (new !!! k)) as [].
  { by apply Forall_lookup_total_1. }
  unfold link_inv, dfas_inv. split_and!.
  - rewrite list_fmap_insert. simpl. rewrite list_insert_id; [done|].
    rewrite list_lookup_fmap.
    destruct (lookup_lt_is_Some_2 new k Hk) as [y Hy].
    by rewrite Hy, (list_lookup_total_correct _ _ _ Hy).
  - apply Forall_insert; [done|]. split; simpl; try done.
    by apply dict_set_NoDup.
  - rewrite heap_lookup_insert by done.
    destruct (decide (0 = k)) as [<-|]; done.
  - by rewrite length_insert.
  - intros i Hi. rewrite heap_lookup_insert by done.
    rewrite decide_False by lia. auto.
  - rewrite heap_lookup_insert by done. rewrite decide_True by done. simpl.
    rewrite dict_set_fresh by (by rewrite Hkeys). by rewrite fmap_app, Hkeys.
Qed.

Lemma link_arc_spec k S0 keys new label X :
  link_inv k S0 keys new → label ∉ keys → X ≠ ∅ → X ⊆ U →
  ∃ new',
    link_arc rule finish (length h0 + k)
             (h0 ++ new, seq (length h0) (length new)) (label, X)
    = Ok (h0 ++ new', seq (length h0) (length new'))
    ∧ link_inv k S0 (keys ++ [label]) new'.
Proof.
  intros Hinv Hlabel HX HXU. unfold link_arc.
  assert (k < length new) as Hk by apply Hinv.
  destruct (list_find _ _) as [[i l]|] eqn:Hfind.
  - simpl. rewrite lookup_total_app_r by lia.
    replace (length h0 + k - length h0) with k by lia.
    destruct (link_inv_add_arc k S0 keys new l label Hinv Hlabel)
      as (state' & -> & Hinv').
    simpl. exists (<[k:=state']> new). split; [|done].
    rewrite insert_app_r_alt by lia.
    replace (length h0 + k - length h0) with k by lia.
    by rewrite length_insert.
  - apply list_find_None in Hfind.
    unfold new_DFAState. rewrite decide_False by done. simpl.
    set (s := {| from_rule := rule; nfa_set := X |}).
    assert (link_inv k S0 keys (new ++ [s])) as Hinv1.
    { apply link_inv_alloc; [done| |done|].
      { split; simpl; [done|done|apply NoDup_nil_2|done..]. }
      intros (y & Hy & Hin)%list_elem_of_fmap.
      apply list_elem_of_lookup in Hin as [i Hi].
      rewrite Forall_forall in Hfind. apply (Hfind (length h0 + i)).
      - apply elem_of_seq. apply lookup_lt_Some in Hi. lia.
      - rewrite lookup_total_app_r by lia.
        replace (length h0 + i - length h0) with i by lia.
        by rewrite (list_lookup_total_correct _ _ _ Hi). }
    rewrite <-app_assoc. rewrite lookup_total_app_r by lia.
    replace (length h0 + k - length h0) with k by lia.
    rewrite heap_lookup_snoc. rewrite decide_False by lia.
    destruct (link_inv_add_arc k S0 keys (new ++ [s]) (length (h0 ++ new)) label)
      as (state' & Hadd & Hinv'); [done|done|].
    rewrite heap_lookup_snoc, decide_False in Hadd by lia.
    rewrite Hadd. simpl. exists (<[k:=state']> (new ++ [s])). split; [|done].
    rewrite insert_app_r_alt by lia.
    replace (length h0 + k - length h0) with k by lia.
    rewrite length_insert, !length_app. simpl.
    by rewrite Nat.add_1_r, seq_S.
Qed.

Lemma dfas_inv_length S0 new : dfas_inv S0 new → length new ≤ 2 ^ size U.
Proof.
  intros (Hnd & Hall & _). rewrite <-(length_fmap nfa_set).
  apply NoDup_subsets_length; [done|].
  intros X (s & -> & Hs)%list_elem_of_fmap.
  rewrite Forall_forall in Hall. by apply Hall.
Qed.

(** The loop returns as soon as its bound covers the [2 ^ size U] node sets
    there are. *)
Lemma make_dfas_loop_spec S0 fuel k new :
  dfas_inv S0 new → new ≠ [] → (∀ i, k ≤ i → arcs (new !!! i) = []) →
  2 ^ size U ≤ fuel + k →
  ∃ new',
    make_dfas_loop fuel g rule finish k (h0 ++ new) (seq (length h0) (length new))
    = Ok (h0 ++ new', seq (length h0) (length new'))
    ∧ dfas_inv S0 new' ∧ new' ≠ [].
Proof.
  revert k new. induction fuel as [|fuel IH]; intros k new Hinv Hne Hfresh Hfuel.
  - pose proof (dfas_inv_length _ _ Hinv). simpl.
    rewrite lookup_ge_None_2 by (rewrite length_seq; lia). by exists new.
  - simpl. destruct (seq _ _ !! k) as [st|] eqn:Hst; [|by exists new].
    apply lookup_seq in Hst as [-> Hlt].
    rewrite lookup_total_app_r by lia.
    replace (length h0 + k - length h0) with k by lia.
    destruct (collect_arcs_spec (new !!! k)) as (arcs & -> & Hnd & Hall). simpl.
    edestruct (foldM_total
      (λ (pre : list (string * gset nat)) hs,
         ∃ new1, hs = (h0 ++ new1, seq (length h0) (length new1))
                 ∧ link_inv k S0 pre.*1 new1))
      as (hs' & Hhs' & new1 & -> & Hinv1 & Hk1 & Hfresh1 & _).
    3: { rewrite Hhs'. simpl. apply IH; [done| |by auto with lia|lia].
         intros ->. simpl in Hk1. lia. }
    { exists new. split; [done|]. split_and!; [done|done|by auto with lia|].
      by rewrite Hfresh. }
    intros pre [label X] suf hs Hl (new1 & -> & Hinv1).
    rewrite Hl, fmap_app, fmap_cons in Hnd. simpl in Hnd.
    apply NoDup_app in Hnd as (_ & Hpre & _).
    rewrite Hl, Forall_app, Forall_cons in Hall. destruct Hall as (_ & [HX HXU] & _).
    destruct (link_arc_spec k S0 pre.*1 new1 label X) as (new2 & Hlink & Hinv2).
    + done.
    + intros Hin. apply (Hpre _ Hin). left.
    + done.
    + simpl in HXU. set_solver.
    + eexists. split; [exact Hlink|]. exists new2. split; [done|].
      by rewrite fmap_app.
Qed.
End make_dfas.

Lemma _make_dfas_fuel_spec {T} `{SetOrder} (g : list NFAState)
    (h0 : list (DFAState T)) (start finish fuel : nat) :
  2 ^ size ({[start]} ∪ nfa_targets g) ≤ fuel →
  ∃ new,
    _make_dfas_fuel fuel g h0 start finish
    = Ok (h0 ++ new, seq (length h0) (length new))
    ∧ new ≠ []
    ∧ NoDup (nfa_set <$> new)
    ∧ Forall (cell_ok (nfa_from_rule (g !!! start)) finish
                      ({[start]} ∪ nfa_targets g)) new
    ∧ ∀ n, n ∈ nfa_set (new !!! 0) ↔ eps_closure g start n.
Proof.
  intros Hfuel. unfold _make_dfas_fuel.
  destruct (addclosure_spec g start ∅) as (r & Hr & _ & Hstart & Hup & _).
  destruct (addclosure_empty g start) as (r' & Hr' & Hclosure).
  assert (r' = r) as -> by congruence.
  rewrite Hr. simpl. unfold new_DFAState.
  rewrite decide_False by set_solver. simpl.
  set (s := {| from_rule := nfa_from_rule (g !!! start); nfa_set := r |}).
  destruct (make_dfas_loop_spec g (nfa_from_rule (g !!! start)) finish h0
              ({[start]} ∪ nfa_targets g) ltac:(set_solver) r fuel 0 [s])
    as (new & Hloop & (Hnd & Hall & H0) & Hne).
  - split_and!; [apply NoDup_singleton| |done].
    apply Forall_singleton. split; simpl; [set_solver|done|apply NoDup_nil_2|done..].
  - done.
  - intros [|i] _; [done|]. by rewrite list_lookup_total_alt.
  - lia.
  - exists new. split; [exact Hloop|]. split_and!; [done..|]. by rewrite H0.
Qed.

(** ** State unification *)

Section simplify.
Context {T : Type} `{EqDecision T}.
Implicit Types (h : list (DFAState T)) (dfas : list nat).

Lemma same_cell_refl (s : DFAState T) : same_cell s s.
Proof. by repeat split. Qed.

Lemma same_cell_trans (s1 s2 s3 : DFAState T) : same_cell s1 s2 → same_cell s2 s3 → same_cell s1 s3.
Proof. unfold same_cell. intros (?&?&?&?&?&?) (?&?&?&?&?&?). split_and!; congruence. Qed.

Lemma same_cell_unifystate old new (s : DFAState T) : same_cell s (unifystate old new s).
Proof.
  unfold same_cell, unifystate. simpl. split_and!; try done.
  induction (arcs s) as [|[label t] a IH]; [done|]. csimpl. by rewrite IH.
Qed.

Lemma unifystate_idemp old new (s : DFAState T) :
  unifystate old new (unifystate old new s) = unifystate old new s.
Proof.
  unfold unifystate, set_arcs. simpl. f_equal.
  rewrite map_map. apply map_ext. intros [label t].
  repeat case_decide; congruence.
Qed.

Lemma unifystate_inhabitant old new :
  unifystate old new (inhabitant : DFAState T) = inhabitant.
Proof. done. Qed.

(** [DFAState.__eq__] on states whose labels are distinct: same finality
    and the same arcs, label by label, targets compared as references; the
    node sets play no part. *)
Lemma DFAState_eq_spec (s s' : DFAState T) :
  NoDup (arcs s).*1 → NoDup (arcs s').*1 →
  DFAState_eq s s' = true ↔
  is_final s = is_final s'
  ∧ ∀ label, dict_get label (arcs s) = dict_get label (arcs s').
Proof.
  intros Hs Hs'. unfold DFAState_eq. split.
  - case_bool_decide as Hf; [done|]. case_bool_decide as Hlen; [done|].
    rewrite forallb_forall. intros Hall. split; [done|].
    assert (∀ label t, (label, t) ∈ arcs s → dict_get label (arcs s') = Some t) as Hsub.
    { intros label t Hin%list_elem_of_In. specialize (Hall _ Hin). simpl in Hall.
      by apply bool_decide_eq_true in Hall. }
    assert ((arcs s).*1 ≡ₚ (arcs s').*1) as Hperm.
    { apply submseteq_length_Permutation; [|by rewrite !length_fmap, Hlen].
      apply NoDup_submseteq; [done|].
      intros label ([label' t] & -> & Hin)%list_elem_of_fmap. simpl.
      apply dict_get_is_Some. rewrite (Hsub _ _ Hin). by eexists. }
    intros label. destruct (dict_get label (arcs s)) as [t|] eqn:Hget.
    + symmetry. by apply Hsub, dict_get_Some_elem.
    + symmetry. apply dict_get_None. rewrite <-Hperm. by apply dict_get_None.
  - intros [Hf Harcs].
    rewrite bool_decide_eq_false_2 by (by intros ?).
    assert ((arcs s).*1 ≡ₚ (arcs s').*1) as Hperm.
    { apply NoDup_Permutation; [done..|]. intros label.
      by rewrite <-!dict_get_is_Some, Harcs. }
    rewrite bool_decide_eq_false_2.
    2: { intros Hne. apply Hne. apply Permutation_length in Hperm.
         by rewrite !length_fmap in Hperm. }
    apply forallb_forall. intros [label t] Hin%list_elem_of_In. simpl.
    apply bool_decide_eq_true. rewrite <-Harcs. by apply dict_get_elem.
Qed.

Lemma find_equal_Some h state_i dfas i j state_j :
  find_equal h state_i dfas i = Some (j, state_j) ↔
  i < j ∧ dfas !! j = Some state_j
  ∧ DFAState_eq (h !!! state_i) (h !!! state_j) = true
  ∧ ∀ j' s', i < j' → j' < j → dfas !! j' = Some s' →
      DFAState_eq (h !!! state_i) (h !!! s') = false.
Proof.
  unfold find_equal. split.
  - destruct (list_find _ _) as [[p x]|] eqn:Hfind; [|done].
    intros [= <- <-]. apply list_find_Some in Hfind as (Hp & Heq & Hmin).
    rewrite lookup_drop in Hp. split_and!; [lia|done|done|].
    intros j' s' Hij Hj' Hs'. apply not_true_is_false.
    apply (Hmin (j' - S i)); [|lia].
    rewrite lookup_drop. by replace (S i + (j' - S i)) with j' by lia.
  - intros (Hij & Hj & Heq & Hmin).
    assert (list_find (λ state_j, DFAState_eq (h !!! state_i) (h !!! state_j) = true)
              (drop (S i) dfas) = Some (j - S i, state_j)) as ->.
    { apply list_find_Some. split_and!; [|done|].
      - rewrite lookup_drop. by replace (S i + (j - S i)) with j by lia.
      - intros p y Hp Hlt. rewrite lookup_drop in Hp.
        rewrite (Hmin (S i + p) y); [done|lia|lia|done]. }
    simpl. do 2 f_equal. lia.
Qed.

Lemma find_equal_None h state_i dfas i :
  find_equal h state_i dfas i = None ↔
  ∀ j state_j, i < j → dfas !! j = Some state_j →
    DFAState_eq (h !!! state_i) (h !!! state_j) = false.
Proof.
  unfold find_equal. rewrite fmap_None, list_find_None, Forall_lookup. split.
  - intros Hall j state_j Hij Hj. apply not_true_is_false.
    apply (Hall (j - S i)). rewrite lookup_drop.
    by replace (S i + (j - S i)) with j by lia.
  - intros Hall p y Hp. rewrite lookup_drop in Hp.
    rewrite (Hall (S i + p) y); [done|lia|done].
Qed.

Lemma length_unify_all state_j state_i h dfas :
  length (unify_all state_j state_i h dfas) = length h.
Proof.
  unfold unify_all. revert h.
  induction dfas as [|l dfas IH]; intros h; simpl; [done|].
  by rewrite IH, length_alter.
Qed.

(** Every state of the list has its arcs to [state_j] redirected to
    [state_i]; the other cells are untouched. *)
Lemma unify_all_lookup state_j state_i h dfas l :
  unify_all state_j state_i h dfas !!! l
  = if decide (l ∈ dfas) then unifystate state_j state_i (h !!! l) else h !!! l.
Proof.
  unfold unify_all. revert h.
  induction dfas as [|l' dfas IH]; intros h; cbn [foldl].
  { destruct (decide (l ∈ [])) as [[]%elem_of_nil|]; done. }
  rewrite IH.
  assert (alter (unifystate state_j state_i) l' h !!! l
          = if decide (l = l') then unifystate state_j state_i (h !!! l) else h !!! l)
    as Hone.
  { destruct (decide (l' < length h)).
    - by apply heap_lookup_alter.
    - rewrite !list_lookup_total_alt.
      destruct (decide (l = l')) as [->|Hne].
      + rewrite list_lookup_alter_eq, lookup_ge_None_2 by lia. done.
      + by rewrite list_lookup_alter_ne. }
  rewrite Hone.
  destruct (decide (l = l')) as [->|Hne].
  - rewrite (decide_True (P := l' ∈ l' :: dfas)) by left.
    case_decide; [apply unifystate_idemp|done].
  - destruct (decide (l ∈ dfas)).
    + rewrite decide_True; [done|by right].
    + rewrite decide_False; [done|]. rewrite elem_of_cons. naive_solver.
Qed.

Lemma same_cell_unify_all state_j state_i h dfas l :
  same_cell (h !!! l) (unify_all state_j state_i h dfas !!! l).
Proof.
  rewrite unify_all_lookup. case_decide;
    [apply same_cell_unifystate|apply same_cell_refl].
Qed.

(** One pass over the list always returns; it removes one state per merge
    and changes nothing but arc targets. *)
Lemma simplify_pass_spec fuel i h dfas changes log :
  length dfas ≤ fuel + i →
  ∃ h' dfas' merges,
    simplify_pass fuel i h dfas changes log
    = Ok (h', dfas', changes || bool_decide (merges ≠ []), log ++ merges)
    ∧ length h' = length h
    ∧ length dfas' + length merges = length dfas
    ∧ dfas' `sublist_of` dfas
    ∧ (∀ l, same_cell (h !!! l) (h' !!! l))
    ∧ (merges = [] → h' = h ∧ dfas' = dfas ∧
         ∀ i' state_i, i ≤ i' → dfas !! i' = Some state_i →
           find_equal h state_i dfas i' = None).
Proof.
  revert i h dfas changes log.
  induction fuel as [|fuel IH]; intros i h dfas changes log Hfuel.
  - simpl. rewrite lookup_ge_None_2 by lia. exists h, dfas, [].
    rewrite app_nil_r, orb_false_r.
    split_and!; try done; try (by intros; apply same_cell_refl).
    intros _. split_and!; try done.
    intros i' si Hi' Hs%lookup_lt_Some. lia.
  - simpl. destruct (dfas !! i) as [state_i|] eqn:Hi.
    2: { exists h, dfas, []. rewrite app_nil_r, orb_false_r.
         split_and!; try done; try (by intros; apply same_cell_refl).
         intros _. split_and!; try done.
         intros i' si Hi' Hs%lookup_lt_Some. apply lookup_ge_None in Hi. lia. }
    destruct (find_equal h state_i dfas i) as [[j state_j]|] eqn:Hfind.
    + apply find_equal_Some in Hfind as (Hij & Hj & _).
      assert (length (delete j dfas) = length dfas - 1) as Hdel by (by apply length_delete).
      pose proof (lookup_lt_Some _ _ _ Hj) as Hjlt.
      destruct (IH (S i) (unify_all state_j state_i h (delete j dfas))
                   (delete j dfas) true (log ++ [(i, j)]))
        as (h' & dfas' & merges & Hrun & Hlen & Hcount & Hsub & Hcell & _); [lia|].
      exists h', dfas', ((i, j) :: merges). rewrite Hrun. split_and!.
      * rewrite <-app_assoc.
        rewrite (bool_decide_eq_true_2 ((i, j) :: merges ≠ [])) by done.
        by rewrite orb_true_r.
      * by rewrite Hlen, length_unify_all.
      * simpl. lia.
      * etrans; [exact Hsub|apply sublist_delete].
      * intros l. eapply same_cell_trans; [apply same_cell_unify_all|apply Hcell].
      * done.
    + destruct (IH (S i) h dfas changes log)
        as (h' & dfas' & merges & Hrun & Hlen & Hcount & Hsub & Hcell & Hnone); [lia|].
      exists h', dfas', merges. rewrite Hrun. split_and!; try done.
      intros Hm. destruct (Hnone Hm) as (-> & -> & Hrest). split_and!; try done.
      intros i' si Hi' Hs. destruct (decide (i' = i)) as [->|]; [congruence|].
      apply Hrest; [lia|done].
Qed.

(** A pass over a list without equal pairs does nothing. *)
Lemma simplify_pass_fixpoint fuel i h dfas changes log :
  length dfas ≤ fuel + i → no_equal_pair h dfas →
  simplify_pass fuel i h dfas changes log = Ok (h, dfas, changes, log).
Proof.
  revert i. induction fuel as [|fuel IH]; intros i Hfuel Hno; simpl.
  - by rewrite lookup_ge_None_2 by lia.
  - destruct (dfas !! i) as [state_i|] eqn:Hi; [|done].
    assert (find_equal h state_i dfas i = None) as ->.
    { apply find_equal_None. intros j state_j Hij Hj. by apply (Hno i j). }
    apply IH; [lia|done].
Qed.

Lemma no_equal_pair_find h dfas :
  (∀ i state_i, dfas !! i = Some state_i → find_equal h state_i dfas i = None) →
  no_equal_pair h dfas.
Proof.
  intros Hnone i j state_i state_j Hij Hi Hj.
  by eapply find_equal_None; [apply Hnone| |].
Qed.

(** The unifier always returns, and what it returns has no equal pair. *)
Lemma simplify_loop_spec fuel h dfas log :
  length dfas < fuel →
  ∃ h' dfas' merges,
    simplify_loop fuel h dfas log = Ok (h', dfas', log ++ merges)
    ∧ length h' = length h
    ∧ length dfas' + length merges = length dfas
    ∧ dfas' `sublist_of` dfas
    ∧ (∀ l, same_cell (h !!! l) (h' !!! l))
    ∧ no_equal_pair h' dfas'.
Proof.
  revert h dfas log. induction fuel as [|fuel IH]; intros h dfas log Hfuel; [lia|].
  simpl.
  destruct (simplify_pass_spec (length dfas) 0 h dfas false log)
    as (h1 & dfas1 & merges1 & -> & Hlen1 & Hcount1 & Hsub1 & Hcell1 & Hnone1); [lia|].
  simpl. destruct merges1 as [|m merges1].
  - rewrite bool_decide_eq_false_2 by (by intros ?). 
    destruct (Hnone1 eq_refl) as (-> & -> & Hfix).
    exists h, dfas, []. split_and!; try done.
    apply no_equal_pair_find. intros i si Hi. apply (Hfix i si); [lia|done].
  - rewrite bool_decide_eq_true_2 by done.
    destruct (IH h1 dfas1 (log ++ m :: merges1))
      as (h2 & dfas2 & merges2 & -> & Hlen2 & Hcount2 & Hsub2 & Hcell2 & Hno2).
    { simpl in Hcount1. lia. }
    exists h2, dfas2, (m :: merges1 ++ merges2). split_and!.
    + by rewrite <-app_assoc.
    + congruence.
    + simpl in *. rewrite length_app. lia.
    + by etrans.
    + intros l. eapply same_cell_trans; [apply Hcell1|apply Hcell2].
    + done.
Qed.

Lemma _simplify_dfas_log_spec h dfas :
  ∃ h' dfas' merges,
    _simplify_dfas_log h dfas = Ok (h', dfas', merges)
    ∧ length h' = length h
    ∧ length dfas' + length merges = length dfas
    ∧ dfas' `sublist_of` dfas
    ∧ (∀ l, same_cell (h !!! l) (h' !!! l))
    ∧ no_equal_pair h' dfas'.
Proof. apply (simplify_loop_spec _ h dfas []). lia. Qed.

Lemma _simplify_dfas_spec h dfas :
  ∃ h' dfas',
    _simplify_dfas h dfas = Ok (h', dfas')
    ∧ length h' = length h
    ∧ dfas' `sublist_of` dfas
    ∧ (∀ l, same_cell (h !!! l) (h' !!! l))
    ∧ no_equal_pair h' dfas'.
Proof.
  destruct (_simplify_dfas_log_spec h dfas)
    as (h' & dfas' & merges & Hrun & ? & _ & ? & ? & ?).
  exists h', dfas'. unfold _simplify_dfas. by rewrite Hrun.
Qed.

Lemma _simplify_dfas_log_fixpoint h dfas :
  no_equal_pair h dfas → _simplify_dfas_log h dfas = Ok (h, dfas, []).
Proof.
  intros Hno. unfold _simplify_dfas_log. simpl.
  by rewrite simplify_pass_fixpoint by (done || lia).
Qed.
End simplify.

(** ** Transition keys and reserved strings *)

Section transition.
Context {T : Type} `{EqDecision T}.
Context (literal_eval : string → option string).
Context (token_namespace : string → option T).
Implicit Types (rs : list ReservedString * list (string * nat)).

Lemma rs_le_refl rs : rs_le rs rs.
Proof. by intros v a. Qed.

Lemma rs_le_trans rs1 rs2 rs3 : rs_le rs1 rs2 → rs_le rs2 rs3 → rs_le rs1 rs3.
Proof. intros H12 H23 v a Hv. by apply H23, H12. Qed.

Lemma rs_ok_nil : rs_ok ([], []).
Proof. intros v a. simpl. by rewrite lookup_nil. Qed.

Lemma rs_ok_intern rs_heap reserved v :
  rs_ok (rs_heap, reserved) → dict_get v reserved = None →
  rs_ok (rs_heap ++ [{| value := v |}], dict_set v (length rs_heap) reserved).
Proof.
  intros Hok Hv v' a. simpl. rewrite dict_get_set.
  destruct (decide (v' = v)) as [->|Hne].
  - split.
    + intros [= <-]. by rewrite list_lookup_middle.
    + intros Ha. destruct (decide (a < length rs_heap)) as [Hlt|Hge].
      * rewrite lookup_app_l in Ha by done. apply (Hok v a) in Ha. simpl in Ha. congruence.
      * f_equal. apply lookup_lt_Some in Ha. rewrite length_app in Ha. simpl in Ha. lia.
  - rewrite (Hok v' a). simpl. split.
    + intros Ha. by apply lookup_app_l_Some.
    + intros Ha. destruct (decide (a < length rs_heap)) as [Hlt|Hge].
      * by rewrite lookup_app_l in Ha.
      * assert (a = length rs_heap) as ->.
        { apply lookup_lt_Some in Ha. rewrite length_app in Ha. simpl in Ha. lia. }
        rewrite list_lookup_middle in Ha by done. congruence.
Qed.

(** A successful resolution keeps the table consistent, only adds to it, and
    is repeatable: resolving the label again gives the same key and leaves
    the table as it is. *)
Lemma _make_transition_inv rs label key rs' :
  _make_transition literal_eval token_namespace rs label = Ok (key, rs') →
  rs_ok rs →
  rs_ok rs' ∧ rs_le rs rs'
  ∧ _make_transition literal_eval token_namespace rs' label = Ok (key, rs').
Proof.
  unfold _make_transition. destruct label as [|c rest]; [done|].
  destruct (isalpha c).
  { destruct (token_namespace _); [|done]. intros [= <- <-] Hok.
    split_and!; [done|apply rs_le_refl|done]. }
  destruct (assert (_ || _)) as [[]|?|]; simpl; [|done..].
  destruct (assert (_ && _)) as [[]|?|]; simpl; [|done..].
  destruct (literal_eval _) as [v|]; [|done].
  destruct rs as [rs_heap reserved].
  destruct (dict_get v reserved) as [r|] eqn:Hv.
  - intros [= <- <-] Hok. rewrite Hv. split_and!; [done|apply rs_le_refl|done].
  - intros [= <- <-] Hok. rewrite dict_get_set, decide_True by done.
    split_and!; [by apply rs_ok_intern| |done].
    intros v' a Hv'. simpl in *. rewrite dict_get_set.
    rewrite decide_False; [done|congruence].
Qed.

Lemma _make_transition_mono rs rs' label key :
  _make_transition literal_eval token_namespace rs label = Ok (key, rs) →
  rs_le rs rs' →
  _make_transition literal_eval token_namespace rs' label = Ok (key, rs').
Proof.
  unfold _make_transition. destruct label as [|c rest]; [done|].
  destruct (isalpha c).
  { destruct (token_namespace _); [|done]. by intros [= <-]. }
  destruct (assert (_ || _)) as [[]|?|]; simpl; [|done..].
  destruct (assert (_ && _)) as [[]|?|]; simpl; [|done..].
  destruct (literal_eval _) as [v|]; [|done].
  destruct rs as [rs_heap reserved], rs' as [rs_heap' reserved'].
  destruct (dict_get v reserved) as [r|] eqn:Hv.
  - intros [= <-] Hle. specialize (Hle v r Hv). simpl in Hle. by rewrite Hle.
  - intros [= _ Hheap _]. apply (f_equal length) in Hheap.
    rewrite length_app in Hheap. simpl in Hheap. lia.
Qed.

(** The key of a quoted literal is the object the table holds for its
    value. *)
Lemma _make_transition_quoted rs label key c rest v :
  _make_transition literal_eval token_namespace rs label = Ok (key, rs) →
  label = String c rest → isalpha c = false → literal_eval label = Some v →
  ∃ a, key = ReservedKey a ∧ dict_get v rs.2 = Some a.
Proof.
  intros Hrun -> Hc Hv. revert Hrun. unfold _make_transition. rewrite Hc.
  destruct (assert (_ || _)) as [[]|?|]; simpl; [|done..].
  destruct (assert (_ && _)) as [[]|?|]; simpl; [|done..].
  rewrite Hv. destruct rs as [rs_heap reserved].
  destruct (dict_get v reserved) as [r|] eqn:Hr.
  - intros [= <-]. by exists r.
  - intros [= _ Hheap _]. apply (f_equal length) in Hheap.
    rewrite length_app in Hheap. simpl in Hheap. lia.
Qed.
End transition.

(** ** The transition-compilation pass *)

Section compile.
Context {T : Type} `{EqDecision T}.
Context (literal_eval : string → option string).
Context (token_namespace : string → option T).
Context (rules : list (string * list nat)).
Implicit Types (h : list (DFAState T))
  (st : list (DFAState T) * (list ReservedString * list (string * nat))).

Local Abbreviation nt_write := (nt_write rules).
Local Abbreviation plan_write := (plan_write literal_eval token_namespace rules).
Local Abbreviation resolvable := (resolvable literal_eval token_namespace rules).

Lemma same_arcs_refl (s : DFAState T) : same_arcs s s.
Proof. by repeat split. Qed.

Lemma same_arcs_trans (s1 s2 s3 : DFAState T) : same_arcs s1 s2 → same_arcs s2 s3 → same_arcs s1 s3.
Proof. unfold same_arcs. intros (?&?&?&?) (?&?&?&?). split_and!; congruence. Qed.

Lemma resolvable_mono rs rs' item : resolvable rs item → rs_le rs rs' → resolvable rs' item.
Proof.
  intros Hres Hle Hterm. destruct (Hres Hterm) as [key Hkey].
  exists key. by eapply _make_transition_mono.
Qed.

Lemma plan_write_mono rs rs' item :
  resolvable rs item → rs_le rs rs' → plan_write rs' item = plan_write rs item.
Proof.
  intros Hres Hle. unfold plan_write.
  destruct (dict_mem item.1 rules) eqn:Hmem; [done|].
  destruct (Hres Hmem) as [key Hkey].
  by rewrite Hkey, (_make_transition_mono _ _ _ _ _ _ Hkey Hle).
Qed.

Lemma compile_arc_spec l h rs item h' rs' :
  compile_arc literal_eval token_namespace rules l (h, rs) item = Ok (h', rs') →
  rs_ok rs → l < length h →
  rs_ok rs' ∧ rs_le rs rs' ∧ length h' = length h
  ∧ (∀ l', l' ≠ l → h' !!! l' = h !!! l')
  ∧ same_arcs (h !!! l) (h' !!! l)
  ∧ nonterminal_arcs (h' !!! l)
    = dict_writes nt_write [item] (nonterminal_arcs (h !!! l))
  ∧ ilabel_to_plan (h' !!! l)
    = dict_writes (plan_write rs') [item] (ilabel_to_plan (h !!! l))
  ∧ resolvable rs' item.
Proof.
  unfold compile_arc. destruct item as [label target].
  unfold resolvable, nt_write, plan_write, dict_writes. simpl.
  destruct (dict_mem label rules) eqn:Hmem.
  - intros [= <- <-] Hok Hl. split_and!; try done.
    + apply rs_le_refl.
    + by rewrite length_alter.
    + intros l' Hne. rewrite heap_lookup_alter by done. by rewrite decide_False.
    + rewrite heap_lookup_alter, decide_True by done. by repeat split.
    + by rewrite heap_lookup_alter, decide_True by done.
    + by rewrite heap_lookup_alter, decide_True by done.
  - intros ([key rs1] & Hkey & [= <- <-])%bind_Ok Hok Hl.
    destruct (_make_transition_inv _ _ _ _ _ _ Hkey Hok) as (Hok1 & Hle & Hkey1).
    split_and!; try done.
    + by rewrite length_alter.
    + intros l' Hne. rewrite heap_lookup_alter by done. by rewrite decide_False.
    + rewrite heap_lookup_alter, decide_True by done. by repeat split.
    + by rewrite heap_lookup_alter, decide_True by done.
    + rewrite heap_lookup_alter, decide_True by done. by rewrite Hkey1.
    + intros _. by exists key.
Qed.

Lemma compile_state_spec l st st' :
  compile_state literal_eval token_namespace rules st l = Ok st' →
  rs_ok st.2 →
  rs_ok st'.2 ∧ rs_le st.2 st'.2 ∧ length st'.1 = length st.1
  ∧ (∀ l', l' ≠ l → st'.1 !!! l' = st.1 !!! l')
  ∧ same_arcs (st.1 !!! l) (st'.1 !!! l)
  ∧ nonterminal_arcs (st'.1 !!! l)
    = dict_writes nt_write (arcs (st.1 !!! l)) (nonterminal_arcs (st.1 !!! l))
  ∧ ilabel_to_plan (st'.1 !!! l)
    = dict_writes (plan_write st'.2) (arcs (st.1 !!! l)) (ilabel_to_plan (st.1 !!! l))
  ∧ Forall (resolvable st'.2) (arcs (st.1 !!! l)).
Proof.
  unfold compile_state. intros Hrun Hok.
  destruct (decide (l < length st.1)) as [Hl|Hl].
  2: { rewrite list_lookup_total_alt, lookup_ge_None_2 in Hrun by lia.
       simpl in Hrun. injection Hrun as <-.
       rewrite list_lookup_total_alt, lookup_ge_None_2 by lia. simpl.
       split_and!; try done; try apply rs_le_refl; try (by repeat split). }
  set (arcs0 := arcs (st.1 !!! l)) in *.
  apply (foldM_inv (λ pre st1,
    rs_ok st1.2 ∧ rs_le st.2 st1.2 ∧ length st1.1 = length st.1
    ∧ (∀ l', l' ≠ l → st1.1 !!! l' = st.1 !!! l')
    ∧ same_arcs (st.1 !!! l) (st1.1 !!! l)
    ∧ nonterminal_arcs (st1.1 !!! l)
      = dict_writes nt_write pre (nonterminal_arcs (st.1 !!! l))
    ∧ ilabel_to_plan (st1.1 !!! l)
      = dict_writes (plan_write st1.2) pre (ilabel_to_plan (st.1 !!! l))
    ∧ Forall (resolvable st1.2) pre) _ _ _ _ Hrun).
  { split_and!; try done; try apply rs_le_refl; try (by repeat split). }
  intros pre a suf [h1 rs1] [h2 rs2] _ (Hok1 & Hle1 & Hlen1 & Hother1 & Hsame1 & Hnt1 & Hplan1 & Hres1) Hstep.
  simpl in *.
  destruct (compile_arc_spec _ _ _ _ _ _ Hstep Hok1)
    as (Hok2 & Hle2 & Hlen2 & Hother2 & Hsame2 & Hnt2 & Hplan2 & Hres2); [lia|].
  split_and!; try done.
  - by eapply rs_le_trans.
  - congruence.
  - intros l' Hne. by rewrite Hother2, Hother1.
  - by eapply same_arcs_trans.
  - by rewrite Hnt2, Hnt1, dict_writes_app.
  - rewrite Hplan2, Hplan1, dict_writes_app. f_equal.
    apply dict_writes_ext. intros item Hitem. symmetry. apply plan_write_mono; [|done].
    rewrite Forall_forall in Hres1. by apply Hres1.
  - apply Forall_app. split; [|by apply Forall_singleton].
    eapply Forall_impl; [exact Hres1|]. intros item Hitem. by eapply resolvable_mono.
Qed.

Lemma compile_states_spec locs st st' :
  foldM (compile_state literal_eval token_namespace rules) locs st = Ok st' →
  NoDup locs → rs_ok st.2 →
  rs_ok st'.2 ∧ rs_le st.2 st'.2 ∧ length st'.1 = length st.1
  ∧ (∀ l, l ∉ locs → st'.1 !!! l = st.1 !!! l)
  ∧ (∀ l, same_arcs (st.1 !!! l) (st'.1 !!! l))
  ∧ (∀ l, l ∈ locs →
       nonterminal_arcs (st'.1 !!! l)
       = dict_writes nt_write (arcs (st.1 !!! l)) (nonterminal_arcs (st.1 !!! l))
       ∧ ilabel_to_plan (st'.1 !!! l)
         = dict_writes (plan_write st'.2) (arcs (st.1 !!! l))
                       (ilabel_to_plan (st.1 !!! l))
       ∧ Forall (resolvable st'.2) (arcs (st.1 !!! l))).
Proof.
  revert st. induction locs as [|l locs IH]; intros st Hrun Hnd Hok.
  { simpl in Hrun. injection Hrun as <-.
    split_and!; try done; try apply rs_le_refl;
      try (by intros l; apply same_arcs_refl).
    by intros l ?%elem_of_nil. }
  simpl in Hrun. apply bind_Ok in Hrun as (st1 & H1 & Hrest).
  apply NoDup_cons in Hnd as [Hl Hnd].
  destruct (compile_state_spec _ _ _ H1 Hok)
    as (Hok1 & Hle1 & Hlen1 & Hother1 & Hsame1 & Hnt1 & Hplan1 & Hres1).
  destruct (IH st1 Hrest Hnd Hok1)
    as (Hok2 & Hle2 & Hlen2 & Hother2 & Hsame2 & Hdone2).
  assert (∀ l', same_arcs (st.1 !!! l') (st1.1 !!! l')) as Hsame1'.
  { intros l'. destruct (decide (l' = l)) as [->|Hne]; [done|].
    rewrite Hother1 by done. apply same_arcs_refl. }
  split_and!; try done.
  - by eapply rs_le_trans.
  - congruence.
  - intros l' [Hne Hnin]%not_elem_of_cons. by rewrite Hother2, Hother1.
  - intros l'. eapply same_arcs_trans; [apply Hsame1'|apply Hsame2].
  - intros l' [->|Hin]%elem_of_cons.
    + rewrite (Hother2 l Hl). split_and!; [done| |].
      * rewrite Hplan1. apply dict_writes_ext. intros item Hitem. symmetry.
        apply plan_write_mono; [|done]. rewrite Forall_forall in Hres1. by apply Hres1.
      * eapply Forall_impl; [exact Hres1|]. intros item ?. by eapply resolvable_mono.
    + assert (l' ≠ l) as Hne by (by intros ->).
      destruct (Hdone2 l' Hin) as (Hnt & Hplan & Hres).
      rewrite (Hother1 l' Hne) in Hnt, Hplan, Hres. done.
Qed.

Lemma compile_transitions_no_timeout st :
  compile_transitions literal_eval token_namespace rules st ≠ OutOfFuel.
Proof.
  unfold compile_transitions. rewrite foldM_concat.
  revert st. induction (concat rules.*2) as [|l locs IH]; intros st; [done|].
  simpl. destruct (compile_state _ _ _ st l) as [st1| |] eqn:Hst; simpl; [apply IH|done|].
  exfalso. revert Hst. unfold compile_state. generalize (arcs (st.1 !!! l)).
  intros items. revert st. induction items as [|[label target] items IHi]; intros st; [done|].
  simpl. destruct (compile_arc _ _ _ l st (label, target)) as [st2| |] eqn:Harc; simpl;
    [apply IHi|done|].
  intros _. revert Harc. unfold compile_arc. destruct st as [h rs].
  destruct (dict_mem label rules); [done|].
  destruct (_make_transition _ _ rs label) as [[key rs']| |] eqn:Hkey; simpl; [done..|].
  intros _. revert Hkey. unfold _make_transition.
  destruct label as [|c rest]; [done|]. destruct (isalpha c).
  { by destruct (token_namespace _). }
  destruct (assert (_ || _)) as [[]|?|] eqn:H1; simpl; [|done|by destruct (_ || _)].
  destruct (assert (_ && _)) as [[]|?|] eqn:H2; simpl; [|done|by destruct (_ && _)].
  destruct (literal_eval _); [|done]. destruct rs as [rs_heap reserved].
  by destruct (dict_get _ _).
Qed.
End compile.

(** ** The rule table *)

Lemma elem_of_concat {A} (x : A) (ls : list (list A)) :
  x ∈ concat ls ↔ ∃ l, l ∈ ls ∧ x ∈ l.
Proof.
  rewrite list_elem_of_In, in_concat. split.
  - intros (l & Hl & Hx). exists l. by rewrite !list_elem_of_In.
  - intros (l & Hl & Hx). exists l. by rewrite <-!list_elem_of_In.
Qed.

Lemma elem_of_rule_states {K} (rules : list (K * list nat)) k dfas l :
  (k, dfas) ∈ rules → l ∈ dfas → l ∈ concat rules.*2.
Proof.
  intros Hin Hl. apply elem_of_concat. exists dfas. split; [|done].
  by apply (list_elem_of_fmap_2 snd _ (k, dfas)).
Qed.

Lemma concat_dict_set_elem {K} `{EqDecision K} (d : list (K * list nat)) k v x :
  x ∈ concat (dict_set k v d).*2 → x ∈ v ∨ x ∈ concat d.*2.
Proof.
  intros (l & (kv & -> & Hkv)%list_elem_of_fmap & Hx)%elem_of_concat.
  apply dict_set_elem in Hkv as [->|Hkv]; [by left|right].
  apply elem_of_concat. exists kv.2. split; [|done]. by apply list_elem_of_fmap_2.
Qed.

Lemma NoDup_concat_dict_set {K} `{EqDecision K} (d : list (K * list nat)) k v :
  NoDup (concat d.*2) → NoDup v → (∀ x, x ∈ v → x ∉ concat d.*2) →
  NoDup (concat (dict_set k v d).*2).
Proof.
  induction d as [|[k' v'] d IH]; csimpl; intros Hnd Hv Hdisj.
  { by rewrite app_nil_r. }
  apply NoDup_app in Hnd as (Hv' & Hv'd & Hd).
  destruct (decide (k = k')) as [->|Hne]; csimpl.
  - apply NoDup_app. split_and!; [done| |done].
    intros x Hx Hxd. apply (Hdisj x Hx). apply elem_of_app. by right.
  - apply NoDup_app. split_and!; [done| |].
    + intros x Hx [Hxv|Hxd]%concat_dict_set_elem.
      * apply (Hdisj x Hxv). apply elem_of_app. by left.
      * by apply (Hv'd x).
    + apply IH; [done|done|]. intros x Hx Hxd. apply (Hdisj x Hx).
      apply elem_of_app. by right.
Qed.

(** ** The first loop of the driver *)

Section build.
Context {T : Type} `{EqDecision T} `{SetOrder}.
Context (g : list NFAState).

Local Abbreviation build_inv := (build_inv g).

Lemma _make_dfas_spec (h0 : list (DFAState T)) (start finish : nat) :
  ∃ new,
    _make_dfas g h0 start finish = Ok (h0 ++ new, seq (length h0) (length new))
    ∧ new ≠ []
    ∧ NoDup (nfa_set <$> new)
    ∧ Forall (cell_ok (nfa_from_rule (g !!! start)) finish
                      ({[start]} ∪ nfa_targets g)) new
    ∧ ∀ n, n ∈ nfa_set (new !!! 0) ↔ eps_closure g start n.
Proof. by apply _make_dfas_fuel_spec. Qed.

Lemma build_rule_spec done
    (acc : list (DFAState T) * list (string * list nat) * option string) a z :
  build_inv done acc →
  ∃ acc', build_rule g acc (a, z) = Ok acc' ∧ build_inv (done ++ [(a, z)]) acc'.
Proof.
  destruct acc as [[h rules] start].
  intros (Hclean & Hnd & Hvalid & Hfinal & Hrules & Hstart). simpl in *.
  destruct (_make_dfas_spec h a z) as (new & Hmake & Hne & _ & Hnew & _).
  destruct (_simplify_dfas_spec (h ++ new) (seq (length h) (length new)))
    as (h2 & dfas' & Hsimp & Hlen2 & Hsub & Hcell & _).
  unfold build_rule. rewrite Hmake. simpl. rewrite Hsimp. simpl.
  eexists. split; [done|]. unfold build_inv. simpl.
  assert (∀ l, l < length h → same_cell (h !!! l) (h2 !!! l)) as Hold.
  { intros l Hl. specialize (Hcell l). rewrite lookup_total_app_l in Hcell by done. done. }
  assert (∀ l, l ∈ dfas' → length h ≤ l < length h2) as Hrange.
  { intros l Hl. eapply elem_of_sublist in Hl; [|done].
    apply elem_of_seq in Hl. rewrite Hlen2, length_app. lia. }
  split_and!.
  - apply (Forall_lookup_total_2 cell_clean h2). intros l Hl.
    destruct (Hcell l) as (_ & _ & _ & Hkeys & Hplan & Hnt).
    unfold cell_clean. rewrite Hkeys, Hplan, Hnt.
    rewrite Hlen2, length_app in Hl.
    destruct (decide (l < length h)).
    + rewrite lookup_total_app_l by done. by apply Forall_lookup_total_1.
    + rewrite lookup_total_app_r by lia.
      destruct (Forall_lookup_total_1 _ _ (l - length h) Hnew) as []; [lia|].
      done.
  - apply NoDup_concat_dict_set; [done| |].
    + eapply sublist_NoDup; [apply NoDup_seq|exact Hsub].
    + intros l Hl Hin. apply Hrange in Hl. apply Hvalid in Hin. lia.
  - intros l [Hl|Hl]%concat_dict_set_elem.
    + by apply Hrange.
    + apply Hvalid in Hl. rewrite Hlen2, length_app. lia.
  - intros rule dfas [[= -> ->]|Hin]%dict_set_elem.
    + exists a, z. split_and!; [apply elem_of_app; right; left|done|].
      intros l Hl. destruct (Hcell l) as (_ & -> & -> & _).
      apply Hrange in Hl. rewrite Hlen2, length_app in Hl.
      rewrite lookup_total_app_r by lia.
      by destruct (Forall_lookup_total_1 _ _ (l - length h) Hnew) as []; [lia|].
    + destruct (Hfinal rule dfas Hin) as (a' & z' & Hdone & -> & Hfin).
      exists a', z'. split_and!; [apply elem_of_app; by left|done|].
      intros l Hl. assert (l < length h) as Hlt.
      { apply Hvalid. by eapply elem_of_rule_states. }
      destruct (Hold l Hlt) as (_ & -> & -> & _). by apply Hfin.
  - intros a' z' [Hin|[= -> ->]%list_elem_of_singleton]%elem_of_app.
    + by eapply dict_set_elem_keys, Hrules.
    + apply dict_set_key_in.
  - rewrite Hstart. destruct done as [|[a' z'] done]; simpl; done.
Qed.

(** The first loop never fails. *)
Lemma build_rules_spec fragments :
  ∃ acc : list (DFAState T) * list (string * list nat) * option string,
    foldM (build_rule g) fragments ([], [], None) = Ok acc
    ∧ build_inv fragments acc.
Proof.
  apply (foldM_total
    (λ done (acc : list (DFAState T) * list (string * list nat) * option string),
       build_inv done acc)).
  - unfold build_inv. simpl. split_and!; try done.
    + apply NoDup_nil_2.
    + by intros l ?%elem_of_nil.
    + by intros rule dfas ?%elem_of_nil.
    + by intros a z ?%elem_of_nil.
  - intros pre [a z] suf acc _ Hinv. by apply build_rule_spec.
Qed.
End build.

(** ** The driver *)

Section driver.
Context {T : Type} `{EqDecision T} `{SetOrder}.
Context (literal_eval : string → option string).
Context (g : list NFAState) (token_namespace : string → option T).

(** What a normal return of [generate_grammar] leaves in the heaps: every
    state of the rule table has the tables that the run of assignments over
    its arcs builds from empty ones, with the keys the final interning table
    gives. *)
Lemma generate_grammar_inv fragments h' rs_heap gr :
  generate_grammar literal_eval g fragments token_namespace = Ok (h', rs_heap, gr) →
  rs_ok (rs_heap, reserved_syntax_strings gr)
  ∧ (∃ acc, foldM (build_rule g) fragments ([], [], None) = Ok acc
            ∧ build_inv g fragments acc
            ∧ acc.1.2 = nonterminal_to_dfas gr ∧ acc.2 = start_nonterminal gr
            ∧ length h' = length acc.1.1
            ∧ ∀ l, same_arcs (acc.1.1 !!! l) (h' !!! l))
  ∧ ∀ l, l ∈ concat (nonterminal_to_dfas gr).*2 →
      NoDup (arcs (h' !!! l)).*1
      ∧ nonterminal_arcs (h' !!! l)
        = dict_writes (nt_write (nonterminal_to_dfas gr)) (arcs (h' !!! l)) []
      ∧ ilabel_to_plan (h' !!! l)
        = dict_writes (plan_write literal_eval token_namespace (nonterminal_to_dfas gr)
                                  (rs_heap, reserved_syntax_strings gr))
                      (arcs (h' !!! l)) []
      ∧ Forall (resolvable literal_eval token_namespace (nonterminal_to_dfas gr)
                           (rs_heap, reserved_syntax_strings gr))
               (arcs (h' !!! l)).
Proof.
  unfold generate_grammar.
  destruct (build_rules_spec (T:=T) g fragments) as ([[h rules] start] & Hbuild & Hinv).
  rewrite Hbuild. simpl.
  intros ([h2 [rs_heap2 reserved]] & Hcompile & [= <- <- <-])%bind_Ok. simpl.
  unfold compile_transitions in Hcompile. rewrite foldM_concat in Hcompile.
  pose proof Hinv as (Hclean & Hnd & Hvalid & Hfinal & Hrules & Hstart). simpl in *.
  destruct (compile_states_spec _ _ _ _ _ _ Hcompile Hnd rs_ok_nil)
    as (Hok & _ & Hlen & _ & Hsame & Hdone). simpl in *.
  split_and!; [done| |].
  - eexists. split; [done|]. by split_and!.
  - intros l Hl. destruct (Hdone l Hl) as (Hnt & Hplan & Hres).
    destruct (Forall_lookup_total_1 _ _ l Hclean (Hvalid l Hl)) as (Hkeys & Hp0 & Hn0).
    destruct (Hsame l) as (_ & _ & _ & Harcs).
    rewrite Hp0 in Hplan. rewrite Hn0 in Hnt. rewrite Harcs. done.
Qed.
End driver.

(** ** The tables of a compiled state *)

Lemma nonterminal_view_spec (rules : list (string * list nat))
    (items : list (string * nat)) label target :
  NoDup items.*1 →
  dict_get label (dict_writes (nt_write rules) items []) = Some target
  ↔ (label, target) ∈ items ∧ dict_mem label rules = true.
Proof.
  intros Hkeys. rewrite dict_get_writes. split.
  - destruct (last_write _ _ _) as [t|] eqn:Hlw; [|done]. intros [= ->].
    apply last_write_Some in Hlw as ([label' target'] & Hin & Hw).
    unfold nt_write in Hw. simpl in Hw.
    destruct (dict_mem label' rules) eqn:Hmem; [|done]. by injection Hw as -> ->.
  - intros [Hin Hmem]. apply list_elem_of_split in Hin as (pre & suf & ->).
    rewrite (last_write_middle _ pre (label, target) suf label target); [done| |].
    + unfold nt_write. simpl. by rewrite Hmem.
    + intros [label' target'] t Hin. unfold nt_write. simpl.
      destruct (dict_mem label' rules); [|done]. intros [= -> ->].
      rewrite fmap_app, fmap_cons in Hkeys. simpl in Hkeys.
      apply NoDup_app in Hkeys as (_ & _ & [Hfresh _]%NoDup_cons).
      apply Hfresh. by apply (list_elem_of_fmap_2 fst _ (label, t)).
Qed.

Section tables.
Context {T : Type} `{EqDecision T}.
Context (literal_eval : string → option string).
Context (token_namespace : string → option T).
Context (rules : list (string * list nat)).
Context (rs : list ReservedString * list (string * nat)).
Context (items : list (string * nat)).
Context (Hres : Forall (resolvable literal_eval token_namespace rules rs) items).

Lemma plan_table_spec before label target after :
  items = before ++ (label, target) :: after → dict_mem label rules = false →
  ∃ key,
    _make_transition literal_eval token_namespace rs label = Ok (key, rs)
    ∧ key ∈ (dict_writes (plan_write literal_eval token_namespace rules rs) items []).*1
    ∧ ((∀ label' target', (label', target') ∈ after →
          dict_mem label' rules = false →
          _make_transition literal_eval token_namespace rs label' ≠ Ok (key, rs)) →
       dict_get key (dict_writes (plan_write literal_eval token_namespace rules rs) items [])
       = Some {| next_dfa := target |}).
Proof.
  intros Hitems Hmem.
  assert ((label, target) ∈ items) as Hin.
  { rewrite Hitems. apply elem_of_app. right. left. }
  rewrite Forall_forall in Hres.
  destruct (Hres _ Hin Hmem) as [key Hkey]. simpl in Hkey.
  assert (plan_write literal_eval token_namespace rules rs (label, target)
          = Some (key, {| next_dfa := target |})) as Hw.
  { unfold plan_write. simpl. by rewrite Hmem, Hkey. }
  exists key. split_and!; [done| |].
  - apply dict_writes_keys. right. by eexists _, _.
  - intros Hafter. rewrite dict_get_writes, Hitems.
    rewrite (last_write_middle _ before (label, target) after key {| next_dfa := target |});
      [done|done|].
    intros [label' target'] p Hin'. unfold plan_write. simpl.
    destruct (dict_mem label' rules) eqn:Hmem'; [done|].
    assert ((label', target') ∈ items) as Hin''.
    { rewrite Hitems. apply elem_of_app. right. by right. }
    destruct (Hres _ Hin'' Hmem') as [key' Hkey']. simpl in Hkey'.
    rewrite Hkey'. intros [= -> _]. by apply (Hafter label' target').
Qed.
End tables.

(** * The claims *)

Section claims.
Context {T : Type} `{EqDecision T} `{SetOrder}.

(** C1: the list that [_make_dfas] returns is not empty, the node set of its
    first state is the epsilon closure of [start], and no two states of the
    list have the same node set; when the scan of [link_arc] finds a state
    with the computed node set, no state is appended and no cell
    allocated. *)
Theorem make_dfas_closure_and_distinct_sets (g : list NFAState)
    (h : list (DFAState T)) (start finish : nat) :
  ∃ h' first rest,
    _make_dfas g h start finish = Ok (h', first :: rest)
    ∧ (∀ n, n ∈ nfa_set (h' !!! first) ↔ eps_closure g start n)
    ∧ (∀ i j state_i state_j,
         (first :: rest) !! i = Some state_i →
         (first :: rest) !! j = Some state_j →
         nfa_set (h' !!! state_i) = nfa_set (h' !!! state_j) → i = j)
    ∧ (∀ rule finish' state (hs hs' : list (DFAState T) * list nat) label X i l,
         list_find (λ l, nfa_set (hs.1 !!! l) = X) hs.2 = Some (i, l) →
         link_arc rule finish' state hs (label, X) = Ok hs' →
         hs'.2 = hs.2 ∧ length hs'.1 = length hs.1).
Proof.
  destruct (_make_dfas_spec g h start finish)
    as (new & Hmake & Hne & Hnd & _ & Hclosure).
  destruct new as [|s new]; [done|].
  exists (h ++ s :: new), (length h), (seq (S (length h)) (length new)).
  split_and!.
  - done.
  - intros n. rewrite <-Hclosure. by rewrite list_lookup_total_middle.
  - change (length h :: seq (S (length h)) (length new))
      with (seq (length h) (length (s :: new))).
    intros i j si sj [-> Hi]%lookup_seq [-> Hj]%lookup_seq.
    rewrite !lookup_total_app_r by lia.
    replace (length h + i - length h) with i by lia.
    replace (length h + j - length h) with j by lia.
    intros Heq. apply (NoDup_lookup _ i j (nfa_set ((s :: new) !!! i)) Hnd).
    + rewrite list_lookup_fmap.
      destruct (lookup_lt_is_Some_2 (s :: new) i Hi) as [x Hx].
      by rewrite Hx, (list_lookup_total_correct _ _ _ Hx).
    + rewrite Heq, list_lookup_fmap.
      destruct (lookup_lt_is_Some_2 (s :: new) j Hj) as [x Hx].
      by rewrite Hx, (list_lookup_total_correct _ _ _ Hx).
  - intros rule finish' state [h1 states1] hs' label X i l Hfind. simpl in Hfind.
    unfold link_arc. rewrite Hfind. simpl.
    intros (state' & _ & [= <-])%bind_Ok. simpl. by rewrite length_insert.
Qed.

(** C6: every state that [_make_dfas] returns has pairwise distinct labels
    on its arcs, and the construction returns normally: the assertion of
    [add_arc] does not fail. *)
Theorem make_dfas_labels_distinct (g : list NFAState) (h : list (DFAState T))
    (start finish : nat) :
  ∃ h' states,
    _make_dfas g h start finish = Ok (h', states)
    ∧ ∀ state, state ∈ states → NoDup (arcs (h' !!! state)).*1.
Proof.
  destruct (_make_dfas_spec g h start finish) as (new & Hmake & _ & _ & Hnew & _).
  eexists _, _. split; [exact Hmake|].
  intros state [Hge Hlt]%elem_of_seq.
  rewrite lookup_total_app_r by lia.
  by destruct (Forall_lookup_total_1 _ _ (state - length h) Hnew) as []; [lia|].
Qed.

(** C5: the closure, the powerset construction and the unifier return on
    every NFA arena, cyclic or not: each bounded loop returns a result as
    soon as its bound reaches the size of its input, and the functions that
    fix the bound themselves return on every input. *)
Theorem closure_powerset_unifier_terminate (g : list NFAState) :
  (∀ nfa_state base fuel, length g < fuel →
     ∃ r, addclosure_fuel fuel g nfa_state base = Ok r)
  ∧ (∀ nfa_state base, ∃ r, addclosure g nfa_state base = Ok r)
  ∧ (∀ (h : list (DFAState T)) start finish fuel,
       2 ^ size ({[start]} ∪ nfa_targets g) ≤ fuel →
       ∃ r, _make_dfas_fuel fuel g h start finish = Ok r)
  ∧ (∀ (h : list (DFAState T)) start finish,
       ∃ r, _make_dfas g h start finish = Ok r)
  ∧ (∀ (h : list (DFAState T)) dfas fuel log, length dfas < fuel →
       ∃ r, simplify_loop fuel h dfas log = Ok r)
  ∧ (∀ (h : list (DFAState T)) dfas, ∃ r, _simplify_dfas h dfas = Ok r).
Proof.
  split_and!.
  - intros x base fuel Hfuel.
    destruct (addclosure_fuel_spec g fuel x base) as (r & Hr & _); [|by exists r].
    assert (size (in_range g ∖ base) ≤ size (in_range g)) as Hle.
    { apply subseteq_size. set_solver. }
    rewrite size_in_range in Hle. lia.
  - intros x base. destruct (addclosure_spec g x base) as (r & Hr & _). by exists r.
  - intros h start finish fuel Hfuel.
    destruct (_make_dfas_fuel_spec g h start finish fuel Hfuel) as (new & Hr & _).
    by eexists.
  - intros h start finish.
    destruct (_make_dfas_spec g h start finish) as (new & Hr & _). by eexists.
  - intros h dfas fuel log Hfuel.
    destruct (simplify_loop_spec fuel h dfas log Hfuel) as (h' & dfas' & m & Hr & _).
    by eexists.
  - intros h dfas. destruct (_simplify_dfas_spec h dfas) as (h' & dfas' & Hr & _).
    by eexists.
Qed.

(** C8: the unifier returns a list on which a second run makes no merge and
    changes neither the list nor any state. *)
Theorem simplify_dfas_idempotent (h : list (DFAState T)) (dfas : list nat) :
  ∃ h' dfas' log,
    _simplify_dfas_log h dfas = Ok (h', dfas', log)
    ∧ _simplify_dfas_log h' dfas' = Ok (h', dfas', [])
    ∧ _simplify_dfas h' dfas' = Ok (h', dfas').
Proof.
  destruct (_simplify_dfas_log_spec h dfas)
    as (h' & dfas' & log & Hrun & _ & _ & _ & _ & Hno).
  exists h', dfas', log. split; [done|].
  pose proof (_simplify_dfas_log_fixpoint h' dfas' Hno) as Hfix.
  split; [done|]. unfold _simplify_dfas. by rewrite Hfix.
Qed.

(** C3: a state is final exactly when the finish node is in its node set,
    for the states [_make_dfas] returns and for the states that are left
    after [_simplify_dfas]; unification changes neither the flag nor the
    node set of any state, and two states that compare equal have the same
    flag.  The same holds at the end of [generate_grammar] for the states
    of every rule of the grammar, with the finish node of a fragment of
    that rule. *)
Theorem finality_is_finish_membership (g : list NFAState)
    (h : list (DFAState T)) (start finish : nat) :
  ∃ h1 dfas h2 dfas',
    _make_dfas g h start finish = Ok (h1, dfas)
    ∧ _simplify_dfas h1 dfas = Ok (h2, dfas')
    ∧ (∀ state, state ∈ dfas →
         is_final (h1 !!! state) = true ↔ finish ∈ nfa_set (h1 !!! state))
    ∧ (∀ state, state ∈ dfas' →
         state ∈ dfas
         ∧ (is_final (h2 !!! state) = true ↔ finish ∈ nfa_set (h2 !!! state)))
    ∧ (∀ state, is_final (h2 !!! state) = is_final (h1 !!! state)
                ∧ nfa_set (h2 !!! state) = nfa_set (h1 !!! state))
    ∧ (∀ s s' : DFAState T, DFAState_eq s s' = true → is_final s = is_final s')
    ∧ (∀ literal_eval (token_namespace : string → option T) fragments
         hf rs_heap gr,
         generate_grammar literal_eval g fragments token_namespace
         = Ok (hf, rs_heap, gr) →
         ∀ rule dfas, (rule, dfas) ∈ nonterminal_to_dfas gr →
           ∃ a z, (a, z) ∈ fragments ∧ rule = nfa_from_rule (g !!! a)
                  ∧ ∀ state, state ∈ dfas →
                      is_final (hf !!! state) = true
                      ↔ z ∈ nfa_set (hf !!! state)).
Proof.
  destruct (_make_dfas_spec g h start finish) as (new & Hmake & _ & _ & Hnew & _).
  destruct (_simplify_dfas_spec (h ++ new) (seq (length h) (length new)))
    as (h2 & dfas' & Hsimp & _ & Hsub & Hcell & _).
  assert (∀ state, state ∈ seq (length h) (length new) →
            is_final ((h ++ new) !!! state) = true
            ↔ finish ∈ nfa_set ((h ++ new) !!! state)) as Hfinal.
  { intros state [Hge Hlt]%elem_of_seq. rewrite lookup_total_app_r by lia.
    destruct (Forall_lookup_total_1 _ _ (state - length h) Hnew) as [_ -> _]; [lia|].
    by rewrite bool_decide_eq_true. }
  eexists _, _, _, _. split_and!; [exact Hmake|exact Hsimp|done| | | |].
  - intros state Hin. assert (state ∈ seq (length h) (length new)) as Hin'.
    { by eapply elem_of_sublist. }
    split; [done|]. destruct (Hcell state) as (_ & -> & -> & _). by apply Hfinal.
  - intros state. by destruct (Hcell state) as (_ & -> & -> & _).
  - intros s s'. unfold DFAState_eq. case_bool_decide as Hf; [done|].
    intros _. by destruct (decide (is_final s = is_final s')).
  - intros literal_eval token_namespace fragments hf rs_heap gr Hrun rule dfas Hrule.
    destruct (generate_grammar_inv _ _ _ _ _ _ _ Hrun)
      as (_ & (acc & _ & Hinv & Hrules & _ & _ & Hsame) & _).
    destruct Hinv as (_ & _ & _ & Hfin & _). rewrite <-Hrules in Hrule.
    destruct (Hfin rule dfas Hrule) as (a & z & Hin & -> & Hstates).
    exists a, z. split_and!; [done..|]. intros state Hstate.
    destruct (Hsame state) as (_ & -> & -> & _).
    by rewrite (Hstates state Hstate), bool_decide_eq_true.
Qed.
End claims.

(** C10: with no rule the driver returns normally: the start rule is
    [None], the rule table and the table of reserved strings are empty. *)
Theorem generate_grammar_no_rules {T} `{EqDecision T} `{SetOrder}
    (literal_eval : string → option string) (g : list NFAState)
    (token_namespace : string → option T) :
  generate_grammar literal_eval g [] token_namespace
  = Ok ([], [],
        {| start_nonterminal := None; nonterminal_to_dfas := [];
           reserved_syntax_strings := [] |}).
Proof. reflexivity. Qed.

Section unifier_claims.
Context {T : Type} `{EqDecision T}.

(** C2, as amended: the unifier returns, and no state of the list it returns
    equals a later one.  A pass visits the positions [i] in order; where a
    later state equals state [i], the first such state [j] is removed from
    the list and the arcs to it of every state left in the list are
    redirected to state [i], and the pass goes on at position [i + 1] of the
    shortened list.  A pass that merged is followed by another pass from the
    start of the list, a pass that merged nothing ends the procedure.  Two
    states with distinct labels are equal when they have the same finality
    and the same arcs, targets compared as references. *)
Theorem simplify_dfas_passes (h : list (DFAState T)) (dfas : list nat) :
  (∃ h' dfas' log,
     _simplify_dfas_log h dfas = Ok (h', dfas', log)
     ∧ no_equal_pair h' dfas'
     ∧ dfas' `sublist_of` dfas
     ∧ length dfas' + length log = length dfas)
  ∧ (∀ fuel i state_i changes log, dfas !! i = Some state_i →
       match find_equal h state_i dfas i with
       | Some (j, state_j) =>
           i < j ∧ dfas !! j = Some state_j
           ∧ DFAState_eq (h !!! state_i) (h !!! state_j) = true
           ∧ (∀ j' s', i < j' → j' < j → dfas !! j' = Some s' →
                DFAState_eq (h !!! state_i) (h !!! s') = false)
           ∧ simplify_pass (S fuel) i h dfas changes log
             = simplify_pass fuel (S i)
                 (unify_all state_j state_i h (delete j dfas)) (delete j dfas)
                 true (log ++ [(i, j)])
           ∧ ∀ l, unify_all state_j state_i h (delete j dfas) !!! l
                  = if decide (l ∈ delete j dfas)
                    then unifystate state_j state_i (h !!! l) else h !!! l
       | None =>
           (∀ j s', i < j → dfas !! j = Some s' →
              DFAState_eq (h !!! state_i) (h !!! s') = false)
           ∧ simplify_pass (S fuel) i h dfas changes log
             = simplify_pass fuel (S i) h dfas changes log
       end)
  ∧ (∀ old new (s : DFAState T) label,
       dict_get label (arcs (unifystate old new s))
       = (λ t, if decide (t = old) then new else t) <$> dict_get label (arcs s))
  ∧ (∀ fuel log, ∃ h1 dfas1 merges,
       simplify_pass (length dfas) 0 h dfas false log
       = Ok (h1, dfas1, bool_decide (merges ≠ []), log ++ merges)
       ∧ simplify_loop (S fuel) h dfas log
         = if bool_decide (merges ≠ [])
           then simplify_loop fuel h1 dfas1 (log ++ merges)
           else Ok (h1, dfas1, log ++ merges))
  ∧ (∀ s s' : DFAState T, NoDup (arcs s).*1 → NoDup (arcs s').*1 →
       DFAState_eq s s' = true ↔
       is_final s = is_final s'
       ∧ ∀ label, dict_get label (arcs s) = dict_get label (arcs s')).
Proof.
  split_and!.
  - destruct (_simplify_dfas_log_spec h dfas)
      as (h' & dfas' & log & Hrun & _ & Hcount & Hsub & _ & Hno).
    by exists h', dfas', log.
  - intros fuel i state_i changes log Hi.
    destruct (find_equal h state_i dfas i) as [[j state_j]|] eqn:Hfind.
    + pose proof (proj1 (find_equal_Some _ _ _ _ _ _) Hfind) as (? & ? & ? & ?).
      split_and!; try done.
      * simpl. by rewrite Hi, Hfind.
      * apply unify_all_lookup.
    + split; [by apply find_equal_None|]. simpl. by rewrite Hi, Hfind.
  - intros old new s label. unfold unifystate. simpl. apply dict_get_map_values.
  - intros fuel log.
    destruct (simplify_pass_spec (length dfas) 0 h dfas false log)
      as (h1 & dfas1 & merges & Hpass & _); [lia|].
    exists h1, dfas1, merges. simpl in Hpass. split; [done|].
    simpl. by rewrite Hpass.
  - apply DFAState_eq_spec.
Qed.
End unifier_claims.

(** C2, as stated, fails: the scan is not started again after a merge.  On
    the states of [x: 'a' 'c' | 'b' 'c' | 'd' | 'e'] the source merges the
    pair at positions (3, 4) and then, in the same pass, the pair at (4, 5);
    a scan started again after the first merge would find the pair at (3, 4)
    of the shortened list first.  Both procedures end with the same list. *)
Lemma simplify_dfas_scan_not_restarted :
  merges_of alternatives_unified
  = Some ([0; 1; 3], [(3, 4); (4, 5); (1, 2); (2, 3)])
  ∧ merges_of alternatives_restarted
    = Some ([0; 1; 3], [(3, 4); (3, 4); (3, 4); (1, 2)])
  ∧ alternatives_unified ≠ alternatives_restarted.
Proof.
  assert (merges_of alternatives_unified
          = Some ([0; 1; 3], [(3, 4); (4, 5); (1, 2); (2, 3)])) as H1.
  { vm_compute. reflexivity. }
  assert (merges_of alternatives_restarted
          = Some ([0; 1; 3], [(3, 4); (3, 4); (3, 4); (1, 2)])) as H2.
  { vm_compute. reflexivity. }
  split_and!; [done..|]. intros Heq. rewrite Heq, H2 in H1. discriminate H1.
Qed.

Section driver_claims.
Context {T : Type} `{EqDecision T} `{SetOrder}.
Context (literal_eval : string → option string).
Context (token_namespace : string → option T).

Lemma quoted_not_alpha label :
  quoted label → ∃ c rest, label = String c rest ∧ isalpha c = false.
Proof. intros (c & rest & -> & [->| ->]); by eexists _, _. Qed.

(** The key of a quoted terminal label of a compiled grammar. *)
Lemma quoted_label_key g fragments h rs_heap gr rule dfas state label target v :
  generate_grammar literal_eval g fragments token_namespace = Ok (h, rs_heap, gr) →
  (rule, dfas) ∈ nonterminal_to_dfas gr → state ∈ dfas →
  (label, target) ∈ arcs (h !!! state) →
  dict_mem label (nonterminal_to_dfas gr) = false →
  quoted label → literal_eval label = Some v →
  ∃ r, dict_get v (reserved_syntax_strings gr) = Some r
       ∧ rs_heap !! r = Some {| value := v |}
       ∧ _make_transition literal_eval token_namespace
           (rs_heap, reserved_syntax_strings gr) label
         = Ok (ReservedKey r, (rs_heap, reserved_syntax_strings gr))
       ∧ ReservedKey r ∈ (ilabel_to_plan (h !!! state)).*1.
Proof.
  intros Hrun Hrule Hstate Harc Hmem Hq Hv.
  destruct (generate_grammar_inv _ _ _ _ _ _ _ Hrun) as (Hok & _ & Hstates).
  destruct (Hstates state) as (Hnd & _ & Hplan & Hres).
  { by eapply elem_of_rule_states. }
  apply list_elem_of_split in Harc as (before & after & Harcs).
  destruct (plan_table_spec literal_eval token_namespace _ _ _ Hres
              before label target after Harcs Hmem) as (key & Hkey & Hin & _).
  destruct (quoted_not_alpha _ Hq) as (c & rest & Hlabel & Hc).
  destruct (_make_transition_quoted _ _ _ _ _ _ _ _ Hkey Hlabel Hc Hv)
    as (r & -> & Hr). simpl in Hr.
  exists r. split_and!; [done| |done|by rewrite Hplan].
  by apply (Hok v r).
Qed.

(** C4: in a compiled grammar, two quoted terminal labels with the same
    literal value, of any two states of any two rules, have one and the same
    [ReservedString] object as their key: the object that the interning
    table holds for the value.  Both states have an instruction under that
    key. *)
Theorem reserved_strings_shared g fragments h rs_heap gr :
  generate_grammar literal_eval g fragments token_namespace = Ok (h, rs_heap, gr) →
  ∀ rule1 dfas1 state1 label1 target1 rule2 dfas2 state2 label2 target2 v,
    (rule1, dfas1) ∈ nonterminal_to_dfas gr → state1 ∈ dfas1 →
    (label1, target1) ∈ arcs (h !!! state1) →
    (rule2, dfas2) ∈ nonterminal_to_dfas gr → state2 ∈ dfas2 →
    (label2, target2) ∈ arcs (h !!! state2) →
    dict_mem label1 (nonterminal_to_dfas gr) = false →
    dict_mem label2 (nonterminal_to_dfas gr) = false →
    quoted label1 → quoted label2 →
    literal_eval label1 = Some v → literal_eval label2 = Some v →
    ∃ r, dict_get v (reserved_syntax_strings gr) = Some r
         ∧ rs_heap !! r = Some {| value := v |}
         ∧ _make_transition literal_eval token_namespace
             (rs_heap, reserved_syntax_strings gr) label1
           = Ok (ReservedKey r, (rs_heap, reserved_syntax_strings gr))
         ∧ _make_transition literal_eval token_namespace
             (rs_heap, reserved_syntax_strings gr) label2
           = Ok (ReservedKey r, (rs_heap, reserved_syntax_strings gr))
         ∧ ReservedKey r ∈ (ilabel_to_plan (h !!! state1)).*1
         ∧ ReservedKey r ∈ (ilabel_to_plan (h !!! state2)).*1.
Proof.
  intros Hrun rule1 dfas1 state1 label1 target1 rule2 dfas2 state2 label2 target2 v
    Hr1 Hs1 Ha1 Hr2 Hs2 Ha2 Hm1 Hm2 Hq1 Hq2 Hv1 Hv2.
  destruct (quoted_label_key _ _ _ _ _ _ _ _ _ _ _ Hrun Hr1 Hs1 Ha1 Hm1 Hq1 Hv1)
    as (r1 & Hd1 & Hheap1 & Hk1 & Hin1).
  destruct (quoted_label_key _ _ _ _ _ _ _ _ _ _ _ Hrun Hr2 Hs2 Ha2 Hm2 Hq2 Hv2)
    as (r2 & Hd2 & Hheap2 & Hk2 & Hin2).
  assert (r2 = r1) as -> by congruence.
  by exists r1.
Qed.

Local Abbreviation state_compiled := (state_compiled literal_eval token_namespace).

(** C7, as amended: the rule table that the second pass consults has the
    name of every fragment as a key, wherever the rule stands in the
    grammar; in every state of it the pass records an arc in the nonterminal
    view exactly when its label is a key of that table, and gives every
    other arc a transition key with an entry in the table of plans, which
    wraps the target of the arc unless a later arc of the same state
    resolves to the same key and replaces it. *)
Theorem transitions_compiled g fragments h rs_heap gr :
  generate_grammar literal_eval g fragments token_namespace = Ok (h, rs_heap, gr) →
  (∀ a z, (a, z) ∈ fragments →
     dict_mem (nfa_from_rule (g !!! a)) (nonterminal_to_dfas gr) = true)
  ∧ ∀ rule dfas state,
      (rule, dfas) ∈ nonterminal_to_dfas gr → state ∈ dfas →
      state_compiled h rs_heap gr state.
Proof.
  intros Hrun.
  destruct (generate_grammar_inv _ _ _ _ _ _ _ Hrun)
    as (Hok & (acc & _ & Hinv & Hrules & _) & Hstates).
  split.
  - intros a z Hin. apply dict_mem_true. rewrite <-Hrules.
    destruct Hinv as (_ & _ & _ & _ & Hkeys & _). by eapply Hkeys.
  - intros rule dfas state Hrule Hstate.
    destruct (Hstates state) as (Hnd & Hnt & Hplan & Hres).
    { by eapply elem_of_rule_states. }
    split.
    + intros label target. rewrite Hnt. by apply nonterminal_view_spec.
    + intros before label target after Harcs Hmem. rewrite Hplan.
      by apply (plan_table_spec _ _ _ _ _ Hres before).
Qed.

Lemma startswith_triple q label :
  startswith (triple q) label = true →
  ∃ rest, label = String q (String q (String q rest)).
Proof.
  destruct label as [|c1 [|c2 [|c3 rest]]]; simpl; rewrite ?andb_false_r; try done.
  intros [<-%bool_decide_eq_true Ht]%andb_prop.
  apply andb_prop in Ht as [<-%bool_decide_eq_true Ht].
  apply andb_prop in Ht as [<-%bool_decide_eq_true _].
  by exists rest.
Qed.

Lemma triple_quoted_raises rs label :
  triple_quoted label →
  _make_transition literal_eval token_namespace rs label = Raise AssertionError.
Proof.
  intros [[rest ->]%startswith_triple|[rest ->]%startswith_triple];
    unfold _make_transition; simpl; by rewrite ?bool_decide_eq_true_2.
Qed.

Lemma unknown_name_raises rs label :
  bare_name label → token_namespace label = None →
  _make_transition literal_eval token_namespace rs label = Raise AttributeError.
Proof.
  intros (c & rest & -> & Hc) Hns. unfold _make_transition. by rewrite Hc, Hns.
Qed.

(** C9: [_make_transition] raises on a triple-quoted label and on a bare
    name that the token namespace does not have, whatever the interning
    table holds; and [generate_grammar] raises when an arc of a state of the
    rule table has such a label that is not a rule name. *)
Theorem bad_terminal_label_raises :
  (∀ rs label, triple_quoted label →
     _make_transition literal_eval token_namespace rs label = Raise AssertionError)
  ∧ (∀ rs label, bare_name label → token_namespace label = None →
       _make_transition literal_eval token_namespace rs label = Raise AttributeError)
  ∧ ∀ g fragments h rules start rule dfas state label target,
      foldM (build_rule (T:=T) g) fragments ([], [], None) = Ok (h, rules, start) →
      (rule, dfas) ∈ rules → state ∈ dfas → (label, target) ∈ arcs (h !!! state) →
      dict_mem label rules = false →
      triple_quoted label ∨ (bare_name label ∧ token_namespace label = None) →
      ∃ e, generate_grammar literal_eval g fragments token_namespace = Raise e.
Proof.
  split_and!; [apply triple_quoted_raises|apply unknown_name_raises|].
  intros g fragments h rules start rule dfas state label target
    Hbuild Hrule Hstate Harc Hmem Hbad.
  destruct (generate_grammar literal_eval g fragments token_namespace)
    as [[[h' rs_heap] gr]|e|] eqn:Hrun.
  - exfalso.
    destruct (generate_grammar_inv _ _ _ _ _ _ _ Hrun)
      as (_ & (acc & Hbuild' & _ & Hrules & _ & _ & Hsame) & Hstates).
    rewrite Hbuild in Hbuild'. injection Hbuild' as <-. simpl in *. subst rules.
    destruct (Hstates state) as (_ & _ & _ & Hres).
    { by eapply elem_of_rule_states. }
    destruct (Hsame state) as (_ & _ & _ & Harcs). rewrite Harcs in Hres.
    rewrite Forall_forall in Hres. destruct (Hres _ Harc Hmem) as [key Hkey].
    simpl in Hkey. destruct Hbad as [Ht|[Hb Hns]].
    + by rewrite triple_quoted_raises in Hkey.
    + by rewrite unknown_name_raises in Hkey.
  - by exists e.
  - exfalso. revert Hrun. unfold generate_grammar. rewrite Hbuild. simpl.
    destruct (compile_transitions _ _ _ _) as [[h2 [rs_heap2 reserved]]| |] eqn:Hc;
      simpl; [done..|].
    intros _. by eapply compile_transitions_no_timeout.
Qed.
End driver_claims.

(** * The claims on the example grammars *)

Lemma two_rules_grammar_run :
  generate_grammar plain_literal_eval nfa_two_rules [(0, 3); (4, 5)] py_tokens
  = Ok (final_heap two_rules_grammar, final_reserved two_rules_grammar,
        final_grammar two_rules_grammar).
Proof. vm_compute. reflexivity. Defined.

(** C4 on [stmt: 'if' NAME other] and [other: "if"]: the two spellings of
    the literal share the reserved string at address 0. *)
Lemma reserved_strings_shared_witness :
  ∃ r,
    dict_get "if"%string (reserved_syntax_strings (final_grammar two_rules_grammar))
    = Some r
    ∧ final_reserved two_rules_grammar !! r = Some {| value := "if" |}
    ∧ _make_transition plain_literal_eval py_tokens
        (final_reserved two_rules_grammar,
         reserved_syntax_strings (final_grammar two_rules_grammar)) "'if'"
      = Ok (ReservedKey r,
            (final_reserved two_rules_grammar,
             reserved_syntax_strings (final_grammar two_rules_grammar)))
    ∧ _make_transition plain_literal_eval py_tokens
        (final_reserved two_rules_grammar,
         reserved_syntax_strings (final_grammar two_rules_grammar))
        (quote dquote "if")
      = Ok (ReservedKey r,
            (final_reserved two_rules_grammar,
             reserved_syntax_strings (final_grammar two_rules_grammar)))
    ∧ ReservedKey r ∈ (ilabel_to_plan (final_heap two_rules_grammar !!! 0)).*1
    ∧ ReservedKey r ∈ (ilabel_to_plan (final_heap two_rules_grammar !!! 4)).*1.
Proof.
  apply (reserved_strings_shared plain_literal_eval py_tokens
           nfa_two_rules [(0, 3); (4, 5)] _ _ _ two_rules_grammar_run
           "stmt"%string [0; 1; 2; 3] 0 "'if'"%string 1
           "other"%string [4; 5] 4 (quote dquote "if") 5 "if"%string).
  - vm_compute. repeat constructor.
  - repeat constructor.
  - vm_compute. repeat constructor.
  - vm_compute. repeat constructor.
  - repeat constructor.
  - vm_compute. repeat constructor.
  - vm_compute. reflexivity.
  - vm_compute. reflexivity.
  - eexists _, _. split; [reflexivity|by right].
  - eexists _, _. split; [reflexivity|by left].
  - vm_compute. reflexivity.
  - vm_compute. reflexivity.
Defined.

(** C3 on the same grammar: the states of [stmt] are final exactly when
    they hold node 3, the finish node of the fragment of [stmt]. *)
Lemma finality_is_finish_membership_witness :
  ∃ a z, (a, z) ∈ [(0, 3); (4, 5)]
         ∧ "stmt"%string = nfa_from_rule (nfa_two_rules !!! a)
         ∧ ∀ state, state ∈ [0; 1; 2; 3] →
             is_final (final_heap two_rules_grammar !!! state) = true
             ↔ z ∈ nfa_set (final_heap two_rules_grammar !!! state).
Proof.
  destruct (finality_is_finish_membership (T:=nat) nfa_two_rules [] 0 3)
    as (h1 & dfas & h2 & dfas' & _ & _ & _ & _ & _ & _ & Hgrammar).
  apply (Hgrammar plain_literal_eval py_tokens [(0, 3); (4, 5)] _ _ _
           two_rules_grammar_run "stmt"%string [0; 1; 2; 3]).
  vm_compute. repeat constructor.
Defined.

(** C7 on the same grammar: [other] is defined after [stmt] names it, and
    the arc of state 2 labelled [other] is in the nonterminal view. *)
Lemma transitions_compiled_witness :
  (∀ a z, (a, z) ∈ [(0, 3); (4, 5)] →
     dict_mem (nfa_from_rule (nfa_two_rules !!! a))
              (nonterminal_to_dfas (final_grammar two_rules_grammar)) = true)
  ∧ state_compiled plain_literal_eval py_tokens
      (final_heap two_rules_grammar) (final_reserved two_rules_grammar)
      (final_grammar two_rules_grammar) 2.
Proof.
  destruct (transitions_compiled plain_literal_eval py_tokens
              nfa_two_rules [(0, 3); (4, 5)] _ _ _ two_rules_grammar_run)
    as [Hrules Hstates].
  split; [exact Hrules|].
  apply (Hstates "stmt"%string [0; 1; 2; 3] 2).
  - vm_compute. repeat constructor.
  - repeat constructor.
Defined.

(** C7, as stated, fails: in [item: 'a' | "a" NAME] both labels of state 0
    have the reserved string [a] as key, and the table of state 0 ends with
    the instruction of the second arc alone; no instruction wraps state 1,
    the target of the arc labelled ['a']. *)
Lemma plan_replaced_on_key_collision :
  same_literal_grammar
  = Ok (final_heap same_literal_grammar, final_reserved same_literal_grammar,
        final_grammar same_literal_grammar)
  ∧ nonterminal_to_dfas (final_grammar same_literal_grammar)
    = [("item"%string, [0; 1; 2])]
  ∧ arcs (final_heap same_literal_grammar !!! 0)
    = [("'a'"%string, 1); (quote dquote "a", 2)]
  ∧ dict_mem "'a'"%string (nonterminal_to_dfas (final_grammar same_literal_grammar))
    = false
  ∧ ilabel_to_plan (final_heap same_literal_grammar !!! 0)
    = [(ReservedKey 0, {| next_dfa := 2 |})]
  ∧ ¬ ∃ key, dict_get key (ilabel_to_plan (final_heap same_literal_grammar !!! 0))
             = Some {| next_dfa := 1 |}.
Proof.
  assert (ilabel_to_plan (final_heap same_literal_grammar !!! 0)
          = [(ReservedKey 0, {| next_dfa := 2 |})]) as Htable.
  { vm_compute. reflexivity. }
  split_and!; [vm_compute; reflexivity..|exact Htable|].
  intros [key Hkey]. rewrite Htable in Hkey. simpl in Hkey.
  by case_decide.
Qed.

Lemma unknown_token_rules_run :
  foldM (build_rule nfa_unknown_token) [(0, 1)] ([], [], None)
  = Ok (final_heap unknown_token_rules, final_rules unknown_token_rules,
        final_start unknown_token_rules).
Proof. vm_compute. reflexivity. Defined.

(** C9 on [item: FOO]: the namespace has no token [FOO], and the driver
    raises. *)
Lemma bad_terminal_label_raises_witness :
  ∃ e, generate_grammar plain_literal_eval nfa_unknown_token [(0, 1)] py_tokens
       = Raise e.
Proof.
  apply (proj2 (proj2 (bad_terminal_label_raises plain_literal_eval py_tokens))
           nfa_unknown_token [(0, 1)] _ _ _ "item"%string [0; 1] 0 "FOO"%string 1
           unknown_token_rules_run).
  - vm_compute. repeat constructor.
  - repeat constructor.
  - vm_compute. repeat constructor.
  - vm_compute. reflexivity.
  - right. split; [|vm_compute; reflexivity].
    eexists _, _. split; reflexivity.
Defined.

(** C5 on the two-node fragment whose nodes loop on each other: one state,
    final, with an arc to itself. *)
Example self_loop_fragment_compiles :
  (λ r, match r with
        | Ok (h, dfas) => Some ((λ s : DFAState nat, (is_final s, arcs s)) <$> h, dfas)
        | _ => None
        end) (_make_dfas nfa_loop [] 0 0)
  = Some ([(true, [("'a'"%string, 0)])], [0]).
Proof. vm_compute. reflexivity. Qed.

(** * The language of a fragment *)

(** ** Paths of the NFA *)

Section paths.
Context (g : list NFAState).

Lemma nfa_path_eps_closure n n' w m :
  eps_closure g n n' → nfa_path g n' w m → nfa_path g n w m.
Proof.
  intros Hreach. induction Hreach as [|a b c (nfa_arc & Ha & Hl & <-) _ IH]; [done|].
  intros Hp. eapply nfa_path_eps; eauto.
Qed.

Lemma nfa_path_nil n m : nfa_path g n [] m ↔ eps_closure g n m.
Proof.
  split.
  - intros Hp. remember [] as w eqn:Hw.
    induction Hp as [|n a w m Ha Hl Hp IH|]; [apply rtc_refl| |done].
    eapply rtc_l; [|by apply IH]. by exists a.
  - intros Hr. eapply nfa_path_eps_closure; [done|constructor].
Qed.

Lemma nfa_path_cons n label w m :
  nfa_path g n (label :: w) m ↔
  ∃ n1 nfa_arc, eps_closure g n n1 ∧ nfa_arc ∈ arcs_of g n1
                ∧ nonterminal_or_string nfa_arc = Some label
                ∧ nfa_path g (next nfa_arc) w m.
Proof.
  split.
  - intros Hp. remember (label :: w) as w0 eqn:Hw.
    induction Hp as [|n a w0 m Ha Hl Hp IH|n a l w0 m Ha Hl Hp IH]; [done| |].
    + destruct (IH Hw) as (n1 & a1 & Hr & ?). exists n1, a1. split; [|done].
      eapply rtc_l; [|done]. by exists a.
    + injection Hw as -> ->. exists n, a. split; [apply rtc_refl|done].
  - intros (n1 & a & Hr & Ha & Hl & Hp).
    eapply nfa_path_eps_closure; [done|]. by eapply nfa_path_label.
Qed.

Lemma label_step_closed X label (Y : gset nat) :
  (∀ m, m ∈ Y ↔ label_step g X label m) → eps_closed g Y.
Proof.
  intros HY n m Hn Hnm. apply HY. apply HY in Hn as (n0 & a & ? & ? & ? & Hr).
  exists n0, a. split_and!; [done..|]. eapply rtc_r; done.
Qed.

Lemma eps_closure_closed start (X : gset nat) :
  (∀ n, n ∈ X ↔ eps_closure g start n) → eps_closed g X.
Proof.
  intros HX n m Hn Hnm. apply HX. apply HX in Hn. eapply rtc_r; done.
Qed.

Lemma eps_closed_closure X n m : eps_closed g X → n ∈ X → eps_closure g n m → m ∈ X.
Proof. intros HX Hn Hr. induction Hr as [|a b c Hab _ IH]; [done|]. apply IH. by eapply HX. Qed.

Lemma eps_closed_empty : eps_closed g ∅.
Proof. intros n m Hn. set_solver. Qed.

(** On a set that unlabeled arcs do not leave, [addclosure] adds the
    epsilon closure of the node, and the result is such a set again. *)
Lemma addclosure_closed nfa_state base :
  eps_closed g base →
  ∃ r, addclosure g nfa_state base = Ok r ∧ eps_closed g r
       ∧ ∀ n, n ∈ r ↔ n ∈ base ∨ eps_closure g nfa_state n.
Proof.
  intros Hbase.
  destruct (addclosure_spec g nfa_state base) as (r & Hr & Hsub & Hx & _ & Hcl).
  assert (eps_closed g r) as Hclosed.
  { intros n m Hn Hnm. destruct (decide (n ∈ base)) as [Hb|Hb].
    - apply Hsub. by eapply Hbase.
    - by apply (Hcl n Hn Hb). }
  exists r. split_and!; [done..|]. intros n. split.
  - intros Hn. destruct (decide (n ∈ base)) as [Hb|Hb]; [by left|right].
    by apply Hcl.
  - intros [Hb|Hreach]; [by apply Hsub|]. by eapply eps_closed_closure.
Qed.
End paths.

(** ** The local dictionary of the construction *)

Section collect.
Context {T : Type} `{EqDecision T} `{SetOrder}.
Context (g : list NFAState).

Lemma collect_arc_moves done arcs nfa_arc arcs' :
  moves_partial g done arcs → collect_arc g arcs nfa_arc = Ok arcs' →
  moves_partial g (done ++ [nfa_arc]) arcs'.
Proof.
  intros Hinv. unfold collect_arc.
  destruct (nonterminal_or_string nfa_arc) as [l|] eqn:Hl.
  - set (base := default ∅ (dict_get l arcs)).
    assert (eps_closed g base
            ∧ ∀ m, m ∈ base ↔ ∃ a, a ∈ done ∧ nonterminal_or_string a = Some l
                              ∧ eps_closure g (next a) m) as [Hbase Hmem].
    { specialize (Hinv l). unfold base. destruct (dict_get l arcs) as [Y|]; simpl.
      - done.
      - split; [apply eps_closed_empty|]. intros m. split; [set_solver|].
        intros (a & Ha & Hla & _). by destruct (Hinv a Ha). }
    destruct (addclosure_closed g (next nfa_arc) base Hbase) as (r & -> & Hr & Hin).
    simpl. intros [= <-]. intros label. rewrite dict_get_set.
    destruct (decide (label = l)) as [->|Hne].
    + split; [done|]. intros m. rewrite Hin, Hmem. split.
      * intros [(a & Ha & ? & ?)|Hreach].
        -- exists a. split_and!; [|done..]. apply elem_of_app. by left.
        -- exists nfa_arc. split_and!; [|done..]. apply elem_of_app. right. left.
      * intros (a & [Ha| ->%list_elem_of_singleton]%elem_of_app & Hla & Hreach).
        -- left. by exists a.
        -- by right.
    + specialize (Hinv label). destruct (dict_get label arcs) as [Y|].
      * destruct Hinv as [HY HYm]. split; [done|]. intros m. rewrite HYm. split.
        -- intros (a & Ha & ? & ?). exists a. split_and!; [|done..].
           apply elem_of_app. by left.
        -- intros (a & [Ha| ->%list_elem_of_singleton]%elem_of_app & Hla & Hreach).
           ++ by exists a.
           ++ congruence.
      * intros a [Ha| ->%list_elem_of_singleton]%elem_of_app; [by apply Hinv|congruence].
  - intros [= <-]. intros label. specialize (Hinv label).
    destruct (dict_get label arcs) as [Y|].
    + destruct Hinv as [HY HYm]. split; [done|]. intros m. rewrite HYm. split.
      * intros (a & Ha & ? & ?). exists a. split_and!; [|done..].
        apply elem_of_app. by left.
      * intros (a & [Ha| ->%list_elem_of_singleton]%elem_of_app & Hla & Hreach).
        -- by exists a.
        -- congruence.
    + intros a [Ha| ->%list_elem_of_singleton]%elem_of_app; [by apply Hinv|congruence].
Qed.

(** The dictionary that [collect_arcs] returns for a state has, under each
    label that leaves the node set of the state, the nodes the label leads
    to. *)
Lemma collect_arcs_moves (state : DFAState T) :
  ∃ arcs, collect_arcs g state = Ok arcs ∧ sets_ok g arcs
          ∧ moves_collected g (nfa_set state) arcs.
Proof.
  destruct (collect_arcs_spec g state) as (arcs & Hrun & Hok).
  exists arcs. split_and!; [done..|].
  assert (moves_partial g (set_iter (nfa_set state) ≫= arcs_of g) arcs) as Hinv.
  { unfold collect_arcs in Hrun.
    apply (foldM_inv (λ pre arcs, moves_partial g (pre ≫= arcs_of g) arcs)
             _ _ _ _ Hrun).
    { intros label. simpl. by intros a ?%elem_of_nil. }
    intros pre n suf arcs0 arcs1 _ Hpre Hinner.
    rewrite bind_app. simpl. rewrite app_nil_r.
    apply (foldM_inv (λ pre' arcs, moves_partial g ((pre ≫= arcs_of g) ++ pre') arcs)
             _ _ _ _ Hinner).
    { by rewrite app_nil_r. }
    intros pre' a suf' arcs2 arcs3 _ Hpre' Hstep. rewrite app_assoc.
    by eapply collect_arc_moves. }
  intros label. specialize (Hinv label).
  assert (∀ a, a ∈ set_iter (nfa_set state) ≫= arcs_of g
               ↔ ∃ n, n ∈ nfa_set state ∧ a ∈ arcs_of g n) as Hdone.
  { intros a. rewrite list_elem_of_bind. split.
    - intros (n & Ha & Hn). exists n. split; [|done].
      rewrite set_iter_perm in Hn. by apply elem_of_elements in Hn.
    - intros (n & Hn & Ha). exists n. split; [done|].
      rewrite set_iter_perm. by apply elem_of_elements. }
  destruct (dict_get label arcs) as [Y|].
  - destruct Hinv as [_ HY]. intros m. rewrite HY. split.
    + intros (a & (n & Hn & Ha)%Hdone & Hl & Hreach). by exists n, a.
    + intros (n & a & Hn & Ha & Hl & Hreach). exists a. split_and!; [|done..].
      apply Hdone. by exists n.
  - intros m (n & a & Hn & Ha & Hl & Hreach). apply (Hinv a); [|done].
    apply Hdone. by exists n.
Qed.
End collect.

(** ** The arcs of the states of the construction *)

Lemma dict_get_app {K V} `{EqDecision K} (d1 d2 : list (K * V)) k :
  dict_get k (d1 ++ d2)
  = match dict_get k d1 with Some v => Some v | None => dict_get k d2 end.
Proof.
  induction d1 as [|[k' v'] d1 IH]; simpl; [done|]. by case_decide.
Qed.

Section moves.
Context {T : Type} `{EqDecision T} `{SetOrder}.
Context (g : list NFAState).
Implicit Types (h : list (DFAState T)) (states : list nat).

Lemma moves_ok_frame h states h' states' s :
  moves_ok g h states s → arcs (h' !!! s) = arcs (h !!! s) → s ∈ states →
  (∀ l, l ∈ states → nfa_set (h' !!! l) = nfa_set (h !!! l)) →
  (∀ l, l ∈ states → l ∈ states') →
  moves_ok g h' states' s.
Proof.
  intros Hok Harcs Hs Hsets Hsub label. specialize (Hok label).
  rewrite Harcs, (Hsets s Hs). destruct (dict_get label (arcs (h !!! s))) as [t|]; [|done].
  destruct Hok as (Ht & Hne & Hm). rewrite (Hsets t Ht).
  split_and!; [by apply Hsub|done..].
Qed.

(** What one round of the loop over [arcs.items()] does to the heap and to
    the list of states. *)
Lemma link_arc_post rule finish state h states label X h' states' :
  link_arc rule finish state (h, states) (label, X) = Ok (h', states') →
  state < length h → (∀ l, l ∈ states → l < length h) →
  ∃ next_,
    (label ∉ (arcs (h !!! state)).*1)
    ∧ next_ ∈ states' ∧ nfa_set (h' !!! next_) = X
    ∧ (states' = states
       ∨ states' = states ++ [length h] ∧ next_ = length h
         ∧ arcs (h' !!! length h) = [])
    ∧ length h ≤ length h'
    ∧ (∀ l, l ∈ states' → l < length h')
    ∧ (∀ l, l < length h → l ≠ state → h' !!! l = h !!! l)
    ∧ nfa_set (h' !!! state) = nfa_set (h !!! state)
    ∧ arcs (h' !!! state) = arcs (h !!! state) ++ [(label, next_)].
Proof.
  intros Hrun Hstate Hrange. unfold link_arc in Hrun.
  apply bind_Ok in Hrun as ([[h1 states1] nested] & Hfind & Hrun).
  apply bind_Ok in Hrun as (state' & Hadd & [= <- <-]).
  unfold add_arc in Hadd.
  destruct (dict_mem label (arcs (h1 !!! state))) eqn:Hmem; [done|].
  simpl in Hadd. injection Hadd as <-.
  apply dict_mem_false in Hmem.
  destruct (list_find _ states) as [[i l]|] eqn:Hl.
  - injection Hfind as <- <- <-.
    apply list_find_Some in Hl as (Hi & HX & _).
    assert (l ∈ states) as Hin by (by eapply list_elem_of_lookup_2).
    exists l. split_and!; try done.
    + rewrite heap_lookup_insert by done. case_decide; [by subst|done].
    + by left.
    + by rewrite length_insert.
    + intros l' Hl'. rewrite length_insert. by apply Hrange.
    + intros l' _ Hne. rewrite heap_lookup_insert by done. by rewrite decide_False.
    + by rewrite heap_lookup_insert, decide_True by done.
    + rewrite heap_lookup_insert, decide_True by done. simpl.
      by apply dict_set_fresh.
  - apply bind_Ok in Hfind as (s & Hnew & [= <- <- <-]).
    unfold new_DFAState in Hnew. case_decide; [done|]. injection Hnew as <-.
    rewrite heap_lookup_snoc, decide_False in Hmem by lia.
    rewrite heap_lookup_snoc, (decide_False (P := state = length h)) by lia.
    assert (state < length (h ++ [{| from_rule := rule; nfa_set := X;
              is_final := bool_decide (finish ∈ X); arcs := [];
              ilabel_to_plan := []; nonterminal_arcs := [] |}])) as Hlt.
    { rewrite length_app. simpl. lia. }
    exists (length h). split_and!; try done.
    + apply elem_of_app. right. left.
    + rewrite heap_lookup_insert by done. rewrite decide_False by lia.
      by rewrite heap_lookup_snoc, decide_True.
    + right. split_and!; [done..|]. rewrite heap_lookup_insert by done.
      rewrite decide_False by lia. by rewrite heap_lookup_snoc, decide_True.
    + rewrite length_insert, length_app. lia.
    + intros l [Hl'| ->%list_elem_of_singleton]%elem_of_app.
      * rewrite length_insert, length_app. apply Hrange in Hl'. lia.
      * rewrite length_insert, length_app. simpl. lia.
    + intros l Hl' Hne. rewrite heap_lookup_insert by done.
      rewrite decide_False by done. rewrite heap_lookup_snoc. by rewrite decide_False by lia.
    + by rewrite heap_lookup_insert, decide_True by done.
    + rewrite heap_lookup_insert, decide_True by done. simpl.
      by apply dict_set_fresh.
Qed.

Lemma link_arc_linking rule finish k state X0 pre h states label X h' states' :
  linking_inv g h states k state X0 pre → X ≠ ∅ →
  link_arc rule finish state (h, states) (label, X) = Ok (h', states') →
  linking_inv g h' states' k state X0 (pre ++ [(label, X)]).
Proof.
  intros (Hnd & Hrange & Hk & HX0 & Hlater & Hearlier & Hkeys & Harcs) HXne Hrun.
  assert (state ∈ states) as Hstate by (by eapply list_elem_of_lookup_2).
  destruct (link_arc_post _ _ _ _ _ _ _ _ _ Hrun (Hrange _ Hstate) Hrange)
    as (next_ & Hfresh & Hnext & HX & Hstates & Hlen & Hrange' & Hother & Hset & Harcs').
  assert (∀ l, l ∈ states → l ∈ states') as Hsub.
  { intros l Hl. destruct Hstates as [->|[-> _]]; [done|]. apply elem_of_app. by left. }
  assert (∀ l, l ∈ states → nfa_set (h' !!! l) = nfa_set (h !!! l)) as Hsets.
  { intros l Hl. destruct (decide (l = state)) as [->|Hne]; [done|].
    by rewrite Hother by auto. }
  assert (NoDup states') as Hnd'.
  { destruct Hstates as [->|[-> _]]; [done|].
    apply NoDup_app. split_and!; [done| |apply NoDup_singleton].
    intros l Hl ->%list_elem_of_singleton. apply Hrange in Hl. lia. }
  assert (states' !! k = Some state) as Hk'.
  { destruct Hstates as [->|[-> _]]; [done|]. by apply lookup_app_l_Some. }
  unfold linking_inv. split_and!; try done.
  - congruence.
  - intros i s Hi Hs.
    assert (s ≠ state) as Hne.
    { intros ->. assert (i = k); [|lia]. by eapply NoDup_lookup. }
    destruct Hstates as [->|(-> & _ & Hnew)].
    + rewrite Hother; [by eapply Hlater| |done].
      apply Hrange. by eapply list_elem_of_lookup_2.
    + destruct (decide (i < length states)) as [Hlt|Hge].
      * rewrite lookup_app_l in Hs by done.
        rewrite Hother; [by eapply Hlater| |done].
        apply Hrange. by eapply list_elem_of_lookup_2.
      * rewrite lookup_app_r in Hs by lia.
        apply list_lookup_singleton_Some in Hs as [_ <-]. done.
  - intros i s Hi Hs.
    assert (states !! i = Some s) as Hs0.
    { destruct Hstates as [->|[-> _]]; [done|].
      apply lookup_lt_Some in Hk. by rewrite lookup_app_l in Hs by lia. }
    assert (s ≠ state) as Hne.
    { intros ->. assert (i = k); [|lia]. by eapply NoDup_lookup. }
    assert (s ∈ states) as Hin by (by eapply list_elem_of_lookup_2).
    apply (moves_ok_frame h states); [by eapply Hearlier| |done..].
    by rewrite Hother by auto.
  - by rewrite Harcs', !fmap_app, Hkeys.
  - intros label' next' Hget. rewrite Harcs', dict_get_app in Hget.
    rewrite dict_get_app.
    destruct (dict_get label' (arcs (h !!! state))) as [t|] eqn:Hold.
    + injection Hget as <-. destruct (Harcs _ _ Hold) as (Ht & Hne & Hpre).
      rewrite Hpre, (Hsets t Ht). split_and!; [by apply Hsub|done..].
    + simpl in Hget. case_decide as Heq; [|done]. injection Hget as <-. subst label'.
      split_and!; [done|by rewrite HX|].
      assert (dict_get label pre = None) as ->.
      { apply dict_get_None. by rewrite <-Hkeys. }
      simpl. by rewrite decide_True, HX.
Qed.

(** When the loop of [_make_dfas] ends, every state of the list has its
    arcs, and each arc leads to the state with the node set the label leads
    to. *)
Lemma make_dfas_loop_moves rule finish fuel k h states h' states' :
  make_dfas_loop fuel g rule finish k h states = Ok (h', states') →
  loop_inv g h states k →
  loop_inv g h' states' (length states')
  ∧ (∀ l, l ∈ states → l ∈ states' ∧ nfa_set (h' !!! l) = nfa_set (h !!! l)).
Proof.
  revert k h states. induction fuel as [|fuel IH]; intros k h states Hrun Hinv.
  - simpl in Hrun. destruct (states !! k) as [state|] eqn:Hk; [done|].
    injection Hrun as <- <-. split; [|done].
    destruct Hinv as (Hnd & Hrange & Hlater & Hearlier).
    split_and!; [done..| |].
    + intros i s Hi Hs%lookup_lt_Some. lia.
    + intros i s Hi Hs. apply (Hearlier i); [|done].
      apply lookup_ge_None in Hk. apply lookup_lt_Some in Hs. lia.
  - simpl in Hrun. destruct (states !! k) as [state|] eqn:Hk.
    2: { injection Hrun as <- <-. split; [|done].
         destruct Hinv as (Hnd & Hrange & Hlater & Hearlier).
         split_and!; [done..| |].
         + intros i s Hi Hs%lookup_lt_Some. lia.
         + intros i s Hi Hs. apply (Hearlier i); [|done].
           apply lookup_ge_None in Hk. apply lookup_lt_Some in Hs. lia. }
    apply bind_Ok in Hrun as (items & Hcollect & Hrun).
    apply bind_Ok in Hrun as ([h1 states1] & Hlink & Hrun).
    destruct (collect_arcs_moves g (h !!! state)) as (arcs0 & Hc0 & [Hkeys Hsets] & Hmoves).
    assert (arcs0 = items) as -> by congruence.
    destruct Hinv as (Hnd & Hrange & Hlater & Hearlier).
    assert (linking_inv g h1 states1 k state (nfa_set (h !!! state)) items
            ∧ ∀ l, l ∈ states → l ∈ states1 ∧ nfa_set (h1 !!! l) = nfa_set (h !!! l))
      as [Hlinked Hkept].
    { apply (foldM_inv
        (λ pre (hs : list (DFAState T) * list nat),
           linking_inv g hs.1 hs.2 k state (nfa_set (h !!! state)) pre
           ∧ ∀ l, l ∈ states → l ∈ hs.2 ∧ nfa_set (hs.1 !!! l) = nfa_set (h !!! l))
        _ _ _ _ Hlink).
      { simpl. split; [|done]. unfold linking_inv. split_and!; try done.
        - intros i s Hi. apply Hlater. lia.
        - by rewrite (Hlater k state).
        - rewrite (Hlater k state) by done. done. }
      intros pre [label X] suf [h2 states2] [h3 states3] Hitems [Hpre Hkept] Hstep.
      assert (X ≠ ∅) as HXne.
      { rewrite Forall_forall in Hsets. apply (Hsets (label, X)).
        rewrite Hitems. apply elem_of_app. right. left. }
      simpl in *. split; [by eapply link_arc_linking|].
      destruct Hpre as (_ & Hrange2 & Hk2 & _).
      assert (state ∈ states2) as Hstate2 by (by eapply list_elem_of_lookup_2).
      destruct (link_arc_post _ _ _ _ _ _ _ _ _ Hstep (Hrange2 _ Hstate2) Hrange2)
        as (next_ & _ & _ & _ & Hstates & _ & _ & Hother & Hset & _).
      intros l Hl. destruct (Hkept l Hl) as [Hl2 Hset2]. split.
      - destruct Hstates as [->|[-> _]]; [done|]. apply elem_of_app. by left.
      - rewrite <-Hset2. destruct (decide (l = state)) as [->|Hne]; [done|].
        by rewrite Hother by auto. }
    destruct Hlinked as (Hnd1 & Hrange1 & Hk1 & HX1 & Hlater1 & Hearlier1 & Hkeys1 & Harcs1).
    destruct (IH (S k) h1 states1 Hrun) as [Hfinal Hkept'].
    { unfold loop_inv. split_and!; [done..| |].
      - intros i s Hi. apply Hlater1. lia.
      - intros i s Hi Hs. destruct (decide (i = k)) as [->|Hne].
        2: { apply (Hearlier1 i); [lia|done]. }
        assert (s = state) as -> by congruence.
        intros label. rewrite HX1.
        destruct (dict_get label (arcs (h1 !!! state))) as [t|] eqn:Hget.
        + destruct (Harcs1 _ _ Hget) as (Ht & Hne & Hitem). split_and!; [done..|].
          specialize (Hmoves label). by rewrite Hitem in Hmoves.
        + specialize (Hmoves label).
          assert (dict_get label items = None) as Hnone.
          { apply dict_get_None. rewrite <-Hkeys1. by apply dict_get_None. }
          by rewrite Hnone in Hmoves. }
    split; [done|]. intros l Hl. destruct (Hkept l Hl) as [Hl1 Hset1].
    destruct (Hkept' l Hl1) as [Hl2 Hset2]. split; [done|congruence].
Qed.
End moves.

(** ** The words of the DFA of a fragment *)

Section language.
Context {T : Type} `{EqDecision T} `{SetOrder}.
Context (g : list NFAState).
Implicit Types (h : list (DFAState T)) (states : list nat).

(** [_make_dfas] with the arcs of the states it returns. *)
Lemma _make_dfas_moves (h0 : list (DFAState T)) (start finish : nat) :
  ∃ new,
    _make_dfas g h0 start finish = Ok (h0 ++ new, seq (length h0) (length new))
    ∧ new ≠ []
    ∧ NoDup (nfa_set <$> new)
    ∧ Forall (cell_ok (nfa_from_rule (g !!! start)) finish
                      ({[start]} ∪ nfa_targets g)) new
    ∧ (∀ n, n ∈ nfa_set (new !!! 0) ↔ eps_closure g start n)
    ∧ ∀ state, state ∈ seq (length h0) (length new) →
        moves_ok g (h0 ++ new) (seq (length h0) (length new)) state.
Proof.
  destruct (_make_dfas_spec g h0 start finish) as (new & Hmake & Hne & Hnd & Hnew & Hcl).
  exists new. split_and!; [done..|].
  pose proof Hmake as Hrun. unfold _make_dfas, _make_dfas_fuel in Hrun.
  apply bind_Ok in Hrun as (base & _ & Hrun).
  apply bind_Ok in Hrun as (s & Hs & Hrun).
  unfold new_DFAState in Hs. case_decide; [done|]. injection Hs as <-.
  apply make_dfas_loop_moves in Hrun as [(_ & _ & _ & Hall) _].
  - intros state Hstate. apply list_elem_of_lookup in Hstate as [i Hi].
    apply (Hall i); [|done]. by eapply lookup_lt_Some.
  - unfold loop_inv. split_and!.
    + apply NoDup_singleton.
    + intros l ->%list_elem_of_singleton. rewrite length_app. simpl. lia.
    + intros i state _ Hi. apply list_lookup_singleton_Some in Hi as [_ <-].
      by rewrite heap_lookup_snoc, decide_True.
    + intros i state Hi. lia.
Qed.

Lemma dfa_walk_moves h states :
  (∀ s, s ∈ states → moves_ok g h states s) →
  ∀ w s, s ∈ states → eps_closed g (nfa_set (h !!! s)) →
    match dfa_walk h s w with
    | Some t =>
        t ∈ states
        ∧ ∀ m, m ∈ nfa_set (h !!! t)
               ↔ ∃ n, n ∈ nfa_set (h !!! s) ∧ nfa_path g n w m
    | None => ∀ n m, n ∈ nfa_set (h !!! s) → ¬ nfa_path g n w m
    end.
Proof.
  intros Hmoves. induction w as [|label w IH]; intros s Hs Hclosed; simpl.
  - split; [done|]. intros m. split.
    + intros Hm. exists m. split; [done|constructor].
    + intros (n & Hn & Hp%nfa_path_nil). by eapply eps_closed_closure.
  - pose proof (Hmoves s Hs label) as Hstep.
    destruct (dict_get label (arcs (h !!! s))) as [t|].
    + destruct Hstep as (Ht & _ & Hset).
      specialize (IH t Ht (label_step_closed g _ _ _ Hset)).
      destruct (dfa_walk h t w) as [u|].
      * destruct IH as [Hu Hum]. split; [done|]. intros m. rewrite Hum. split.
        -- intros (x & (n & a & Hn & Ha & Hl & Hreach)%Hset & Hp).
           exists n. split; [done|]. eapply nfa_path_label; [done..|].
           by eapply nfa_path_eps_closure.
        -- intros (n & Hn & (n1 & a & Hreach & Ha & Hl & Hp)%nfa_path_cons).
           exists (next a). split; [|done]. apply Hset.
           exists n1, a. split_and!; [|done|done|apply rtc_refl].
           by eapply eps_closed_closure.
      * intros n m Hn (n1 & a & Hreach & Ha & Hl & Hp)%nfa_path_cons.
        apply (IH (next a) m); [|done]. apply Hset.
        exists n1, a. split_and!; [|done|done|apply rtc_refl].
        by eapply eps_closed_closure.
    + intros n m Hn (n1 & a & Hreach & Ha & Hl & Hp)%nfa_path_cons.
      apply (Hstep (next a)). exists n1, a. split_and!; [|done|done|apply rtc_refl].
      by eapply eps_closed_closure.
Qed.

(** The first state that [_make_dfas] returns accepts the words of the
    fragment. *)
Lemma _make_dfas_accepts (h0 : list (DFAState T)) (start finish : nat) new w :
  _make_dfas g h0 start finish = Ok (h0 ++ new, seq (length h0) (length new)) →
  dfa_accepts (h0 ++ new) (length h0) w = true ↔ nfa_path g start w finish.
Proof.
  intros Hrun.
  destruct (_make_dfas_moves h0 start finish)
    as (new' & Hrun' & Hne & _ & Hcells & Hfirst & Hmoves).
  assert (new' = new) as ->.
  { rewrite Hrun in Hrun'. injection Hrun' as Heq. by apply app_inv_head in Heq. }
  assert (0 < length new) as Hlen by (destruct new; [done|simpl; lia]).
  assert (length h0 ∈ seq (length h0) (length new)) as Hin.
  { apply elem_of_seq. lia. }
  assert ((h0 ++ new) !!! length h0 = new !!! 0) as Hcell.
  { rewrite lookup_total_app_r by lia. by rewrite Nat.sub_diag. }
  pose proof (dfa_walk_moves _ _ Hmoves w (length h0) Hin) as Hwalk.
  rewrite Hcell in Hwalk. specialize (Hwalk (eps_closure_closed g _ _ Hfirst)).
  unfold dfa_accepts. destruct (dfa_walk (h0 ++ new) (length h0) w) as [t|].
  - destruct Hwalk as [[Hge Hlt]%elem_of_seq Hset].
    rewrite lookup_total_app_r in Hset |- * by lia.
    destruct (Forall_lookup_total_1 _ _ (t - length h0) Hcells) as [_ -> _]; [lia|].
    rewrite bool_decide_eq_true, Hset. split.
    + intros (n & Hn%Hfirst & Hp). by eapply nfa_path_eps_closure.
    + intros Hp. exists start. split; [|done]. apply Hfirst, rtc_refl.
  - split; [done|]. intros Hp. destruct (Hwalk start finish); [|done].
    apply Hfirst, rtc_refl.
Qed.
End language.

(** * What unification keeps *)

Lemma elem_of_delete_NoDup {A} (l : list A) (j : nat) (x y : A) :
  NoDup l → l !! j = Some x → y ∈ delete j l ↔ y ∈ l ∧ y ≠ x.
Proof.
  intros Hnd Hj. rewrite delete_take_drop.
  pose proof (take_drop_middle l j x Hj) as Hl.
  revert Hl. generalize (take j l) (drop (S j) l). intros l1 l2 <-.
  apply NoDup_app in Hnd as (_ & Hx & [Hx' _]%NoDup_cons).
  rewrite !elem_of_app, elem_of_cons. split.
  - intros [Hy|Hy]; (split; [by auto|]); intros ->.
    + by apply (Hx x); [|left].
    + done.
  - intros [[Hy|[->|Hy]] Hne]; auto. done.
Qed.

Lemma head_delete {A} (l : list A) (j : nat) : 0 < j → head (delete j l) = head l.
Proof. destruct l, j; simpl; try done. lia. Qed.

Section quotient.
Context {T : Type} `{EqDecision T}.
Implicit Types (h : list (DFAState T)) (dfas : list nat).

Lemma dfa_walk_in h dfas w s t :
  arcs_closed h dfas → s ∈ dfas → dfa_walk h s w = Some t → t ∈ dfas.
Proof.
  intros Hclosed. revert s. induction w as [|label w IH]; intros s Hs; simpl.
  - by intros [= <-].
  - destruct (dict_get label (arcs (h !!! s))) as [u|] eqn:Hget; [|done].
    apply IH. eapply Hclosed; [done|]. by apply dict_get_Some_elem.
Qed.

(** A walk sees only the arcs of the states it goes through. *)
Lemma dfa_walk_frame h h' dfas w s :
  arcs_closed h dfas → (∀ l, l ∈ dfas → arcs (h' !!! l) = arcs (h !!! l)) →
  s ∈ dfas → dfa_walk h' s w = dfa_walk h s w.
Proof.
  intros Hclosed Hsame. revert s. induction w as [|label w IH]; intros s Hs; simpl; [done|].
  rewrite (Hsame s Hs).
  destruct (dict_get label (arcs (h !!! s))) as [u|] eqn:Hget; [|done].
  apply IH. eapply Hclosed; [done|]. by apply dict_get_Some_elem.
Qed.

Lemma dfa_accepts_frame h h' dfas w s :
  arcs_closed h dfas →
  (∀ l, l ∈ dfas → arcs (h' !!! l) = arcs (h !!! l)
                   ∧ is_final (h' !!! l) = is_final (h !!! l)) →
  s ∈ dfas → dfa_accepts h' s w = dfa_accepts h s w.
Proof.
  intros Hclosed Hsame Hs. unfold dfa_accepts.
  rewrite (dfa_walk_frame h h' dfas) by (done || by intros l ?; apply Hsame).
  destruct (dfa_walk h s w) as [t|] eqn:Hwalk; [|done].
  apply Hsame. by eapply dfa_walk_in.
Qed.

Lemma arcs_closed_frame h h' dfas :
  arcs_closed h dfas → (∀ l, l ∈ dfas → arcs (h' !!! l) = arcs (h !!! l)) →
  arcs_closed h' dfas.
Proof. intros Hclosed Hsame s label t Hs. rewrite (Hsame s Hs). by apply Hclosed. Qed.

Lemma dfas_wf_frame h h' dfas :
  dfas_wf h dfas → (∀ l, l ∈ dfas → arcs (h' !!! l) = arcs (h !!! l)) →
  dfas_wf h' dfas.
Proof.
  intros (Hnd & Hkeys & Hclosed) Hsame. split_and!; [done| |by eapply arcs_closed_frame].
  intros s Hs. rewrite (Hsame s Hs). by apply Hkeys.
Qed.

Lemma dfa_quotient_id h dfas : dfa_quotient h dfas h dfas id.
Proof.
  unfold dfa_quotient. split_and!; try done.
  intros s w _. simpl. by destruct (dfa_walk h s w).
Qed.

Lemma dfa_quotient_compose h dfas h1 dfas1 h2 dfas2 rho1 rho2 :
  dfa_quotient h dfas h1 dfas1 rho1 → dfa_quotient h1 dfas1 h2 dfas2 rho2 →
  dfa_quotient h dfas h2 dfas2 (rho2 ∘ rho1).
Proof.
  intros (Hin1 & Hid1 & Hfin1 & Hwalk1) (Hin2 & Hid2 & Hfin2 & Hwalk2).
  split_and!; simpl.
  - intros s Hs. by apply Hin2, Hin1.
  - intros s Hs. destruct (Hid2 s Hs) as [Hs1 Hr2]. destruct (Hid1 s Hs1) as [Hs0 Hr1].
    split; [done|]. by rewrite Hr1.
  - intros s Hs. rewrite Hfin2 by auto. by apply Hfin1.
  - intros s w Hs. rewrite Hwalk2 by auto. rewrite Hwalk1 by done.
    by destruct (dfa_walk h s w).
Qed.

(** The image of a state accepts the words the state accepted. *)
Lemma dfa_quotient_accepts h dfas h' dfas' rho s w :
  dfa_quotient h dfas h' dfas' rho → arcs_closed h dfas → s ∈ dfas →
  dfa_accepts h' (rho s) w = dfa_accepts h s w.
Proof.
  intros (Hin & Hid & Hfin & Hwalk) Hclosed Hs. unfold dfa_accepts.
  rewrite Hwalk by done. destruct (dfa_walk h s w) as [t|] eqn:Ht; [|done].
  simpl. apply Hfin. by eapply dfa_walk_in.
Qed.

(** One merge: state [state_j] leaves the list, the arcs to it go to
    [state_i], and every state keeps its words. *)
Lemma merge_quotient h dfas i j state_i state_j :
  dfas_wf h dfas → dfas !! i = Some state_i → dfas !! j = Some state_j → i < j →
  DFAState_eq (h !!! state_i) (h !!! state_j) = true →
  dfas_wf (unify_all state_j state_i h (delete j dfas)) (delete j dfas)
  ∧ dfa_quotient h dfas (unify_all state_j state_i h (delete j dfas)) (delete j dfas)
      (λ s, if decide (s = state_j) then state_i else s).
Proof.
  intros (Hnd & Hkeys & Hclosed) Hi Hj Hij Heq.
  set (dfas' := delete j dfas). set (h' := unify_all state_j state_i h dfas').
  set (rho := λ s, if decide (s = state_j) then state_i else s).
  assert (state_i ∈ dfas) as Hsi by (by eapply list_elem_of_lookup_2).
  assert (state_j ∈ dfas) as Hsj by (by eapply list_elem_of_lookup_2).
  assert (state_i ≠ state_j) as Hne.
  { intros ->. assert (i = j); [|lia]. by eapply NoDup_lookup. }
  assert (∀ s, s ∈ dfas' ↔ s ∈ dfas ∧ s ≠ state_j) as Hdfas'.
  { intros s. unfold dfas'. by apply elem_of_delete_NoDup. }
  assert (∀ s, s ∈ dfas → rho s ∈ dfas') as Hrho.
  { intros s Hs. apply Hdfas'. unfold rho. case_decide; split; done. }
  assert (∀ s, s ∈ dfas' → h' !!! s = unifystate state_j state_i (h !!! s)) as Hcell.
  { intros s Hs. unfold h'. rewrite unify_all_lookup. by rewrite decide_True. }
  apply DFAState_eq_spec in Heq as [Hfinal Harcs]; [|by apply Hkeys..].
  assert (∀ s label, s ∈ dfas →
            dict_get label (arcs (h' !!! rho s))
            = rho <$> dict_get label (arcs (h !!! s))) as Hget.
  { intros s label Hs. rewrite (Hcell _ (Hrho s Hs)). unfold unifystate. simpl.
    rewrite dict_get_map_values. unfold rho at 1.
    destruct (decide (s = state_j)) as [->|]; [|reflexivity].
    rewrite Harcs. reflexivity. }
  split.
  - split_and!.
    + eapply sublist_NoDup; [exact Hnd|apply sublist_delete].
    + intros s Hs. destruct (same_cell_unify_all state_j state_i h dfas' s)
        as (_ & _ & _ & Hk & _). unfold h'. rewrite Hk. apply Hkeys. by apply Hdfas'.
    + intros s label t Hs Hin. rewrite (Hcell s Hs) in Hin.
      unfold unifystate in Hin. simpl in Hin.
      apply list_elem_of_fmap in Hin as ([label' t'] & [= -> ->] & Hin).
      apply (Hrho t'). eapply Hclosed; [|done]. by apply Hdfas'.
  - split_and!.
    + done.
    + intros s Hs. apply Hdfas' in Hs as [Hs Hsne]. split; [done|].
      unfold rho. by rewrite decide_False.
    + intros s Hs.
      destruct (same_cell_unify_all state_j state_i h dfas' (rho s)) as (_ & _ & Hf & _).
      unfold h'. rewrite Hf. unfold rho. case_decide; [by subst|done].
    + intros s w. revert s. induction w as [|label w IH]; intros s Hs; simpl; [done|].
      rewrite Hget by done.
      destruct (dict_get label (arcs (h !!! s))) as [t|] eqn:Ht; simpl; [|done].
      apply IH. eapply Hclosed; [done|]. by apply dict_get_Some_elem.
Qed.

(** One pass of the unifier. *)
Lemma simplify_pass_quotient fuel i h dfas changes log h' dfas' changes' log' :
  simplify_pass fuel i h dfas changes log = Ok (h', dfas', changes', log') →
  dfas_wf h dfas →
  dfas_wf h' dfas' ∧ (∃ rho, dfa_quotient h dfas h' dfas' rho)
  ∧ head dfas' = head dfas ∧ (∀ l, l ∉ dfas → h' !!! l = h !!! l).
Proof.
  revert i h dfas changes log.
  induction fuel as [|fuel IH]; intros i h dfas changes log Hrun Hwf; simpl in Hrun.
  - destruct (dfas !! i); [done|]. injection Hrun as <- <- <- <-.
    split_and!; [done| |done..]. exists id. apply dfa_quotient_id.
  - destruct (dfas !! i) as [state_i|] eqn:Hi.
    2: { injection Hrun as <- <- <- <-.
         split_and!; [done| |done..]. exists id. apply dfa_quotient_id. }
    destruct (find_equal h state_i dfas i) as [[j state_j]|] eqn:Hfind.
    + apply find_equal_Some in Hfind as (Hij & Hj & Heq & _).
      destruct (merge_quotient h dfas i j state_i state_j Hwf Hi Hj Hij Heq)
        as [Hwf1 Hq1].
      destruct (IH _ _ _ _ _ Hrun Hwf1) as (Hwf2 & [rho2 Hq2] & Hhead & Hout).
      split_and!; [done| | |].
      * eexists. by eapply dfa_quotient_compose.
      * rewrite Hhead. apply head_delete. lia.
      * intros l Hl. rewrite Hout.
        -- rewrite unify_all_lookup. rewrite decide_False; [done|].
           intros Hin. apply Hl. eapply elem_of_sublist; [done|apply sublist_delete].
        -- intros Hin. apply Hl. eapply elem_of_sublist; [done|apply sublist_delete].
    + by eapply IH.
Qed.

Lemma simplify_loop_quotient fuel h dfas log h' dfas' log' :
  simplify_loop fuel h dfas log = Ok (h', dfas', log') →
  dfas_wf h dfas →
  dfas_wf h' dfas' ∧ (∃ rho, dfa_quotient h dfas h' dfas' rho)
  ∧ head dfas' = head dfas ∧ (∀ l, l ∉ dfas → h' !!! l = h !!! l).
Proof.
  revert h dfas log. induction fuel as [|fuel IH]; intros h dfas log Hrun Hwf; [done|].
  simpl in Hrun. apply bind_Ok in Hrun as ([[[h1 dfas1] changes] log1] & Hpass & Hrun).
  destruct (simplify_pass_quotient _ _ _ _ _ _ _ _ _ _ Hpass Hwf)
    as (Hwf1 & [rho1 Hq1] & Hhead1 & Hout1).
  destruct changes.
  - destruct (IH _ _ _ Hrun Hwf1) as (Hwf2 & [rho2 Hq2] & Hhead2 & Hout2).
    split_and!; [done| | |].
    + eexists. by eapply dfa_quotient_compose.
    + congruence.
    + intros l Hl. rewrite Hout2, Hout1; [done..|].
      intros Hin. apply Hl. by apply Hq1.
  - injection Hrun as <- <- <-. split_and!; [done| |done..]. by exists rho1.
Qed.

(** The unifier leaves a quotient of the DFA it is given: every state of
    the list has a state left in the list that takes its place, arcs and
    finality are kept along the way, the first state stays first, and no
    cell outside the list is written. *)
Lemma _simplify_dfas_quotient h dfas h' dfas' :
  _simplify_dfas h dfas = Ok (h', dfas') → dfas_wf h dfas →
  dfas_wf h' dfas' ∧ (∃ rho, dfa_quotient h dfas h' dfas' rho)
  ∧ head dfas' = head dfas ∧ (∀ l, l ∉ dfas → h' !!! l = h !!! l).
Proof.
  unfold _simplify_dfas, _simplify_dfas_log.
  intros ([[h1 dfas1] log] & Hloop & [= <- <-])%bind_Ok.
  by eapply simplify_loop_quotient.
Qed.
End quotient.

(** * The rules of a compiled grammar *)

Lemma dict_set_elem_ne {K V} `{EqDecision K} (d : list (K * V)) k v x :
  NoDup d.*1 → x ∈ dict_set k v d → x = (k, v) ∨ x ∈ d ∧ x.1 ≠ k.
Proof.
  induction d as [|[k' v'] d IH]; simpl.
  - intros _ ->%list_elem_of_singleton. by left.
  - intros [Hk' Hnd]%NoDup_cons. case_decide as Hk.
    + subst k'. intros [->|Hx]%elem_of_cons; [by left|right].
      split; [by right|]. intros <-. apply Hk'.
      by apply (list_elem_of_fmap_2 fst _ x).
    + intros [->|Hx]%elem_of_cons.
      * right. split; [left|]. simpl. congruence.
      * destruct (IH Hnd Hx) as [->|[Hin Hne]]; [by left|right].
        split; [by right|done].
Qed.

Lemma arcs_of_label (g : list NFAState) n nfa_arc label :
  nfa_arc ∈ arcs_of g n → nonterminal_or_string nfa_arc = Some label →
  nfa_label g label.
Proof.
  intros Ha Hl. exists nfa_arc. split; [|done].
  apply list_elem_of_bind. exists (g !!! n). split; [done|].
  apply list_elem_of_lookup_total_2. by eapply arcs_of_in_range.
Qed.

Section rules.
Context {T : Type} `{EqDecision T} `{SetOrder}.
Context (g : list NFAState).

(** The list that [_make_dfas] returns is closed under its arcs, and the
    labels of the arcs are labels of the NFA graph. *)
Lemma _make_dfas_wf (h0 : list (DFAState T)) (start finish : nat) new :
  _make_dfas g h0 start finish = Ok (h0 ++ new, seq (length h0) (length new)) →
  dfas_wf (h0 ++ new) (seq (length h0) (length new))
  ∧ ∀ state label, state ∈ seq (length h0) (length new) →
      label ∈ (arcs ((h0 ++ new) !!! state)).*1 → nfa_label g label.
Proof.
  intros Hrun.
  destruct (_make_dfas_moves g h0 start finish)
    as (new' & Hrun' & Hne & _ & Hcells & Hfirst & Hmoves).
  assert (new' = new) as ->.
  { rewrite Hrun in Hrun'. injection Hrun' as Heq. by apply app_inv_head in Heq. }
  assert (∀ state, state ∈ seq (length h0) (length new) →
            NoDup (arcs ((h0 ++ new) !!! state)).*1) as Hkeys.
  { intros state [Hge Hlt]%elem_of_seq. rewrite lookup_total_app_r by lia.
    by destruct (Forall_lookup_total_1 _ _ (state - length h0) Hcells) as []; [lia|]. }
  split; [split_and!|].
  - apply NoDup_seq.
  - done.
  - intros state label t Hstate Hin.
    pose proof (Hmoves state Hstate label) as Hstep.
    rewrite (dict_get_elem _ _ _ (Hkeys state Hstate) Hin) in Hstep. apply Hstep.
  - intros state label Hstate Hin.
    apply dict_get_is_Some in Hin as [t Ht].
    pose proof (Hmoves state Hstate label) as Hstep. rewrite Ht in Hstep.
    destruct Hstep as (_ & Hne' & Hset).
    apply set_choose_L in Hne' as [m Hm].
    apply Hset in Hm as (n & a & _ & Ha & Hl & _). by eapply arcs_of_label.
Qed.

Lemma build_rule_rules done
    (acc acc' : list (DFAState T) * list (string * list nat) * option string) a z :
  build_inv g done acc → rules_inv g done acc.1.1 acc.1.2 →
  build_rule g acc (a, z) = Ok acc' →
  rules_inv g (done ++ [(a, z)]) acc'.1.1 acc'.1.2.
Proof.
  destruct acc as [[h rules] start].
  intros (_ & _ & Hvalid & _) [Hnd Hrules] Hrun. simpl in *.
  destruct (_make_dfas_spec g h a z) as (new & Hmake & Hne & _).
  unfold build_rule in Hrun. rewrite Hmake in Hrun. simpl in Hrun.
  apply bind_Ok in Hrun as ([h2 dfas'] & Hsimp & [= <-]). simpl.
  destruct (_make_dfas_wf h a z new Hmake) as [Hwf1 Hlabels1].
  destruct (_simplify_dfas_quotient _ _ _ _ Hsimp Hwf1)
    as (Hwf2 & [rho Hq] & Hhead & Hout).
  destruct (_simplify_dfas_spec (h ++ new) (seq (length h) (length new)))
    as (h2' & dfas2' & Hsimp' & _ & _ & Hcell & _).
  assert (h2' = h2 ∧ dfas2' = dfas') as [-> ->] by (split; congruence).
  split; [by apply dict_set_NoDup|].
  intros rule dfas [[= -> ->]|[Hin Hrule]]%dict_set_elem_ne; [| |done].
  - split_and!; [done| |].
    + intros state label Hstate Hlabel.
      destruct (Hcell state) as (_ & _ & _ & Hkeys & _). rewrite Hkeys in Hlabel.
      apply (Hlabels1 state label); [|done]. by apply Hq.
    + destruct new as [|s new]; [done|]. simpl in Hhead.
      destruct dfas' as [|first rest]; [done|]. injection Hhead as ->.
      exists (length h), rest, a, z, done, []. split_and!; [done..| |].
      { by intros f ?%elem_of_nil. }
      intros w. rewrite <-(_make_dfas_accepts g h a z (s :: new) w Hmake).
      assert (length h ∈ length h :: rest) as Hfirst by left.
      destruct Hq as (Hq1 & Hq2 & Hq3 & Hq4).
      destruct (Hq2 _ Hfirst) as [Hin Hrho].
      rewrite <-Hrho at 1.
      rewrite (dfa_quotient_accepts (h ++ s :: new) (seq (length h) (length (s :: new)))
                 h2 (length h :: rest) rho); [done| |apply Hwf1|done].
      by split_and!.
  - simpl in Hrule.
    destruct (Hrules rule dfas Hin)
      as (Hwf & Hlabels & first & rest & a' & z' & before & after
            & -> & -> & Hname & Hafter & Hwords).
    assert (∀ l, l ∈ first :: rest → h2 !!! l = h !!! l) as Hsame.
    { intros l Hl. assert (l < length h) as Hlt.
      { apply Hvalid. by eapply elem_of_rule_states. }
      rewrite Hout; [by rewrite lookup_total_app_l|].
      intros [Hge _]%elem_of_seq. lia. }
    split_and!.
    + eapply dfas_wf_frame; [done|]. intros l Hl. by rewrite Hsame.
    + intros state label Hstate. rewrite Hsame by done. by apply Hlabels.
    + exists first, rest, a', z', before, (after ++ [(a, z)]). split_and!; [done| |done| |].
      * by rewrite <-app_assoc.
      * intros f [Hf| ->%list_elem_of_singleton]%elem_of_app; [by apply Hafter|].
        simpl. congruence.
      * intros w. rewrite <-Hwords.
        rewrite (dfa_accepts_frame h h2 (first :: rest)); [done|apply Hwf| |left].
        intros l Hl. by rewrite Hsame.
Qed.

(** The rule table at the end of the first loop of the driver. *)
Lemma build_rules_rules fragments
    (acc : list (DFAState T) * list (string * list nat) * option string) :
  foldM (build_rule g) fragments ([], [], None) = Ok acc →
  build_inv g fragments acc ∧ rules_inv g fragments acc.1.1 acc.1.2.
Proof.
  intros Hrun.
  apply (foldM_inv
    (λ done (acc : list (DFAState T) * list (string * list nat) * option string),
       build_inv g done acc ∧ rules_inv g done acc.1.1 acc.1.2) _ _ _ _ Hrun).
  - destruct (build_rules_spec (T:=T) g []) as (acc0 & Hrun0 & Hinv0).
    injection Hrun0 as <-. split; [done|]. split; [apply NoDup_nil_2|].
    by intros rule dfas ?%elem_of_nil.
  - intros pre [a z] suf acc1 acc2 _ [Hb Hr] Hstep. split.
    + destruct (build_rule_spec g pre acc1 a z Hb) as (acc2' & Hstep' & Hb').
      congruence.
    + by eapply build_rule_rules.
Qed.
End rules.

Section compiled.
Context {T : Type} `{EqDecision T} `{SetOrder}.
Context (literal_eval : string → option string).
Context (g : list NFAState) (token_namespace : string → option T).

(** The rules of a compiled grammar: the second pass of the driver writes
    neither arcs nor finality. *)
Lemma generate_grammar_rules fragments h rs_heap gr :
  generate_grammar literal_eval g fragments token_namespace = Ok (h, rs_heap, gr) →
  rules_inv g fragments h (nonterminal_to_dfas gr).
Proof.
  intros Hrun.
  destruct (generate_grammar_inv _ _ _ _ _ _ _ Hrun)
    as (_ & (acc & Hbuild & _ & Hrules & _ & _ & Hsame) & _).
  destruct (build_rules_rules g fragments acc Hbuild) as [_ [Hnd Hinv]].
  rewrite Hrules in Hnd, Hinv. split; [done|].
  intros rule dfas Hin.
  destruct (Hinv rule dfas Hin)
    as (Hwf & Hlabels & first & rest & a & z & before & after
          & -> & -> & Hname & Hafter & Hwords).
  assert (∀ l, arcs (h !!! l) = arcs (acc.1.1 !!! l)
               ∧ is_final (h !!! l) = is_final (acc.1.1 !!! l)) as Heq.
  { intros l. by destruct (Hsame l) as (_ & _ & -> & ->). }
  split_and!.
  - eapply dfas_wf_frame; [done|]. intros l _. apply Heq.
  - intros state label Hstate. rewrite (proj1 (Heq state)). by apply Hlabels.
  - exists first, rest, a, z, before, after. split_and!; [done..|].
    intros w. rewrite <-Hwords.
    rewrite (dfa_accepts_frame acc.1.1 h (first :: rest)); [done|apply Hwf| |left].
    intros l _. apply Heq.
Qed.
End compiled.

(** * The states a word leads to *)

Section reach.
Context {T : Type} `{EqDecision T} `{SetOrder}.
Context (g : list NFAState).
Implicit Types (h : list (DFAState T)) (states : list nat).

Lemma dfa_walk_app h s w1 w2 :
  dfa_walk h s (w1 ++ w2) = dfa_walk h s w1 ≫= λ t, dfa_walk h t w2.
Proof.
  revert s. induction w1 as [|label w1 IH]; intros s; simpl; [done|].
  by destruct (dict_get label (arcs (h !!! s))).
Qed.

(** A walk stays what it is when arcs are added. *)
Lemma dfa_walk_mono h h' w s t :
  (∀ l label next_, dict_get label (arcs (h !!! l)) = Some next_ →
     dict_get label (arcs (h' !!! l)) = Some next_) →
  dfa_walk h s w = Some t → dfa_walk h' s w = Some t.
Proof.
  intros Hmono. revert s. induction w as [|label w IH]; intros s; simpl; [done|].
  destruct (dict_get label (arcs (h !!! s))) as [u|] eqn:Hu; [|done].
  rewrite (Hmono _ _ _ Hu). apply IH.
Qed.

Lemma link_arc_reached rule finish first state h states label X h' states' :
  link_arc rule finish state (h, states) (label, X) = Ok (h', states') →
  state ∈ states → (∀ l, l ∈ states → l < length h) →
  all_reached h first states → all_reached h' first states'.
Proof.
  intros Hrun Hstate Hrange Hreach.
  destruct (link_arc_post _ _ _ _ _ _ _ _ _ Hrun (Hrange _ Hstate) Hrange)
    as (next_ & Hfresh & Hnext & HX & Hstates & Hlen & _ & Hother & _ & Harcs).
  assert (∀ l label' t, dict_get label' (arcs (h !!! l)) = Some t →
            dict_get label' (arcs (h' !!! l)) = Some t) as Hmono.
  { intros l label' t Hget. destruct (decide (l = state)) as [->|Hne].
    - by rewrite Harcs, dict_get_app, Hget.
    - destruct (decide (l < length h)) as [Hlt|Hge]; [by rewrite Hother|].
      rewrite list_lookup_total_alt, lookup_ge_None_2 in Hget by lia. done. }
  assert (∀ s, s ∈ states → ∃ w, dfa_walk h' first w = Some s) as Hold.
  { intros s Hs. destruct (Hreach s Hs) as [w Hw]. exists w. by eapply dfa_walk_mono. }
  destruct Hstates as [->|(-> & -> & _)]; [done|].
  intros s [Hs| ->%list_elem_of_singleton]%elem_of_app; [by apply Hold|].
  destruct (Hold state Hstate) as [w Hw]. exists (w ++ [label]).
  rewrite dfa_walk_app, Hw. simpl. rewrite Harcs, dict_get_app.
  apply dict_get_None in Hfresh. rewrite Hfresh. simpl. by rewrite decide_True.
Qed.

(** Every state that the loop of [_make_dfas] appends is the target of an
    arc of a state that a word leads to. *)
Lemma make_dfas_loop_reached rule finish first fuel k h states h' states' :
  make_dfas_loop fuel g rule finish k h states = Ok (h', states') →
  (∀ l, l ∈ states → l < length h) →
  all_reached h first states →
  all_reached h' first states'.
Proof.
  revert k h states. induction fuel as [|fuel IH]; intros k h states Hrun Hrange Hreach.
  - simpl in Hrun. destruct (states !! k); [done|]. by injection Hrun as <- <-.
  - simpl in Hrun. destruct (states !! k) as [state|] eqn:Hk.
    2: { by injection Hrun as <- <-. }
    apply bind_Ok in Hrun as (items & Hcollect & Hrun).
    apply bind_Ok in Hrun as ([h1 states1] & Hlink & Hrun).
    assert (state ∈ states) as Hstate by (by eapply list_elem_of_lookup_2).
    assert ((∀ l, l ∈ states1 → l < length h1) ∧ state ∈ states1
            ∧ all_reached h1 first states1) as (Hrange1 & _ & Hreach1).
    { apply (foldM_inv
        (λ (pre : list (string * gset nat)) (hs : list (DFAState T) * list nat),
           (∀ l, l ∈ hs.2 → l < length hs.1) ∧ state ∈ hs.2
           ∧ all_reached hs.1 first hs.2) _ _ _ _ Hlink); [done|].
      intros pre [label X] suf [h2 states2] [h3 states3] _ (Hr2 & Hs2 & Hreach2) Hstep.
      simpl in *.
      destruct (link_arc_post _ _ _ _ _ _ _ _ _ Hstep (Hr2 _ Hs2) Hr2)
        as (next_ & _ & _ & _ & Hstates & _ & Hr3 & _).
      split_and!; [done| |by eapply link_arc_reached].
      destruct Hstates as [->|[-> _]]; [done|]. apply elem_of_app. by left. }
    by eapply IH.
Qed.

(** Every state that [_make_dfas] returns is where some word leads from
    the first one. *)
Lemma _make_dfas_reached (h0 : list (DFAState T)) (start finish : nat) new :
  _make_dfas g h0 start finish = Ok (h0 ++ new, seq (length h0) (length new)) →
  all_reached (h0 ++ new) (length h0) (seq (length h0) (length new)).
Proof.
  intros Hrun. unfold _make_dfas, _make_dfas_fuel in Hrun.
  apply bind_Ok in Hrun as (base & _ & Hrun).
  apply bind_Ok in Hrun as (s & Hs & Hrun).
  eapply make_dfas_loop_reached; [exact Hrun| |].
  - intros l ->%list_elem_of_singleton. rewrite length_app. simpl. lia.
  - intros l ->%list_elem_of_singleton. by exists [].
Qed.
End reach.

Section reached_states.
Context {T : Type} `{EqDecision T}.
Context (g : list NFAState).
Implicit Types (h : list (DFAState T)) (states : list nat).

Lemma dfa_walk_snoc h s w label u :
  dfa_walk h s (w ++ [label]) = Some u →
  ∃ t, dfa_walk h s w = Some t ∧ dict_get label (arcs (h !!! t)) = Some u.
Proof.
  rewrite dfa_walk_app. destruct (dfa_walk h s w) as [t|]; [|done]. simpl.
  destruct (dict_get label (arcs (h !!! t))) as [u'|] eqn:Hu; [|done].
  intros [= <-]. by exists t.
Qed.

(** The node set of a state that a word leads to is not empty, and
    unlabeled arcs do not leave it. *)
Lemma reached_sets h states first :
  arcs_closed h states → first ∈ states →
  (∀ s, s ∈ states → moves_ok g h states s) →
  all_reached h first states →
  nfa_set (h !!! first) ≠ ∅ → eps_closed g (nfa_set (h !!! first)) →
  ∀ s, s ∈ states → nfa_set (h !!! s) ≠ ∅ ∧ eps_closed g (nfa_set (h !!! s)).
Proof.
  intros Hclosed Hfirst Hmoves Hreach Hne Hcl s Hs.
  destruct (Hreach s Hs) as [w Hw].
  destruct w as [|label w _] using rev_ind.
  - by injection Hw as <-.
  - apply dfa_walk_snoc in Hw as (t & Ht & Hget).
    pose proof (dfa_walk_in h states w first t Hclosed Hfirst Ht) as Hin.
    pose proof (Hmoves t Hin label) as Hstep. rewrite Hget in Hstep.
    destruct Hstep as (_ & Hne' & Hset). split; [done|].
    by eapply label_step_closed.
Qed.

(** Unification keeps every state of the list within reach of the first
    one. *)
Lemma dfa_quotient_reached h dfas h' dfas' rho first :
  dfa_quotient h dfas h' dfas' rho → first ∈ dfas' →
  all_reached h first dfas → all_reached h' first dfas'.
Proof.
  intros (_ & Hid & _ & Hwalk) Hfirst Hreach s Hs.
  destruct (Hid s Hs) as [Hs0 Hrho]. destruct (Hid first Hfirst) as [Hf0 Hrhof].
  destruct (Hreach s Hs0) as [w Hw]. exists w.
  rewrite <-Hrhof, Hwalk, Hw by done. simpl. by rewrite Hrho.
Qed.
End reached_states.

Section node_sets.
Context {T : Type} `{EqDecision T} `{SetOrder}.
Context (g : list NFAState).

(** The node sets of the states that [_make_dfas] returns are the sets of
    nodes that the paths spelling a word reach from [start], the empty set
    left out. *)
Lemma _make_dfas_node_sets (h0 : list (DFAState T)) (start finish : nat) new X :
  _make_dfas g h0 start finish = Ok (h0 ++ new, seq (length h0) (length new)) →
  X ∈ nfa_set <$> new
  ↔ X ≠ ∅ ∧ ∃ w, ∀ m, m ∈ X ↔ nfa_path g start w m.
Proof.
  intros Hrun.
  destruct (_make_dfas_moves g h0 start finish)
    as (new' & Hrun' & Hne & _ & Hcells & Hfirst & Hmoves).
  assert (new' = new) as ->.
  { rewrite Hrun in Hrun'. injection Hrun' as Heq. by apply app_inv_head in Heq. }
  destruct (_make_dfas_wf g h0 start finish new Hrun) as [(_ & _ & Hclosed) _].
  pose proof (_make_dfas_reached g h0 start finish new Hrun) as Hreach.
  assert (0 < length new) as Hlen by (destruct new; [done|simpl; lia]).
  assert (length h0 ∈ seq (length h0) (length new)) as Hin.
  { apply elem_of_seq. lia. }
  assert ((h0 ++ new) !!! length h0 = new !!! 0) as Hcell.
  { rewrite lookup_total_app_r by lia. by rewrite Nat.sub_diag. }
  assert (eps_closed g (nfa_set ((h0 ++ new) !!! length h0))) as Hcl.
  { rewrite Hcell. by eapply eps_closure_closed. }
  assert (∀ w,
            match dfa_walk (h0 ++ new) (length h0) w with
            | Some t =>
                t ∈ seq (length h0) (length new)
                ∧ ∀ m, m ∈ nfa_set ((h0 ++ new) !!! t) ↔ nfa_path g start w m
            | None => ∀ m, ¬ nfa_path g start w m
            end) as Hwalk.
  { intros w. pose proof (dfa_walk_moves g _ _ Hmoves w (length h0) Hin Hcl) as Hw.
    rewrite Hcell in Hw.
    destruct (dfa_walk (h0 ++ new) (length h0) w) as [t|].
    - destruct Hw as [Ht Hset]. split; [done|]. intros m. rewrite Hset. split.
      + intros (n & Hn%Hfirst & Hp). by eapply nfa_path_eps_closure.
      + intros Hp. exists start. split; [|done]. apply Hfirst, rtc_refl.
    - intros m Hp. apply (Hw start m); [|done]. apply Hfirst, rtc_refl. }
  split.
  - intros (s & -> & Hs)%list_elem_of_fmap.
    apply list_elem_of_lookup in Hs as [i Hi].
    pose proof (lookup_lt_Some _ _ _ Hi) as Hlt.
    assert (length h0 + i ∈ seq (length h0) (length new)) as Hstate.
    { apply elem_of_seq. lia. }
    assert ((h0 ++ new) !!! (length h0 + i) = s) as Hs.
    { rewrite lookup_total_app_r by lia.
      replace (length h0 + i - length h0) with i by lia.
      by apply list_lookup_total_correct. }
    destruct (reached_sets g (h0 ++ new) _ (length h0) Hclosed Hin Hmoves Hreach)
      with (s := length h0 + i) as [Hnonempty _]; [|done..|].
    { rewrite Hcell. intros Hempty.
      assert (start ∈ nfa_set (new !!! 0)) as Hst by apply Hfirst, rtc_refl.
      rewrite Hempty in Hst. set_solver. }
    rewrite Hs in Hnonempty. split; [done|].
    destruct (Hreach _ Hstate) as [w Hw]. exists w.
    specialize (Hwalk w). rewrite Hw, Hs in Hwalk. apply Hwalk.
  - intros [HX [w Hw]]. specialize (Hwalk w).
    destruct (dfa_walk (h0 ++ new) (length h0) w) as [t|].
    + destruct Hwalk as [[Hge Hlt]%elem_of_seq Hset].
      rewrite lookup_total_app_r in Hset by lia.
      assert (X = nfa_set (new !!! (t - length h0))) as ->.
      { apply set_eq. intros m. by rewrite Hw, Hset. }
      apply list_elem_of_fmap_2. apply list_elem_of_lookup_total_2. lia.
    + exfalso. apply HX. apply set_eq. intros m. rewrite Hw. split; [|set_solver].
      intros Hp. by destruct (Hwalk m).
Qed.
End node_sets.

(** * How the driver ends *)


Lemma dict_writes_elem {A K V} `{EqDecision K} (f : A → option (K * V)) l t x :
  x ∈ dict_writes f l t → x ∈ t ∨ ∃ a, a ∈ l ∧ f a = Some x.
Proof.
  revert t. induction l as [|a l IH]; intros t; [by left|].
  rewrite dict_writes_cons. intros [Hx|(a' & Ha' & Hfa')]%IH.
  - destruct (f a) as [[k v]|] eqn:Hfa; [|by left].
    apply dict_set_elem in Hx as [->|Hx]; [|by left].
    right. exists a. split; [left|done].
  - right. exists a'. split; [by right|done].
Qed.

Lemma quote_not_alpha c : c = dquote ∨ c = squote → isalpha c = false.
Proof. by intros [->| ->]. Qed.

Lemma not_triple_quoted label :
  ¬ triple_quoted label ↔
  negb (startswith (triple dquote) label) && negb (startswith (triple squote) label)
  = true.
Proof.
  unfold triple_quoted.
  destruct (startswith (triple dquote) label), (startswith (triple squote) label);
    simpl; naive_solver.
Qed.

Section keys.
Context {T : Type} `{EqDecision T}.
Context (literal_eval : string → option string).
Context (token_namespace : string → option T).
Implicit Types (rs : list ReservedString * list (string * nat)).

Local Abbreviation resolves := (resolves literal_eval token_namespace).

(** [_make_transition] returns normally on the labels that resolve, and on
    no other, whatever the interning table holds. *)
Lemma _make_transition_resolves rs label :
  (∃ key rs', _make_transition literal_eval token_namespace rs label = Ok (key, rs'))
  ↔ resolves label.
Proof.
  unfold _make_transition. destruct label as [|c rest].
  { split; [by intros (? & ? & ?)|].
    intros [[(c & rest & ? & _) _]|[(c & rest & ? & _) _]]; done. }
  destruct (isalpha c) eqn:Hc.
  - split.
    + intros (key & rs' & Hrun). left. split; [by exists c, rest|].
      by destruct (token_namespace _).
    + intros [[_ [t Ht]]|[(c' & rest' & Heq & Hq) _]].
      * rewrite Ht. by eauto.
      * injection Heq as <- <-. apply quote_not_alpha in Hq. congruence.
  - split.
    + intros (key & rs' & Hrun). right.
      destruct (bool_decide (c = dquote) || bool_decide (c = squote)) eqn:Hq;
        [|done]. simpl in Hrun.
      destruct (negb _ && negb _) eqn:Ht; [|done]. simpl in Hrun.
      split_and!.
      * exists c, rest. split; [done|].
        apply orb_prop in Hq as [?%bool_decide_eq_true|?%bool_decide_eq_true]; auto.
      * by apply not_triple_quoted.
      * by destruct (literal_eval _).
    + intros [[(c' & rest' & Heq & Ha) _]|[(c' & rest' & Heq & Hq) [Ht [v Hv]]]];
        injection Heq as <- <-; [congruence|].
      assert (bool_decide (c = dquote) || bool_decide (c = squote) = true) as ->.
      { destruct Hq as [->| ->]; reflexivity. }
      cbn -[startswith]. apply not_triple_quoted in Ht. rewrite Ht.
      cbn -[startswith]. rewrite Hv.
      destruct rs as [rs_heap reserved]. destruct (dict_get v reserved); by eauto.
Qed.



(** A value that [_make_transition] adds to the interning table is the
    value of the literal it was given. *)
Lemma _make_transition_keys rs label key rs' v :
  _make_transition literal_eval token_namespace rs label = Ok (key, rs') →
  v ∈ rs'.2.*1 → v ∈ rs.2.*1 ∨ quoted label ∧ literal_eval label = Some v.
Proof.
  intros Hrun.
  assert (resolves label) as Hres.
  { apply (_make_transition_resolves rs). by eauto. }
  revert Hrun. unfold _make_transition. destruct label as [|c rest]; [done|].
  destruct (isalpha c) eqn:Hc.
  { destruct (token_namespace _); [|done]. intros [= <- <-]. by left. }
  destruct Hres as [[(c' & rest' & Heq & Ha) _]|(Hq & _ & _)];
    [injection Heq as <- <-; congruence|].
  destruct (assert (_ || _)) as [[]|?|]; simpl; [|done..].
  destruct (assert (_ && _)) as [[]|?|]; simpl; [|done..].
  destruct (literal_eval _) as [v'|]; [|done].
  destruct rs as [rs_heap reserved].
  destruct (dict_get v' reserved) as [r|] eqn:Hr.
  - intros [= <- <-]. by left.
  - intros [= <- <-]. simpl. rewrite dict_set_keys.
    apply dict_get_None in Hr. rewrite decide_False by done.
    intros [Hv| ->%list_elem_of_singleton]%elem_of_app; [by left|by right].
Qed.
End keys.

(** ** The second pass *)

Section second_pass.
Context {T : Type} `{EqDecision T}.
Context (literal_eval : string → option string).
Context (token_namespace : string → option T).
Context (rules : list (string * list nat)).
Implicit Types (h : list (DFAState T))
  (st : list (DFAState T) * (list ReservedString * list (string * nat))).



(** The values in the interning table after the second pass are the values
    of quoted labels of arcs of the states of the rule table. *)
Lemma compile_states_keys locs st st' v :
  foldM (compile_state literal_eval token_namespace rules) locs st = Ok st' →
  rs_ok st.2 → v ∈ st'.2.2.*1 →
  v ∈ st.2.2.*1
  ∨ ∃ state label, state ∈ locs ∧ label ∈ (arcs (st.1 !!! state)).*1
      ∧ dict_mem label rules = false
      ∧ quoted label ∧ literal_eval label = Some v.
Proof.
  intros Hrun Hok.
  cut ((rs_ok st'.2 ∧ ∀ l, arcs (st'.1 !!! l) = arcs (st.1 !!! l))
       ∧ (v ∈ st'.2.2.*1 →
          v ∈ st.2.2.*1
          ∨ ∃ state label, state ∈ locs ∧ label ∈ (arcs (st.1 !!! state)).*1
              ∧ dict_mem label rules = false
              ∧ quoted label ∧ literal_eval label = Some v)).
  { by intros [_ ?]. }
  apply (foldM_inv
    (λ pre (st1 : list (DFAState T) * (list ReservedString * list (string * nat))),
       (rs_ok st1.2 ∧ ∀ l, arcs (st1.1 !!! l) = arcs (st.1 !!! l))
       ∧ (v ∈ st1.2.2.*1 →
          v ∈ st.2.2.*1
          ∨ ∃ state label, state ∈ pre ∧ label ∈ (arcs (st.1 !!! state)).*1
              ∧ dict_mem label rules = false
              ∧ quoted label ∧ literal_eval label = Some v)) _ _ _ _ Hrun).
  { split; [by split|]. by left. }
  intros pre state suf st1 st2 _ [[Hok1 Harcs1] Hkeys1] Hstate.
  destruct (compile_state_spec _ _ _ _ _ _ Hstate Hok1)
    as (Hok2 & _ & _ & Hother & Hsame & _).
  assert (∀ l, arcs (st2.1 !!! l) = arcs (st1.1 !!! l)) as Harcs2.
  { intros l. destruct (decide (l = state)) as [->|Hne].
    - by destruct Hsame as (_ & _ & _ & ->).
    - by rewrite Hother. }
  split; [split; [done|]; intros l; by rewrite Harcs2|].
  unfold compile_state in Hstate.
  cut (v ∈ st2.2.2.*1 →
       v ∈ st1.2.2.*1
       ∨ ∃ label, label ∈ (arcs (st1.1 !!! state)).*1
           ∧ dict_mem label rules = false
           ∧ quoted label ∧ literal_eval label = Some v).
  { intros Hcut Hv. destruct (Hcut Hv) as [Hv1|(label & Hl & Hm & Hq & Hlit)].
    - destruct (Hkeys1 Hv1) as [?|(state' & label & Hs & ?)]; [by left|right].
      exists state', label. split; [|done]. apply elem_of_app. by left.
    - right. exists state, label. rewrite <-Harcs1. split_and!; [|done..].
      apply elem_of_app. right. left. }
  apply (foldM_inv
    (λ pre' (st3 : list (DFAState T) * (list ReservedString * list (string * nat))),
       v ∈ st3.2.2.*1 →
       v ∈ st1.2.2.*1
       ∨ ∃ label, label ∈ pre'.*1 ∧ dict_mem label rules = false
           ∧ quoted label ∧ literal_eval label = Some v)
    _ _ _ _ Hstate).
  - by left.
  - intros pre' [label target] suf' [h3 rs3] [h4 rs4] _ Hpre' Harc Hv. simpl in *.
    unfold compile_arc in Harc.
    destruct (dict_mem label rules) eqn:Hmem.
    + injection Harc as <- <-. destruct (Hpre' Hv) as [?|(label' & Hl & ?)]; [by left|right].
      exists label'. split; [|done]. rewrite fmap_app. apply elem_of_app. by left.
    + apply bind_Ok in Harc as ([key rs5] & Hkey & [= <- <-]).
      destruct (_make_transition_keys _ _ _ _ _ _ v Hkey Hv) as [Hv3|[Hq Hlit]].
      * destruct (Hpre' Hv3) as [?|(label' & Hl & ?)]; [by left|right].
        exists label'. split; [|done]. rewrite fmap_app. apply elem_of_app. by left.
      * right. exists label. split_and!; [|done..].
        rewrite fmap_app. apply elem_of_app. right. left.
Qed.
End second_pass.

(** ** The driver *)

Section outcome.
Context {T : Type} `{EqDecision T} `{SetOrder}.
Context (literal_eval : string → option string).
Context (g : list NFAState) (token_namespace : string → option T).

End outcome.

(** * The closure on any set, and equality of states *)

Section avoiding.
Context (g : list NFAState).

Lemma eps_avoiding_not_base base x n : eps_avoiding g base x n → n ∉ base.
Proof. by intros []. Qed.

Lemma eps_avoiding_start base x n : eps_avoiding g base x n → x ∉ base.
Proof. induction 1; done. Qed.

Lemma eps_avoiding_trans (base b : gset nat) x y n :
  base ⊆ b → eps_avoiding g base x y → eps_avoiding g b y n →
  eps_avoiding g base x n.
Proof.
  intros Hsub Hxy Hyn. induction Hyn as [|m m' _ IH Hstep Hm']; [done|].
  eapply eps_avoiding_step; [exact IH|done|set_solver].
Qed.

Lemma eps_avoiding_closure base x n : eps_avoiding g base x n → eps_closure g x n.
Proof.
  induction 1 as [|m m' _ IH Hstep _]; [apply rtc_refl|]. by eapply rtc_r.
Qed.

(** Every node that [addclosure] adds is at the end of an unlabeled path
    from the node it was given that stays outside the set it was given. *)
Lemma addclosure_fuel_avoiding fuel x base r :
  addclosure_fuel fuel g x base = Ok r →
  base ⊆ r ∧ ∀ n, n ∈ r → n ∉ base → eps_avoiding g base x n.
Proof.
  revert x base r. induction fuel as [|fuel IH]; intros x base r; [done|]. simpl.
  destruct (decide (x ∈ base)) as [Hx|Hx].
  { intros [= <-]. by split. }
  intros Hrun.
  cut ({[x]} ∪ base ⊆ r ∧ ∀ n, n ∈ r → n ∉ base → eps_avoiding g base x n).
  { intros [Hsub Hav]. split; [set_solver|done]. }
  apply (foldM_inv
    (λ (pre : list NFAArc) (b : gset nat),
       {[x]} ∪ base ⊆ b ∧ ∀ n, n ∈ b → n ∉ base → eps_avoiding g base x n)
    _ _ _ _ Hrun).
  { split; [done|]. intros n Hn Hnb. assert (n = x) as -> by set_solver.
    by constructor. }
  intros pre a suf b b1 Hl [Hsub Hav] Hstep.
  destruct (nonterminal_or_string a) as [label|] eqn:Hlabel.
  { by injection Hstep as <-. }
  destruct (IH _ _ _ Hstep) as [Hb Hav1]. split; [set_solver|].
  intros n Hn Hnb. destruct (decide (n ∈ b)) as [Hnin|Hnin]; [by apply Hav|].
  pose proof (Hav1 n Hn Hnin) as Hpath.
  eapply (eps_avoiding_trans base b x (next a)); [set_solver| |done].
  apply (eps_avoiding_step g base x x); [by constructor| |].
  - exists a. split_and!; [|done..]. rewrite Hl. apply elem_of_app. right. left.
  - apply eps_avoiding_start in Hpath. set_solver.
Qed.

Lemma addclosure_avoiding x base :
  ∃ r, addclosure g x base = Ok r
       ∧ ∀ n, n ∈ r ↔ n ∈ base ∨ eps_avoiding g base x n.
Proof.
  destruct (addclosure_spec g x base) as (r & Hr & Hsub & Hx & _ & Hcl).
  exists r. split; [done|]. intros n. split.
  - intros Hn. destruct (decide (n ∈ base)) as [|Hnb]; [by left|right].
    by apply (addclosure_fuel_avoiding _ _ _ _ Hr).
  - intros [Hn|Hpath]; [by apply Hsub|].
    induction Hpath as [|m m' Hm IH Hstep _]; [done|].
    apply (Hcl m IH); [|done]. by eapply eps_avoiding_not_base.
Qed.
End avoiding.

Section equality.
Context {T : Type} `{EqDecision T}.
Implicit Types (s : DFAState T).

Lemma DFAState_eq_refl s : NoDup (arcs s).*1 → DFAState_eq s s = true.
Proof. intros Hs. by apply DFAState_eq_spec. Qed.

Lemma DFAState_eq_sym s1 s2 :
  NoDup (arcs s1).*1 → NoDup (arcs s2).*1 → DFAState_eq s1 s2 = DFAState_eq s2 s1.
Proof.
  intros H1 H2. apply eq_true_iff_eq.
  rewrite !DFAState_eq_spec by done. naive_solver.
Qed.

Lemma DFAState_eq_trans s1 s2 s3 :
  NoDup (arcs s1).*1 → NoDup (arcs s2).*1 → NoDup (arcs s3).*1 →
  DFAState_eq s1 s2 = true → DFAState_eq s2 s3 = true → DFAState_eq s1 s3 = true.
Proof.
  intros H1 H2 H3. rewrite !DFAState_eq_spec by done.
  intros [? Ha] [? Hb]. split; [congruence|]. intros label. by rewrite Ha.
Qed.

Lemma NoDup_unifystate old new s : NoDup (arcs s).*1 → NoDup (arcs (unifystate old new s)).*1.
Proof. by destruct (same_cell_unifystate old new s) as (_ & _ & _ & -> & _). Qed.

Lemma DFAState_eq_unifystate old new s1 s2 :
  NoDup (arcs s1).*1 → NoDup (arcs s2).*1 →
  DFAState_eq s1 s2 = true →
  DFAState_eq (unifystate old new s1) (unifystate old new s2) = true.
Proof.
  intros H1 H2. rewrite !DFAState_eq_spec by (done || by apply NoDup_unifystate).
  intros [Hf Ha]. split; [done|]. intros label. unfold unifystate. simpl.
  by rewrite !dict_get_map_values, Ha.
Qed.
End equality.

Section frame.
Context {T : Type} `{EqDecision T}.
Implicit Types (h : list (DFAState T)) (dfas : list nat).

(** The unifier keeps the first state of the list and writes no cell
    outside the list. *)
Lemma simplify_pass_frame fuel i h dfas changes log h' dfas' changes' log' :
  simplify_pass fuel i h dfas changes log = Ok (h', dfas', changes', log') →
  head dfas' = head dfas ∧ (∀ l, l ∉ dfas → h' !!! l = h !!! l).
Proof.
  revert i h dfas changes log.
  induction fuel as [|fuel IH]; intros i h dfas changes log Hrun; simpl in Hrun.
  - destruct (dfas !! i); [done|]. by injection Hrun as <- <- <- <-.
  - destruct (dfas !! i) as [state_i|] eqn:Hi.
    2: { by injection Hrun as <- <- <- <-. }
    destruct (find_equal h state_i dfas i) as [[j state_j]|] eqn:Hfind.
    + apply find_equal_Some in Hfind as (Hij & Hj & Heq & _).
      destruct (IH _ _ _ _ _ Hrun) as [Hhead Hout]. split.
      * rewrite Hhead. apply head_delete. lia.
      * intros l Hl. rewrite Hout.
        -- rewrite unify_all_lookup. rewrite decide_False; [done|].
           intros Hin. apply Hl. eapply elem_of_sublist; [done|apply sublist_delete].
        -- intros Hin. apply Hl. eapply elem_of_sublist; [done|apply sublist_delete].
    + by eapply IH.
Qed.

Lemma simplify_loop_frame fuel h dfas log h' dfas' log' :
  simplify_loop fuel h dfas log = Ok (h', dfas', log') →
  head dfas' = head dfas ∧ (∀ l, l ∉ dfas → h' !!! l = h !!! l).
Proof.
  revert h dfas log. induction fuel as [|fuel IH]; intros h dfas log Hrun; [done|].
  simpl in Hrun. apply bind_Ok in Hrun as ([[[h1 dfas1] changes] log1] & Hpass & Hrun).
  destruct (simplify_pass_frame _ _ _ _ _ _ _ _ _ _ Hpass) as [Hhead1 Hout1].
  destruct (simplify_pass_spec (length dfas) 0 h dfas false log)
    as (h1' & dfas1' & merges & Hpass' & _ & _ & Hsub & _); [lia|].
  assert (dfas1' = dfas1) as -> by congruence.
  destruct changes.
  - destruct (IH _ _ _ Hrun) as [Hhead2 Hout2]. split; [congruence|].
    intros l Hl. rewrite Hout2, Hout1; [done..|].
    intros Hin. apply Hl. by eapply elem_of_sublist.
  - by injection Hrun as <- <- <-.
Qed.
End frame.

(** * The tables of a compiled grammar *)

Section interning.
Context {T : Type} `{EqDecision T}.
Context (literal_eval : string → option string).
Context (token_namespace : string → option T).
Implicit Types (rs : list ReservedString * list (string * nat)).

(** [_make_transition] leaves the interning table as it is, or appends one
    reserved string for a value that the table did not hold. *)
Lemma _make_transition_grows rs label key rs' :
  _make_transition literal_eval token_namespace rs label = Ok (key, rs') →
  rs' = rs
  ∨ ∃ v, quoted label ∧ literal_eval label = Some v ∧ (v ∉ rs.2.*1)
         ∧ key = ReservedKey (length rs.1)
         ∧ rs' = (rs.1 ++ [{| value := v |}], rs.2 ++ [(v, length rs.1)]).
Proof.
  intros Hrun.
  assert (resolves literal_eval token_namespace label) as Hres.
  { apply (_make_transition_resolves _ _ rs). by eauto. }
  revert Hrun. unfold _make_transition. destruct label as [|c rest]; [done|].
  destruct (isalpha c) eqn:Hc.
  { destruct (token_namespace _); [|done]. intros [= <- <-]. by left. }
  destruct Hres as [[(c' & rest' & Heq & Ha) _]|(Hq & _ & _)];
    [injection Heq as <- <-; congruence|].
  destruct (assert (_ || _)) as [[]|?|]; simpl; [|done..].
  destruct (assert (_ && _)) as [[]|?|]; simpl; [|done..].
  destruct (literal_eval _) as [v|]; [|done].
  destruct rs as [rs_heap reserved].
  destruct (dict_get v reserved) as [r|] eqn:Hr.
  - intros [= <- <-]. by left.
  - intros [= <- <-]. right. exists v. apply dict_get_None in Hr.
    split_and!; [done..|]. simpl. by rewrite dict_set_fresh.
Qed.

(** Two quoted labels resolved one after the other get the same reserved
    string exactly when their literal values are equal. *)
Lemma _make_transition_apart rs label1 key1 rs1 label2 key2 rs2 v1 v2 :
  rs_ok rs →
  _make_transition literal_eval token_namespace rs label1 = Ok (key1, rs1) →
  _make_transition literal_eval token_namespace rs1 label2 = Ok (key2, rs2) →
  quoted label1 → quoted label2 →
  literal_eval label1 = Some v1 → literal_eval label2 = Some v2 →
  key1 = key2 ↔ v1 = v2.
Proof.
  intros Hok H1 H2 Hq1 Hq2 Hv1 Hv2.
  destruct (_make_transition_inv _ _ _ _ _ _ H1 Hok) as (Hok1 & _ & H1').
  destruct (_make_transition_inv _ _ _ _ _ _ H2 Hok1) as (Hok2 & Hle & H2').
  pose proof (_make_transition_mono _ _ _ _ _ _ H1' Hle) as H1''.
  destruct Hq1 as (c1 & rest1 & Hl1 & Hc1%quote_not_alpha).
  destruct Hq2 as (c2 & rest2 & Hl2 & Hc2%quote_not_alpha).
  destruct (_make_transition_quoted _ _ _ _ _ _ _ _ H1'' Hl1 Hc1 Hv1) as (r1 & -> & Hr1).
  destruct (_make_transition_quoted _ _ _ _ _ _ _ _ H2' Hl2 Hc2 Hv2) as (r2 & -> & Hr2).
  split.
  - intros [= ->]. apply Hok2 in Hr1, Hr2. congruence.
  - intros ->. congruence.
Qed.
End interning.

Section tables.
Context {T : Type} `{EqDecision T} `{SetOrder}.
Context (literal_eval : string → option string).
Context (g : list NFAState) (token_namespace : string → option T).

(** The values in the interning table of a compiled grammar are values of
    quoted labels of its terminal arcs. *)
Lemma generate_grammar_keys fragments h rs_heap gr v :
  generate_grammar literal_eval g fragments token_namespace = Ok (h, rs_heap, gr) →
  v ∈ (reserved_syntax_strings gr).*1 →
  ∃ rule dfas state label,
    (rule, dfas) ∈ nonterminal_to_dfas gr ∧ state ∈ dfas
    ∧ label ∈ (arcs (h !!! state)).*1
    ∧ dict_mem label (nonterminal_to_dfas gr) = false
    ∧ quoted label ∧ literal_eval label = Some v.
Proof.
  intros Hrun Hv.
  destruct (generate_grammar_inv _ _ _ _ _ _ _ Hrun)
    as (_ & (acc & Hbuild & _ & Hrules & _ & _ & Hsame) & _).
  unfold generate_grammar in Hrun. rewrite Hbuild in Hrun.
  destruct acc as [[h1 rules] start]. simpl in *.
  apply bind_Ok in Hrun as ([h2 [rs_heap2 reserved]] & Hcompile & Heq).
  injection Heq as <- <- <-. simpl in *.
  unfold compile_transitions in Hcompile. rewrite foldM_concat in Hcompile.
  destruct (compile_states_keys _ _ _ _ _ _ v Hcompile rs_ok_nil Hv)
    as [[]%elem_of_nil|(state & label & Hstate & Hlabel & Hmem & Hq & Hlit)].
  simpl in Hlabel.
  apply elem_of_concat in Hstate as (dfas & Hdfas & Hstate).
  apply list_elem_of_fmap in Hdfas as ([rule dfas'] & -> & Hin). simpl in Hstate.
  exists rule, dfas', state, label. split_and!; try done.
  destruct (Hsame state) as (_ & _ & _ & ->). done.
Qed.

(** The targets that the two tables of a state of a compiled grammar hold
    are targets of its arcs. *)
Lemma generate_grammar_targets fragments h rs_heap gr state :
  generate_grammar literal_eval g fragments token_namespace = Ok (h, rs_heap, gr) →
  state ∈ concat (nonterminal_to_dfas gr).*2 →
  (∀ key plan, (key, plan) ∈ ilabel_to_plan (h !!! state) →
     ∃ label, (label, next_dfa plan) ∈ arcs (h !!! state)
              ∧ dict_mem label (nonterminal_to_dfas gr) = false)
  ∧ (∀ label target, (label, target) ∈ nonterminal_arcs (h !!! state) →
       (label, target) ∈ arcs (h !!! state)
       ∧ dict_mem label (nonterminal_to_dfas gr) = true).
Proof.
  intros Hrun Hstate.
  destruct (generate_grammar_inv _ _ _ _ _ _ _ Hrun) as (_ & _ & Hstates).
  destruct (Hstates state Hstate) as (_ & Hnt & Hplan & _). split.
  - intros key plan Hin. rewrite Hplan in Hin.
    apply dict_writes_elem in Hin as [[]%elem_of_nil|([label target] & Ha & Hw)].
    unfold plan_write in Hw. simpl in Hw.
    destruct (dict_mem label _) eqn:Hmem; [done|].
    destruct (_make_transition _ _ _ label) as [[key' rs']| |]; [|done..].
    injection Hw as <- <-. by exists label.
  - intros label target Hin. rewrite Hnt in Hin.
    apply dict_writes_elem in Hin as [[]%elem_of_nil|([label' target'] & Ha & Hw)].
    unfold nt_write in Hw. simpl in Hw.
    destruct (dict_mem label' _) eqn:Hmem; [|done]. by injection Hw as -> ->.
Qed.
End tables.

(** * Texts of states and of reserved strings *)

Lemma ascii_list_app (s1 s2 : string) :
  String.list_ascii_of_string (s1 +:+ s2)
  = String.list_ascii_of_string s1 ++ String.list_ascii_of_string s2.
Proof. induction s1 as [|c s1 IH]; simpl; [done|]. by rewrite IH. Qed.

Lemma ascii_list_inj (s1 s2 : string) :
  String.list_ascii_of_string s1 = String.list_ascii_of_string s2 → s1 = s2.
Proof.
  intros Heq. rewrite <-(String.string_of_list_ascii_of_string s1), Heq.
  apply String.string_of_list_ascii_of_string.
Qed.

Lemma string_app_inv_tail (s1 s2 t : string) : s1 +:+ t = s2 +:+ t → s1 = s2.
Proof.
  intros Heq%(f_equal String.list_ascii_of_string).
  rewrite !ascii_list_app in Heq.
  by apply app_inv_tail, ascii_list_inj in Heq.
Qed.

(** A text that ends in [=True>] is not one that ends in [False>]. *)
Lemma final_texts_differ (s1 s2 : string) :
  s1 +:+ " is_final=True>" ≠ s2 +:+ " is_final=False>".
Proof.
  intros Heq%(f_equal String.list_ascii_of_string).
  rewrite !ascii_list_app in Heq.
  apply (f_equal (@rev ascii)) in Heq. rewrite !rev_app_distr in Heq.
  simpl in Heq. discriminate Heq.
Qed.

Lemma DFAState_repr_inj {T} (s s' : DFAState T) :
  DFAState_repr s = DFAState_repr s'
  ↔ from_rule s = from_rule s' ∧ is_final s = is_final s'.
Proof.
  unfold DFAState_repr. split; [|by intros [-> ->]].
  intros Heq%String.app_inj.
  destruct (is_final s), (is_final s').
  - by apply string_app_inv_tail in Heq.
  - by apply final_texts_differ in Heq.
  - symmetry in Heq. by apply final_texts_differ in Heq.
  - by apply string_app_inv_tail in Heq.
Qed.

Lemma ReservedString_repr_inj (r r' : ReservedString) :
  ReservedString_repr r = ReservedString_repr r' → r = r'.
Proof.
  unfold ReservedString_repr. intros Heq%String.app_inj.
  apply string_app_inv_tail in Heq. destruct r, r'. simpl in Heq. by subst.
Qed.

(** * Dumps of unified states *)

Section dump_facts.
Context {T : Type} `{EqDecision T}.
Implicit Types (h : list (DFAState T)) (dfas : list nat).

Lemma position_lookup dfas p state :
  NoDup dfas → dfas !! p = Some state → position dfas state = p.
Proof.
  intros Hnd Hp. unfold position.
  assert (list_find (λ s, s = state) dfas = Some (p, state)) as ->; [|done].
  apply list_find_Some. split_and!; [done..|].
  intros j y Hj Hlt ->. assert (j = p); [|lia]. by eapply NoDup_lookup.
Qed.

(** In a list without equal pairs, [list.index] finds a state where the
    state is. *)
Lemma list_index_position h dfas p state :
  NoDup dfas → no_equal_pair h dfas → dfas !! p = Some state →
  list_index h dfas state = Some p.
Proof.
  intros Hnd Hno Hp. unfold list_index.
  assert (list_find
            (λ s, s = state ∨ DFAState_eq (h !!! s) (h !!! state) = true) dfas
          = Some (p, state)) as ->; [|done].
  apply list_find_Some. split_and!; [done|by left|].
  intros j y Hj Hlt [->|Heq].
  - assert (j = p); [|lia]. by eapply NoDup_lookup.
  - by rewrite (Hno j p y state Hlt Hj Hp) in Heq.
Qed.

Lemma dump_arcs_positions h dfas items out :
  NoDup dfas → no_equal_pair h dfas →
  (∀ item, item ∈ items → item.2 ∈ dfas) →
  dump_arcs h dfas items out
  = (out ++ ((λ item, arc_text item.1 (position dfas item.2)) <$> items), Returns).
Proof.
  intros Hnd Hno. revert out.
  induction items as [|[label t] items IH]; intros out Hin; simpl.
  { by rewrite app_nil_r. }
  destruct (list_elem_of_lookup_1 dfas t) as [p Hp].
  { apply (Hin (label, t)). left. }
  rewrite (list_index_position h dfas p t Hnd Hno Hp).
  rewrite (position_lookup dfas p t Hnd Hp).
  rewrite IH by (intros item ?; apply Hin; by right).
  by rewrite <-app_assoc.
Qed.

Lemma dump_states_positions h dfas i states out :
  NoDup dfas → no_equal_pair h dfas →
  (∀ state item, state ∈ states → item ∈ arcs (h !!! state) → item.2 ∈ dfas) →
  dump_states h dfas i states out
  = (out ++ concat (imap (λ k state,
                            state_text (i + k) (is_final (h !!! state))
                            :: ((λ item, arc_text item.1 (position dfas item.2))
                                  <$> arcs (h !!! state)))
                         states),
     Returns).
Proof.
  intros Hnd Hno. revert i out.
  induction states as [|state states IH]; intros i out Hin; simpl.
  { by rewrite app_nil_r. }
  rewrite dump_arcs_positions; [|done..|intros item; apply Hin; left].
  rewrite IH by (intros s item ?; apply Hin; by right).
  rewrite Nat.add_0_r, <-!app_assoc. simpl.
  assert (∀ F G : nat → nat → list string,
            (∀ k s, F k s = G (S k) s) → imap F states = imap (G ∘ S) states) as Hext.
  { intros F G HFG. apply imap_ext. intros k s _. apply HFG. }
  rewrite (Hext _ (λ k state,
             state_text (i + k) (is_final (h !!! state))
             :: ((λ item, arc_text item.1 (position dfas item.2))
                   <$> arcs (h !!! state)))); [done|].
  intros k s. simpl. by rewrite Nat.add_succ_r.
Qed.

(** [list.index] finds every state of the list, at its position or
    before it. *)
Lemma list_index_is_Some h dfas state :
  state ∈ dfas → is_Some (list_index h dfas state).
Proof.
  intros Hin. unfold list_index. apply fmap_is_Some.
  eapply list_find_elem_of; [exact Hin|by left].
Qed.

Lemma dump_arcs_returns h dfas items out :
  (∀ item, item ∈ items → item.2 ∈ dfas) →
  (dump_arcs h dfas items out).2 = Returns.
Proof.
  revert out. induction items as [|[label t] items IH]; intros out Hin; simpl; [done|].
  destruct (list_index_is_Some h dfas t) as [j ->].
  { apply (Hin (label, t)). left. }
  apply IH. intros item ?. apply Hin. by right.
Qed.

Lemma dump_states_returns h dfas i states out :
  (∀ state item, state ∈ states → item ∈ arcs (h !!! state) → item.2 ∈ dfas) →
  (dump_states h dfas i states out).2 = Returns.
Proof.
  revert i out. induction states as [|state states IH]; intros i out Hin; simpl; [done|].
  pose proof (dump_arcs_returns h dfas (arcs (h !!! state))
                (out ++ [state_text i (is_final (h !!! state))])) as Harcs.
  destruct (dump_arcs _ _ _ _) as [out' e]. simpl in Harcs.
  rewrite Harcs by (intros item; apply Hin; left).
  apply IH. intros s item ?. apply Hin. by right.
Qed.

(** On a list whose arcs stay in the list, [_dump_dfas] does not raise
    [ValueError]. *)
Lemma _dump_dfas_returns h dfas :
  arcs_closed h dfas → dfas ≠ [] → (_dump_dfas h dfas).2 = Returns.
Proof.
  intros Hclosed Hne. unfold _dump_dfas. destruct dfas as [|first rest]; [done|].
  apply dump_states_returns. intros state [label t] Hs Hin. by eapply Hclosed.
Qed.

(** On a list without equal pairs whose arcs stay in the list,
    [_dump_dfas] returns, and every arc shows the position of its
    target. *)
Lemma _dump_dfas_positions h dfas :
  dfas_wf h dfas → no_equal_pair h dfas → dfas ≠ [] →
  _dump_dfas h dfas = (dump_text h dfas, Returns).
Proof.
  intros (Hnd & _ & Hclosed) Hno Hne. unfold _dump_dfas, dump_text.
  destruct dfas as [|first rest]; [done|].
  rewrite dump_states_positions; [|done..|].
  - reflexivity.
  - intros state [label t] Hs Hin. by eapply Hclosed.
Qed.
End dump_facts.

(** * Further properties of the construction *)

Section construction.
Context {T : Type} `{EqDecision T} `{SetOrder}.

(** X1: the DFA that [_make_dfas] returns follows the paths of the NFA
    fragment.  The state that a word leads to from the first state holds
    exactly the nodes that paths spelling the word reach from [start]; a
    word that leads to no state has no such path; and the first state
    accepts exactly the words of the paths from [start] to [finish]. *)
Theorem make_dfas_tracks_nfa_paths (g : list NFAState) (h : list (DFAState T))
    (start finish : nat) :
  ∃ h' first rest,
    _make_dfas g h start finish = Ok (h', first :: rest)
    ∧ ∀ w,
        match dfa_walk h' first w with
        | Some state =>
            state ∈ first :: rest
            ∧ ∀ m, m ∈ nfa_set (h' !!! state) ↔ nfa_path g start w m
        | None => ∀ m, ¬ nfa_path g start w m
        end
        ∧ (dfa_accepts h' first w = true ↔ nfa_path g start w finish).
Proof.
  destruct (_make_dfas_moves g h start finish)
    as (new & Hrun & Hne & _ & Hcells & Hfirst & Hmoves).
  destruct new as [|s new]; [done|].
  exists (h ++ s :: new), (length h), (seq (S (length h)) (length new)).
  split; [done|]. intros w. split; [|by apply (_make_dfas_accepts g h start finish (s :: new))].
  change (length h :: seq (S (length h)) (length new))
    with (seq (length h) (length (s :: new))).
  assert (length h ∈ seq (length h) (length (s :: new))) as Hin.
  { apply elem_of_seq. simpl. lia. }
  assert ((h ++ s :: new) !!! length h = s) as Hcell.
  { by rewrite list_lookup_total_middle. }
  simpl in Hfirst.
  pose proof (dfa_walk_moves g _ _ Hmoves w (length h) Hin) as Hwalk.
  rewrite Hcell in Hwalk. specialize (Hwalk (eps_closure_closed g _ _ Hfirst)).
  destruct (dfa_walk (h ++ s :: new) (length h) w) as [t|].
  - destruct Hwalk as [Ht Hset]. split; [done|]. intros m. rewrite Hset. split.
    + intros (n & Hn%Hfirst & Hp). by eapply nfa_path_eps_closure.
    + intros Hp. exists start. split; [|done]. apply Hfirst, rtc_refl.
  - intros m Hp. apply (Hwalk start m); [|done]. apply Hfirst, rtc_refl.
Qed.

(** X2: in the list that [_make_dfas] returns, the arc of a state under a
    label leads to the state of the list whose node set is the set of nodes
    that the label, followed by unlabeled arcs, leads to from the nodes of
    the state; a state has no arc under a label that leaves none of its
    nodes.  Every state of the list has a node set that is not empty and
    that unlabeled arcs do not leave, and some word leads to it from the
    first state.  The list has no state twice, and no arc of its states
    leads out of it. *)
Theorem make_dfas_arcs_are_moves (g : list NFAState) (h : list (DFAState T))
    (start finish : nat) :
  ∃ h' first rest,
    _make_dfas g h start finish = Ok (h', first :: rest)
    ∧ dfas_wf h' (first :: rest)
    ∧ ∀ state, state ∈ first :: rest →
        moves_ok g h' (first :: rest) state
        ∧ nfa_set (h' !!! state) ≠ ∅
        ∧ eps_closed g (nfa_set (h' !!! state))
        ∧ ∃ w, dfa_walk h' first w = Some state.
Proof.
  destruct (_make_dfas_moves g h start finish)
    as (new & Hrun & Hne & _ & Hcells & Hfirst & Hmoves).
  destruct (_make_dfas_wf g h start finish new Hrun) as [Hwf _].
  pose proof Hwf as (_ & _ & Hclosed).
  pose proof (_make_dfas_reached g h start finish new Hrun) as Hreach.
  destruct new as [|s new]; [done|].
  exists (h ++ s :: new), (length h), (seq (S (length h)) (length new)).
  split; [done|]. split; [exact Hwf|].
  change (length h :: seq (S (length h)) (length new))
    with (seq (length h) (length (s :: new))).
  assert (length h ∈ seq (length h) (length (s :: new))) as Hin.
  { apply elem_of_seq. simpl. lia. }
  assert ((h ++ s :: new) !!! length h = s) as Hcell.
  { by rewrite list_lookup_total_middle. }
  simpl in Hfirst.
  intros state Hstate.
  destruct (reached_sets g (h ++ s :: new) _ (length h) Hclosed Hin Hmoves Hreach)
    with (s := state) as [Hnonempty Hcl].
  - rewrite Hcell. intros Hempty.
    assert (start ∈ nfa_set s) as Hs by apply Hfirst, rtc_refl.
    rewrite Hempty in Hs. set_solver.
  - rewrite Hcell. by eapply eps_closure_closed.
  - done.
  - split_and!; [by apply Hmoves|done|done|by apply Hreach].
Qed.

(** X3: [_make_dfas] writes no cell of the heap it is given: the states it
    returns are fresh cells, allocated one after the other behind that
    heap, at least one and at most two to the power of the number of nodes
    that can occur in a node set; each carries the name of the rule of
    [start], a set of such nodes, and empty transition tables. *)
Theorem make_dfas_allocates_its_states (g : list NFAState) (h : list (DFAState T))
    (start finish : nat) :
  ∃ new,
    _make_dfas g h start finish = Ok (h ++ new, seq (length h) (length new))
    ∧ 1 ≤ length new ≤ 2 ^ size ({[start]} ∪ nfa_targets g)
    ∧ Forall (λ s, from_rule s = nfa_from_rule (g !!! start)
                   ∧ nfa_set s ⊆ {[start]} ∪ nfa_targets g
                   ∧ ilabel_to_plan s = [] ∧ nonterminal_arcs s = []) new.
Proof.
  destruct (_make_dfas_spec g h start finish) as (new & Hrun & Hne & Hnd & Hcells & _).
  exists new. split_and!; [done| | |].
  - destruct new; [done|]. simpl. lia.
  - rewrite <-(length_fmap nfa_set). apply NoDup_subsets_length; [done|].
    intros X (s & -> & Hs)%list_elem_of_fmap.
    rewrite Forall_forall in Hcells. by destruct (Hcells s Hs).
  - eapply Forall_impl; [exact Hcells|]. by intros s [].
Qed.

(** X4: [addclosure] adds to the set it is given exactly the nodes at the
    end of an unlabeled path from the given node that stays outside that
    set.  When unlabeled arcs do not leave the given set, that is the
    epsilon closure of the node, and unlabeled arcs do not leave the
    result. *)
Theorem addclosure_adds_unvisited_closure (g : list NFAState) (nfa_state : nat)
    (base_nfa_set : gset nat) :
  ∃ r,
    addclosure g nfa_state base_nfa_set = Ok r
    ∧ (∀ n, n ∈ r ↔ n ∈ base_nfa_set ∨ eps_avoiding g base_nfa_set nfa_state n)
    ∧ (eps_closed g base_nfa_set →
       eps_closed g r
       ∧ ∀ n, n ∈ r ↔ n ∈ base_nfa_set ∨ eps_closure g nfa_state n).
Proof.
  destruct (addclosure_avoiding g nfa_state base_nfa_set) as (r & Hr & Hav).
  exists r. split_and!; [done..|]. intros Hbase.
  destruct (addclosure_closed g nfa_state base_nfa_set Hbase) as (r' & Hr' & Hcl & Hin).
  assert (r' = r) as -> by congruence. done.
Qed.
End construction.

(** X19: the state list of [_make_dfas] depends on the order in which
    Python iterates over a set only in the order of its states and of their
    arcs: with any two iteration orders the construction returns the same
    number of states, with the same node sets, and first states that accept
    the same words. *)
Theorem make_dfas_sets_do_not_depend_on_order {T : Type}
    (order1 order2 : SetOrder) (g : list NFAState) (h : list (DFAState T))
    (start finish : nat) :
  ∃ h1 dfas1 h2 dfas2,
    @_make_dfas T order1 g h start finish = Ok (h1, dfas1)
    ∧ @_make_dfas T order2 g h start finish = Ok (h2, dfas2)
    ∧ length dfas1 = length dfas2
    ∧ (∀ X, (∃ s, s ∈ dfas1 ∧ nfa_set (h1 !!! s) = X)
            ↔ (∃ s, s ∈ dfas2 ∧ nfa_set (h2 !!! s) = X))
    ∧ head dfas1 = head dfas2
    ∧ ∀ w, dfa_accepts h1 (length h) w = dfa_accepts h2 (length h) w.
Proof.
  destruct (@_make_dfas_spec T order1 g h start finish)
    as (new1 & Hrun1 & Hne1 & Hnd1 & _).
  destruct (@_make_dfas_spec T order2 g h start finish)
    as (new2 & Hrun2 & Hne2 & Hnd2 & _).
  assert (∀ X, X ∈ nfa_set <$> new1 ↔ X ∈ nfa_set <$> new2) as Hsets.
  { intros X.
    rewrite (@_make_dfas_node_sets T order1 g h start finish new1 X Hrun1).
    by rewrite (@_make_dfas_node_sets T order2 g h start finish new2 X Hrun2). }
  assert (∀ (new : list (DFAState T)) X,
            (∃ s, s ∈ seq (length h) (length new) ∧ nfa_set ((h ++ new) !!! s) = X)
            ↔ X ∈ nfa_set <$> new) as Hstates.
  { intros new X. split.
    - intros (s & [Hge Hlt]%elem_of_seq & <-). rewrite lookup_total_app_r by lia.
      apply list_elem_of_fmap_2, list_elem_of_lookup_total_2. lia.
    - intros (s & -> & Hs)%list_elem_of_fmap.
      apply list_elem_of_lookup in Hs as [i Hi].
      pose proof (lookup_lt_Some _ _ _ Hi) as Hlt.
      exists (length h + i). split; [apply elem_of_seq; lia|].
      rewrite lookup_total_app_r by lia.
      replace (length h + i - length h) with i by lia.
      by rewrite (list_lookup_total_correct _ _ _ Hi). }
  exists (h ++ new1), (seq (length h) (length new1)),
         (h ++ new2), (seq (length h) (length new2)).
  split_and!; [done..| | | |].
  - rewrite !length_seq, <-(length_fmap nfa_set new1), <-(length_fmap nfa_set new2).
    apply Permutation_length. by apply NoDup_Permutation.
  - intros X. by rewrite !Hstates.
  - destruct new1, new2; done.
  - intros w. apply eq_true_iff_eq.
    rewrite (@_make_dfas_accepts T order1 g h start finish new1 w Hrun1).
    by rewrite (@_make_dfas_accepts T order2 g h start finish new2 w Hrun2).
Qed.

Section unifier.
Context {T : Type} `{EqDecision T}.

(** X5: on a list of states without repetition, with distinct labels on
    the arcs of each state and no arc out of the list, the unifier leaves a
    list of the same kind, with the same first state, in which every state
    accepts the words it accepted before.  Every state of the given list
    has a state of the returned list in its place (the state itself if it
    is left), which accepts its words; a walk from a state of the given
    list becomes, state by state, the walk from the state in its place.
    When some word leads from the first state to every state of the given
    list, the same holds of the returned list.  No two states of the
    returned list are equal, in whichever order they are compared. *)
Theorem simplify_dfas_keeps_words (h : list (DFAState T)) (dfas : list nat) :
  dfas_wf h dfas →
  ∃ h' dfas' rho,
    _simplify_dfas h dfas = Ok (h', dfas')
    ∧ dfas_wf h' dfas'
    ∧ head dfas' = head dfas
    ∧ dfa_quotient h dfas h' dfas' rho
    ∧ (∀ s w, s ∈ dfas → dfa_accepts h' (rho s) w = dfa_accepts h s w)
    ∧ (∀ s w, s ∈ dfas' → dfa_accepts h' s w = dfa_accepts h s w)
    ∧ (∀ first, head dfas = Some first →
         all_reached h first dfas → all_reached h' first dfas')
    ∧ (∀ s s', s ∈ dfas' → s' ∈ dfas' → s ≠ s' →
         DFAState_eq (h' !!! s) (h' !!! s') = false).
Proof.
  intros Hwf.
  destruct (_simplify_dfas_spec h dfas) as (h' & dfas' & Hrun & _ & _ & _ & Hno).
  destruct (_simplify_dfas_quotient h dfas h' dfas' Hrun Hwf)
    as (Hwf' & [rho Hq] & Hhead & _).
  exists h', dfas', rho. split_and!; [done..| | | |].
  - intros s w Hs. eapply dfa_quotient_accepts; [done|apply Hwf|done].
  - intros s w Hs. destruct Hq as (Hq1 & Hq2 & Hq3 & Hq4).
    destruct (Hq2 s Hs) as [Hs0 Hrho]. rewrite <-Hrho at 1.
    eapply dfa_quotient_accepts; [by split_and!|apply Hwf|done].
  - intros first Hfirst. rewrite <-Hhead in Hfirst.
    apply (dfa_quotient_reached h dfas h' dfas' rho first Hq).
    destruct dfas' as [|s dfas']; [done|]. injection Hfirst as ->. left.
  - intros s s' [i Hi]%list_elem_of_lookup [j Hj]%list_elem_of_lookup Hne.
    destruct Hwf' as (_ & Hkeys & _).
    destruct (decide (i < j)) as [Hlt|Hge]; [by apply (Hno i j)|].
    assert (j < i) as Hlt.
    { destruct (decide (i = j)) as [->|]; [congruence|lia]. }
    rewrite DFAState_eq_sym.
    + by apply (Hno j i).
    + apply Hkeys. by eapply list_elem_of_lookup_2.
    + apply Hkeys. by eapply list_elem_of_lookup_2.
Qed.

(** X6: the unifier allocates nothing and writes nothing but targets of
    arcs: the heap keeps its length, the cells of the states outside the
    list are as they were, and in every cell the rule name, the node set,
    the finality, the labels of the arcs in their order and the two
    transition tables are as they were.  The list it returns is a sublist
    of the given one with the same first state. *)
Theorem simplify_dfas_only_redirects_arcs (h : list (DFAState T)) (dfas : list nat) :
  ∃ h' dfas',
    _simplify_dfas h dfas = Ok (h', dfas')
    ∧ length h' = length h
    ∧ dfas' `sublist_of` dfas
    ∧ head dfas' = head dfas
    ∧ (∀ l, l ∉ dfas → h' !!! l = h !!! l)
    ∧ (∀ l, same_cell (h !!! l) (h' !!! l)).
Proof.
  destruct (_simplify_dfas_spec h dfas) as (h' & dfas' & Hrun & Hlen & Hsub & Hcell & _).
  exists h', dfas'. split_and!; [done..| | |done].
  - unfold _simplify_dfas, _simplify_dfas_log in Hrun.
    apply bind_Ok in Hrun as ([[h1 dfas1] log] & Hloop & [= <- <-]).
    by eapply simplify_loop_frame.
  - unfold _simplify_dfas, _simplify_dfas_log in Hrun.
    apply bind_Ok in Hrun as ([[h1 dfas1] log] & Hloop & [= <- <-]).
    by eapply simplify_loop_frame.
Qed.

(** X7: on states with distinct labels, [DFAState.__eq__] is an
    equivalence: a state equals itself, the comparison gives the same
    answer in both directions, and two states equal to a third are equal.
    Redirecting the arcs of two equal states with [unifystate] leaves them
    equal. *)
Theorem DFAState_eq_is_equivalence (s1 s2 s3 : DFAState T) (old new : nat) :
  NoDup (arcs s1).*1 → NoDup (arcs s2).*1 → NoDup (arcs s3).*1 →
  DFAState_eq s1 s1 = true
  ∧ DFAState_eq s1 s2 = DFAState_eq s2 s1
  ∧ (DFAState_eq s1 s2 = true → DFAState_eq s2 s3 = true →
     DFAState_eq s1 s3 = true)
  ∧ (DFAState_eq s1 s2 = true →
     DFAState_eq (unifystate old new s1) (unifystate old new s2) = true).
Proof.
  intros H1 H2 H3. split_and!.
  - by apply DFAState_eq_refl.
  - by apply DFAState_eq_sym.
  - by apply DFAState_eq_trans.
  - by apply DFAState_eq_unifystate.
Qed.

(** X17: on a list of states without repetition, with distinct labels on
    the arcs of each state and no arc out of the list, [_dump_dfas] raises
    [IndexError] when the list is empty and returns otherwise: [dfas.index]
    does not raise [ValueError].  On the list that the unifier returns for
    such a list, it has then printed the name of the rule of the first
    state, then for each state its position and finality and, for each of
    its arcs, the label and the position of the target of the arc:
    [dfas.index], which compares with [DFAState.__eq__], finds every state
    of that list at its own position. *)
Theorem dump_dfas_shows_targets (h : list (DFAState T)) (dfas : list nat)
    (h' : list (DFAState T)) (dfas' : list nat) :
  dfas_wf h dfas → _simplify_dfas h dfas = Ok (h', dfas') →
  (_dump_dfas h dfas).2
  = (if decide (dfas = []) then Raises IndexError else Returns)
  ∧ _dump_dfas h' dfas'
    = (if decide (dfas' = []) then ([], Raises IndexError)
       else (dump_text h' dfas', Returns))
  ∧ ∀ p state, dfas' !! p = Some state → list_index h' dfas' state = Some p.
Proof.
  intros Hwf Hrun.
  destruct (_simplify_dfas_spec h dfas) as (h2 & dfas2 & Hrun' & _ & _ & _ & Hno).
  assert (h2 = h' ∧ dfas2 = dfas') as [-> ->] by (split; congruence).
  destruct (_simplify_dfas_quotient h dfas h' dfas' Hrun Hwf) as (Hwf' & _).
  split_and!.
  - case_decide as Hne; [by subst|]. apply _dump_dfas_returns; [apply Hwf|done].
  - case_decide as Hne; [by subst|]. by apply _dump_dfas_positions.
  - intros p state Hp. apply list_index_position; [apply Hwf'|done..].
Qed.
End unifier.

(** * Further properties of the driver *)

Section keys.
Context {T : Type} `{EqDecision T}.
Context (literal_eval : string → option string).
Context (token_namespace : string → option T).
Implicit Types (rs : list ReservedString * list (string * nat)).


(** X9: when the interning table and the reserved strings describe each
    other, a call of [_make_transition] that returns keeps it so.  It
    leaves the table as it is, or it appends one reserved string, for the
    value of the quoted literal it was given, which the table did not hold;
    the entries that were there keep their objects.  Resolving the same
    label again returns the same key and changes nothing. *)
Theorem make_transition_interns_once rs (label : string) key rs' :
  rs_ok rs →
  _make_transition literal_eval token_namespace rs label = Ok (key, rs') →
  rs_ok rs' ∧ rs_le rs rs'
  ∧ _make_transition literal_eval token_namespace rs' label = Ok (key, rs')
  ∧ (rs' = rs
     ∨ ∃ v, quoted label ∧ literal_eval label = Some v ∧ (v ∉ rs.2.*1)
            ∧ key = ReservedKey (length rs.1)
            ∧ rs' = (rs.1 ++ [{| value := v |}], rs.2 ++ [(v, length rs.1)])).
Proof.
  intros Hok Hrun.
  destruct (_make_transition_inv _ _ _ _ _ _ Hrun Hok) as (Hok' & Hle & Hagain).
  split_and!; [done..|]. by eapply _make_transition_grows.
Qed.

(** X10: two quoted labels that are resolved one after the other, starting
    from a table and reserved strings that describe each other, get the
    same key exactly when their literal values are equal: one reserved
    string never stands for two values. *)
Theorem reserved_keys_tell_values_apart rs (label1 label2 : string)
    key1 key2 rs1 rs2 v1 v2 :
  rs_ok rs →
  _make_transition literal_eval token_namespace rs label1 = Ok (key1, rs1) →
  _make_transition literal_eval token_namespace rs1 label2 = Ok (key2, rs2) →
  quoted label1 → quoted label2 →
  literal_eval label1 = Some v1 → literal_eval label2 = Some v2 →
  key1 = key2 ↔ v1 = v2.
Proof. apply _make_transition_apart. Qed.
End keys.

Section driver.
Context {T : Type} `{EqDecision T} `{SetOrder}.
Context (literal_eval : string → option string).
Context (token_namespace : string → option T).

(** X11: in a compiled grammar the list of states of a rule is not empty,
    and its first state accepts exactly the words of the NFA fragment of
    the rule: the words that the paths from the start node to the finish
    node of the fragment spell.  When several fragments carry the name of
    the rule, the fragment is the last of them. *)
Theorem generate_grammar_rules_accept_fragments g fragments h rs_heap gr
    (rule : string) (dfas : list nat) :
  generate_grammar literal_eval g fragments token_namespace = Ok (h, rs_heap, gr) →
  (rule, dfas) ∈ nonterminal_to_dfas gr →
  ∃ first rest a z before after,
    dfas = first :: rest
    ∧ fragments = before ++ (a, z) :: after
    ∧ nfa_from_rule (g !!! a) = rule
    ∧ (∀ f, f ∈ after → nfa_from_rule (g !!! f.1) ≠ rule)
    ∧ ∀ w, dfa_accepts h first w = true ↔ nfa_path g a w z.
Proof.
  intros Hrun Hin.
  destruct (generate_grammar_rules _ _ _ _ _ _ _ Hrun) as [_ Hrules].
  by destruct (Hrules rule dfas Hin) as (_ & _ & Hrule).
Qed.

(** X12: the start rule of a compiled grammar is the rule of the first
    fragment; the keys of the rule table are the names of the rules of the
    fragments, each of them once; and no rule has an empty list of
    states. *)
Theorem generate_grammar_start_and_rule_names g fragments h rs_heap gr :
  generate_grammar literal_eval g fragments token_namespace = Ok (h, rs_heap, gr) →
  start_nonterminal gr = (λ f, nfa_from_rule (g !!! f.1)) <$> head fragments
  ∧ NoDup (nonterminal_to_dfas gr).*1
  ∧ (∀ rule, rule ∈ (nonterminal_to_dfas gr).*1
             ↔ ∃ f, f ∈ fragments ∧ nfa_from_rule (g !!! f.1) = rule)
  ∧ (∀ rule dfas, (rule, dfas) ∈ nonterminal_to_dfas gr → dfas ≠ []).
Proof.
  intros Hrun.
  destruct (generate_grammar_rules _ _ _ _ _ _ _ Hrun) as [Hnd Hrules].
  destruct (generate_grammar_inv _ _ _ _ _ _ _ Hrun)
    as (_ & (acc & _ & Hinv & Htable & Hstart & _) & _).
  destruct Hinv as (_ & _ & _ & _ & Hkeys & Hhead).
  split_and!.
  - by rewrite <-Hstart, Hhead.
  - done.
  - intros rule. split.
    + intros ([rule' dfas] & -> & Hin)%list_elem_of_fmap.
      destruct (Hrules rule' dfas Hin)
        as (_ & _ & first & rest & a & z & before & after & _ & -> & Hname & _).
      exists (a, z). split; [|done]. apply elem_of_app. right. left.
    + intros ([a z] & Hf & <-). rewrite <-Htable. by eapply Hkeys.
  - intros rule dfas Hin.
    by destruct (Hrules rule dfas Hin) as (_ & _ & first & rest & ? & ? & ? & ? & -> & _).
Qed.

(** X13: in a compiled grammar no state belongs to two rules or stands
    twice in the list of a rule, every state of a rule is a cell of the
    heap, and the states of a rule refer to states of that rule only: the
    target of every arc, of every instruction of the table of plans and of
    every entry of the nonterminal view of a state of the rule is in the
    list of the rule. *)
Theorem generate_grammar_targets_stay_in_rule g fragments h rs_heap gr :
  generate_grammar literal_eval g fragments token_namespace = Ok (h, rs_heap, gr) →
  NoDup (concat (nonterminal_to_dfas gr).*2)
  ∧ ∀ rule dfas state,
      (rule, dfas) ∈ nonterminal_to_dfas gr → state ∈ dfas →
      state < length h
      ∧ (∀ label target, (label, target) ∈ arcs (h !!! state) → target ∈ dfas)
      ∧ (∀ key plan, (key, plan) ∈ ilabel_to_plan (h !!! state) →
           next_dfa plan ∈ dfas)
      ∧ (∀ label target, (label, target) ∈ nonterminal_arcs (h !!! state) →
           target ∈ dfas).
Proof.
  intros Hrun.
  destruct (generate_grammar_rules _ _ _ _ _ _ _ Hrun) as [_ Hrules].
  destruct (generate_grammar_inv _ _ _ _ _ _ _ Hrun)
    as (_ & (acc & _ & Hinv & Htable & _ & Hlen & _) & _).
  destruct Hinv as (_ & Hnd & Hvalid & _).
  rewrite Htable in Hnd, Hvalid. split; [done|].
  intros rule dfas state Hin Hstate.
  assert (state ∈ concat (nonterminal_to_dfas gr).*2) as Hall.
  { by eapply elem_of_rule_states. }
  destruct (Hrules rule dfas Hin) as ((_ & _ & Hclosed) & _).
  destruct (generate_grammar_targets _ _ _ _ _ _ _ _ Hrun Hall) as [Hplans Hnts].
  split_and!.
  - rewrite Hlen. by apply Hvalid.
  - intros label target. by apply Hclosed.
  - intros key plan Hp. destruct (Hplans key plan Hp) as (label & Harc & _).
    by eapply Hclosed.
  - intros label target Hn. destruct (Hnts label target Hn) as [Harc _].
    by eapply Hclosed.
Qed.

(** X14: the interning table of a compiled grammar holds exactly the
    literal values of the quoted labels on those arcs of the states of the
    rule table whose label is not a rule name; and the table and the heap
    of reserved strings describe each other: the table maps a value to an
    object exactly when the object at that address has the value. *)
Theorem reserved_strings_are_the_literals g fragments h rs_heap gr :
  generate_grammar literal_eval g fragments token_namespace = Ok (h, rs_heap, gr) →
  (∀ v, v ∈ (reserved_syntax_strings gr).*1
        ↔ ∃ rule dfas state label,
            (rule, dfas) ∈ nonterminal_to_dfas gr ∧ state ∈ dfas
            ∧ label ∈ (arcs (h !!! state)).*1
            ∧ dict_mem label (nonterminal_to_dfas gr) = false
            ∧ quoted label ∧ literal_eval label = Some v)
  ∧ (∀ v a, dict_get v (reserved_syntax_strings gr) = Some a
            ↔ rs_heap !! a = Some {| value := v |}).
Proof.
  intros Hrun. split.
  - intros v. split; [intros Hv; by eapply generate_grammar_keys|].
    intros (rule & dfas & state & label & Hin & Hstate & Hlabel & Hmem & Hq & Hv).
    apply list_elem_of_fmap in Hlabel as ([label' target] & -> & Harc).
    destruct (quoted_label_key _ _ _ _ _ _ _ _ _ _ _ _ _ Hrun Hin Hstate Harc Hmem Hq Hv)
      as (r & Hr & _).
    apply dict_get_is_Some. by exists r.
  - by destruct (generate_grammar_inv _ _ _ _ _ _ _ Hrun) as (Hok & _).
Qed.



(** X18: the text of a DFA state shows the name of its rule and its
    finality and nothing else: two states have the same text exactly when
    they agree on both.  The text of a reserved string shows its value, and
    in a compiled grammar no two reserved strings have the same text. *)
Theorem reprs_show_rule_finality_and_value :
  (∀ s s' : DFAState T,
     DFAState_repr s = DFAState_repr s'
     ↔ from_rule s = from_rule s' ∧ is_final s = is_final s')
  ∧ (∀ r r', ReservedString_repr r = ReservedString_repr r' ↔ value r = value r')
  ∧ ∀ g fragments h rs_heap gr,
      generate_grammar literal_eval g fragments token_namespace
      = Ok (h, rs_heap, gr) →
      ∀ a b ra rb, rs_heap !! a = Some ra → rs_heap !! b = Some rb →
        ReservedString_repr ra = ReservedString_repr rb → a = b.
Proof.
  split_and!.
  - apply DFAState_repr_inj.
  - intros r r'. split; [by intros ->%ReservedString_repr_inj|].
    unfold ReservedString_repr. by intros ->.
  - intros g fragments h rs_heap gr Hrun a b ra rb Ha Hb Heq.
    apply ReservedString_repr_inj in Heq as <-.
    destruct (generate_grammar_inv _ _ _ _ _ _ _ Hrun) as (Hok & _).
    destruct ra as [v]. apply (Hok v) in Ha, Hb. simpl in *. congruence.
Qed.
End driver.

(** * The further properties on the example grammars *)

(** X5 on the seven states of [x: 'a' 'c' | 'b' 'c' | 'd' | 'e'] before
    unification. *)
Lemma simplify_dfas_keeps_words_witness :
  ∃ h' dfas' rho,
    _simplify_dfas alternatives_heap [0; 1; 2; 3; 4; 5; 6] = Ok (h', dfas')
    ∧ dfas_wf h' dfas'
    ∧ head dfas' = head [0; 1; 2; 3; 4; 5; 6]
    ∧ dfa_quotient alternatives_heap [0; 1; 2; 3; 4; 5; 6] h' dfas' rho
    ∧ (∀ s w, s ∈ [0; 1; 2; 3; 4; 5; 6] →
         dfa_accepts h' (rho s) w = dfa_accepts alternatives_heap s w)
    ∧ (∀ s w, s ∈ dfas' →
         dfa_accepts h' s w = dfa_accepts alternatives_heap s w)
    ∧ (∀ first, head [0; 1; 2; 3; 4; 5; 6] = Some first →
         all_reached alternatives_heap first [0; 1; 2; 3; 4; 5; 6] →
         all_reached h' first dfas')
    ∧ (∀ s s', s ∈ dfas' → s' ∈ dfas' → s ≠ s' →
         DFAState_eq (h' !!! s) (h' !!! s') = false).
Proof.
  apply (simplify_dfas_keeps_words alternatives_heap [0; 1; 2; 3; 4; 5; 6]).
  apply (bool_decide_unpack _). vm_compute. exact I.
Defined.

(** X17 on the same states: three are left, and the dump shows the
    targets of their arcs. *)
Lemma dump_dfas_shows_targets_witness :
  (_dump_dfas alternatives_heap [0; 1; 2; 3; 4; 5; 6]).2
  = (if decide ([0; 1; 2; 3; 4; 5; 6] = []) then Raises IndexError else Returns)
  ∧ _dump_dfas alternatives_unified_heap [0; 1; 3]
    = (if decide ([0; 1; 3] = []) then ([], Raises IndexError)
       else (dump_text alternatives_unified_heap [0; 1; 3], Returns))
  ∧ ∀ p state, [0; 1; 3] !! p = Some state →
      list_index alternatives_unified_heap [0; 1; 3] state = Some p.
Proof.
  apply (dump_dfas_shows_targets alternatives_heap [0; 1; 2; 3; 4; 5; 6]
           alternatives_unified_heap [0; 1; 3]).
  - apply (bool_decide_unpack _). vm_compute. exact I.
  - vm_compute. reflexivity.
Defined.

(** X7 on three of these states: the states after ['d'] and after ['e']
    are equal, the state after ['a' 'c'] has the same finality and no arc
    either. *)
Lemma DFAState_eq_is_equivalence_witness :
  DFAState_eq (alternatives_heap !!! 3) (alternatives_heap !!! 3) = true
  ∧ DFAState_eq (alternatives_heap !!! 3) (alternatives_heap !!! 4)
    = DFAState_eq (alternatives_heap !!! 4) (alternatives_heap !!! 3)
  ∧ (DFAState_eq (alternatives_heap !!! 3) (alternatives_heap !!! 4) = true →
     DFAState_eq (alternatives_heap !!! 4) (alternatives_heap !!! 5) = true →
     DFAState_eq (alternatives_heap !!! 3) (alternatives_heap !!! 5) = true)
  ∧ (DFAState_eq (alternatives_heap !!! 3) (alternatives_heap !!! 4) = true →
     DFAState_eq (unifystate 6 5 (alternatives_heap !!! 3))
                 (unifystate 6 5 (alternatives_heap !!! 4)) = true).
Proof.
  apply (DFAState_eq_is_equivalence (alternatives_heap !!! 3)
           (alternatives_heap !!! 4) (alternatives_heap !!! 5) 6 5).
  - apply (bool_decide_unpack _). vm_compute. exact I.
  - apply (bool_decide_unpack _). vm_compute. exact I.
  - apply (bool_decide_unpack _). vm_compute. exact I.
Defined.

(** X9 on the literal ['if'] and the empty table. *)
Lemma make_transition_interns_once_witness :
  rs_ok ([{| value := "if" |}], [("if"%string, 0)])
  ∧ rs_le ([], []) ([{| value := "if" |}], [("if"%string, 0)])
  ∧ _make_transition plain_literal_eval py_tokens
      ([{| value := "if" |}], [("if"%string, 0)]) "'if'"
    = Ok (ReservedKey 0, ([{| value := "if" |}], [("if"%string, 0)]))
  ∧ (([{| value := "if" |}], [("if"%string, 0)]) = ([], [])
     ∨ ∃ v, quoted "'if'" ∧ plain_literal_eval "'if'" = Some v
            ∧ (v ∉ ([] : list (string * nat)).*1)
            ∧ ReservedKey (T:=nat) 0 = ReservedKey (length ([] : list ReservedString))
            ∧ ([{| value := "if" |}], [("if"%string, 0)])
              = ([] ++ [{| value := v |}],
                 [] ++ [(v, length ([] : list ReservedString))])).
Proof.
  apply (make_transition_interns_once plain_literal_eval py_tokens ([], []) "'if'"
           (ReservedKey 0) ([{| value := "if" |}], [("if"%string, 0)])).
  - apply rs_ok_nil.
  - vm_compute. reflexivity.
Defined.

(** X10 on the literals ['a'] and ['b']: two values, two reserved
    strings. *)
Lemma reserved_keys_tell_values_apart_witness :
  ReservedKey (T:=nat) 0 = ReservedKey 1 ↔ "a"%string = "b"%string.
Proof.
  apply (reserved_keys_tell_values_apart plain_literal_eval py_tokens ([], [])
           "'a'" "'b'" (ReservedKey 0) (ReservedKey 1)
           ([{| value := "a" |}], [("a"%string, 0)])
           ([{| value := "a" |}; {| value := "b" |}],
            [("a"%string, 0); ("b"%string, 1)]) "a" "b").
  - apply rs_ok_nil.
  - vm_compute. reflexivity.
  - vm_compute. reflexivity.
  - eexists _, _. split; [reflexivity|by right].
  - eexists _, _. split; [reflexivity|by right].
  - vm_compute. reflexivity.
  - vm_compute. reflexivity.
Defined.

(** X11 on [stmt: 'if' NAME other] and [other: "if"]: the first state of
    [stmt] accepts the words of the fragment from node 0 to node 3. *)
Lemma generate_grammar_rules_accept_fragments_witness :
  ∃ first rest a z before after,
    [0; 1; 2; 3] = first :: rest
    ∧ [(0, 3); (4, 5)] = before ++ (a, z) :: after
    ∧ nfa_from_rule (nfa_two_rules !!! a) = "stmt"%string
    ∧ (∀ f, f ∈ after → nfa_from_rule (nfa_two_rules !!! f.1) ≠ "stmt"%string)
    ∧ ∀ w, dfa_accepts (final_heap two_rules_grammar) first w = true
           ↔ nfa_path nfa_two_rules a w z.
Proof.
  apply (generate_grammar_rules_accept_fragments plain_literal_eval py_tokens
           nfa_two_rules [(0, 3); (4, 5)] _ _ _ "stmt"%string [0; 1; 2; 3]
           two_rules_grammar_run).
  vm_compute. repeat constructor.
Defined.

(** X12 on the same grammar: the start rule is [stmt]. *)
Lemma generate_grammar_start_and_rule_names_witness :
  start_nonterminal (final_grammar two_rules_grammar)
  = (λ f, nfa_from_rule (nfa_two_rules !!! f.1)) <$> head [(0, 3); (4, 5)]
  ∧ NoDup (nonterminal_to_dfas (final_grammar two_rules_grammar)).*1
  ∧ (∀ rule, rule ∈ (nonterminal_to_dfas (final_grammar two_rules_grammar)).*1
             ↔ ∃ f, f ∈ [(0, 3); (4, 5)]
                    ∧ nfa_from_rule (nfa_two_rules !!! f.1) = rule)
  ∧ (∀ rule dfas,
       (rule, dfas) ∈ nonterminal_to_dfas (final_grammar two_rules_grammar) →
       dfas ≠ []).
Proof.
  exact (generate_grammar_start_and_rule_names plain_literal_eval py_tokens
           nfa_two_rules [(0, 3); (4, 5)] _ _ _ two_rules_grammar_run).
Defined.

(** X13 on the same grammar. *)
Lemma generate_grammar_targets_stay_in_rule_witness :
  NoDup (concat (nonterminal_to_dfas (final_grammar two_rules_grammar)).*2)
  ∧ ∀ rule dfas state,
      (rule, dfas) ∈ nonterminal_to_dfas (final_grammar two_rules_grammar) →
      state ∈ dfas →
      state < length (final_heap two_rules_grammar)
      ∧ (∀ label target,
           (label, target) ∈ arcs (final_heap two_rules_grammar !!! state) →
           target ∈ dfas)
      ∧ (∀ key plan,
           (key, plan) ∈ ilabel_to_plan (final_heap two_rules_grammar !!! state) →
           next_dfa plan ∈ dfas)
      ∧ (∀ label target,
           (label, target) ∈ nonterminal_arcs (final_heap two_rules_grammar !!! state) →
           target ∈ dfas).
Proof.
  exact (generate_grammar_targets_stay_in_rule plain_literal_eval py_tokens
           nfa_two_rules [(0, 3); (4, 5)] _ _ _ two_rules_grammar_run).
Defined.

(** X14 on the same grammar: the table holds the value [if] alone. *)
Lemma reserved_strings_are_the_literals_witness :
  (∀ v, v ∈ (reserved_syntax_strings (final_grammar two_rules_grammar)).*1
        ↔ ∃ rule dfas state label,
            (rule, dfas) ∈ nonterminal_to_dfas (final_grammar two_rules_grammar)
            ∧ state ∈ dfas
            ∧ label ∈ (arcs (final_heap two_rules_grammar !!! state)).*1
            ∧ dict_mem label (nonterminal_to_dfas (final_grammar two_rules_grammar))
              = false
            ∧ quoted label ∧ plain_literal_eval label = Some v)
  ∧ (∀ v a, dict_get v (reserved_syntax_strings (final_grammar two_rules_grammar))
            = Some a
            ↔ final_reserved two_rules_grammar !! a = Some {| value := v |}).
Proof.
  exact (reserved_strings_are_the_literals plain_literal_eval py_tokens
           nfa_two_rules [(0, 3); (4, 5)] _ _ _ two_rules_grammar_run).
Defined.

